(** * picam: frame conversion and letterboxed display

    A shallow embedding of [display.cpp] (pixel-format conversion, the
    letterbox geometry, the per-frame update, the construction and the
    teardown) and of the comparisons of [image_frame.h], and the properties
    of the frame-to-display pipeline proved about it.

    Conventions of the embedding:
    - C++ integers are [Z]; unsigned 32-bit arithmetic is reduced modulo
      [2^32] where the source computes in [std::uint32_t], and [int]
      arithmetic whose result leaves the [int] range is undefined behaviour,
      reported as [Undefined SignedOverflow];
    - byte buffers ([std::span<std::byte>], [std::vector<std::uint8_t>]) are
      [list Z] with entries in [0, 255]; a read or write of a byte outside
      its buffer, and the address of an element that does not exist, is
      reported as [Undefined OutOfBounds];
    - [float] is IEEE-754 binary32, through the Standard Library's
      executable specification [SpecFloat] at precision 24; the real number
      a [float] denotes is used only to state rounding errors;
    - calls into OpenGL/GLFW and prints to [stderr] are recorded as events,
      in program order; the two queries of the framebuffer size in one render
      pass see the same size, as nothing polls window events in between;
    - what GLFW and the OpenGL driver answer during construction is a
      parameter, [Platform]; an exception that leaves a member function is
      returned as a [Failure], with the state and the calls up to it;
    - memory allocation succeeds. *)

From Stdlib Require Import ZArith Lia Bool.
From Stdlib Require Import Reals Lra.
From Stdlib Require Import Floats.SpecFloat.
From stdpp Require Import base list.

Local Open Scope Z_scope.

(** ** Outcomes of a C++ computation *)

Inductive fault : Type :=
  | SignedOverflow   (* an [int] expression left the range of [int] *)
  | OutOfBounds.     (* a byte outside its buffer was read, written or addressed *)

Inductive outcome (A : Type) : Type :=
  | Ok (a : A)
  | Undefined (f : fault).

Arguments Ok {A} a.
Arguments Undefined {A} f.

Definition obind {A B : Type} (m : outcome A) (k : A -> outcome B) : outcome B :=
  match m with
  | Ok a => k a
  | Undefined f => Undefined f
  end.

Notation "x <~ m ;; k" := (obind m (fun x => k))
  (at level 100, m at next level, right associativity).

(** [for (i = start; i < bound; i += step) body], for [0 < step]. The loop
    runs at most [bound] times from a non-negative start, which is the fuel
    the callers give it. *)
Fixpoint for_loop {S : Type} (fuel : nat) (i bound step : Z)
    (body : Z -> S -> outcome S) (s : S) : outcome S :=
  match fuel with
  | O => Ok s
  | Datatypes.S fuel' =>
      if i <? bound
      then s' <~ body i s ;; for_loop fuel' (i + step) bound step body s'
      else Ok s
  end.

(** ** Machine integers *)

Definition INT_MIN : Z := - 2 ^ 31.
Definition INT_MAX : Z := 2 ^ 31 - 1.
Definition UINT16_MAX : Z := 65535.
Definition UINT32_MAX : Z := 2 ^ 32 - 1.

(** Product of two [int]s. *)
Definition int_mul (a b : Z) : outcome Z :=
  let r := a * b in
  if (INT_MIN <=? r) && (r <=? INT_MAX) then Ok r else Undefined SignedOverflow.

(** Result of an expression computed in [std::uint32_t]. *)
Definition u32 (z : Z) : Z := z mod 2 ^ 32.

(** [std::clamp(v, lo, hi)] *)
Definition clamp (v lo hi : Z) : Z :=
  if v <? lo then lo else if hi <? v then hi else v.

(** ** Byte buffers *)

Definition len (buf : list Z) : Z := Z.of_nat (length buf).

Definition load (buf : list Z) (i : Z) : outcome Z :=
  if 0 <=? i then
    match buf !! Z.to_nat i with
    | Some b => Ok b
    | None => Undefined OutOfBounds
    end
  else Undefined OutOfBounds.

Definition store (buf : list Z) (i v : Z) : outcome (list Z) :=
  if (0 <=? i) && (i <? len buf)
  then Ok (<[Z.to_nat i := v]> buf)
  else Undefined OutOfBounds.

(** [std::memcpy(&dst[doff], &src[soff], n)]: both arguments are addresses
    of elements, which must exist ([dst[doff]] indexes a vector, [src[soff]]
    a pointer into the pixel buffer), also when [n = 0]; then the [n] bytes of
    [src] from [soff] replace the [n] bytes of [dst] from [doff], all of which
    must lie in their buffers. *)
Definition memcpy (dst : list Z) (doff : Z) (src : list Z) (soff n : Z)
    : outcome (list Z) :=
  if (doff <? len dst) && (soff <? len src)
     && (soff + n <=? len src) && (doff + n <=? len dst)
  then Ok (take (Z.to_nat doff) dst
             ++ take (Z.to_nat n) (drop (Z.to_nat soff) src)
             ++ drop (Z.to_nat (doff + n)) dst)
  else Undefined OutOfBounds.

(** [std::vector<std::uint8_t>::resize(n)]: keeps the first [n] bytes,
    appends zero bytes up to length [n]. *)
Definition vector_resize (v : list Z) (n : Z) : list Z :=
  resize (Z.to_nat n) 0 v.

(** ** Data model ([image_frame.h]) *)

Record ImageSize : Type := mkImageSize {
  width : Z;    (* std::uint16_t *)
  height : Z    (* std::uint16_t *)
}.

Record Header : Type := mkHeader {
  timestamp : Z;
  pitch : Z;          (* std::uint32_t, bytes per row *)
  size : ImageSize;
  format : Z          (* std::uint32_t, pixel format tag *)
}.

Record ImageFrame : Type := mkImageFrame {
  header : Header;
  pixels : list Z
}.

(** The ranges of the header's integer types. *)
Definition header_in_range (h : Header) : Prop :=
  0 <= width (size h) <= UINT16_MAX /\
  0 <= height (size h) <= UINT16_MAX /\
  0 <= pitch h <= UINT32_MAX /\
  0 <= format h <= UINT32_MAX.

(** The two pixel formats the converter recognises, as the DRM fourcc codes
    that [libcamera/formats.h] gives them: 'RG24' and 'YUYV'. *)
Definition RGB888 : Z := 0x34324752.
Definition YUYV : Z := 0x56595559.

(** ** Comparing sizes and headers ([image_frame.h]) *)

(** [ImageSize]'s defaulted [operator<=>]: the members are compared in the
    order of their declaration, the first difference decides. *)
Definition ImageSize_compare (a b : ImageSize) : comparison :=
  match width a ?= width b with
  | Eq => height a ?= height b
  | c => c
  end.

(** The [operator==] that the defaulted [operator<=>] brings with it:
    member by member. *)
Definition ImageSize_eqb (a b : ImageSize) : bool :=
  (width a =? width b) && (height a =? height b).

(** [matchesFormat]: equality of the tuples [std::tie(size, format)]. *)
Definition matchesFormat (hd1 hd2 : Header) : bool :=
  ImageSize_eqb (size hd1) (size hd2) && (format hd1 =? format hd2).

(** ** Pixel-format conversion ([convertToRGB]) *)

Inductive Diagnostic : Type :=
  | WarnUnsupportedFormat (fmt : Z).

(** ITU-R BT.601 in fixed point, one channel each, from [c = Y - 16],
    [d = U - 128], [e = V - 128]. *)
Definition bt601_r (c d e : Z) : Z := clamp (Z.shiftr (298 * c + 409 * e + 128) 8) 0 255.
Definition bt601_g (c d e : Z) : Z := clamp (Z.shiftr (298 * c - 100 * d - 208 * e + 128) 8) 0 255.
Definition bt601_b (c d e : Z) : Z := clamp (Z.shiftr (298 * c + 516 * d + 128) 8) 0 255.

(** Body of the inner YUYV loop: the pixel pair at columns [x], [x + 1] of the
    source row starting at [row], written to the output row starting at
    [rgb_row]. *)
Definition yuyv_pair (src : list Z) (row rgb_row : Z) (x : Z) (rgb : list Z)
    : outcome (list Z) :=
  y0 <~ load src (row + x * 2) ;;
  u <~ load src (row + (x * 2 + 1)) ;;
  y1 <~ load src (row + (x * 2 + 2)) ;;
  v <~ load src (row + (x * 2 + 3)) ;;
  let c0 := y0 - 16 in
  let c1 := y1 - 16 in
  let d := u - 128 in
  let e := v - 128 in
  rgb <~ store rgb (rgb_row + x * 3) (bt601_r c0 d e) ;;
  rgb <~ store rgb (rgb_row + (x * 3 + 1)) (bt601_g c0 d e) ;;
  rgb <~ store rgb (rgb_row + (x * 3 + 2)) (bt601_b c0 d e) ;;
  rgb <~ store rgb (rgb_row + (x + 1) * 3) (bt601_r c1 d e) ;;
  rgb <~ store rgb (rgb_row + ((x + 1) * 3 + 1)) (bt601_g c1 d e) ;;
  store rgb (rgb_row + ((x + 1) * 3 + 2)) (bt601_b c1 d e).

(** Body of the outer YUYV loop: row [y]. The two row pointers are the
    addresses of [src[y * pitch]] and of [rgb_data[y * width * 3]], elements
    that must exist, whether or not the row has a pixel. *)
Definition yuyv_row (src : list Z) (w p : Z) (y : Z) (rgb : list Z)
    : outcome (list Z) :=
  let row := u32 (y * p) in
  let rgb_row := u32 (y * w * 3) in
  if (row <? len src) && (rgb_row <? len rgb)
  then for_loop (Z.to_nat w) 0 w 2 (yuyv_pair src row rgb_row) rgb
  else Undefined OutOfBounds.

(** Body of the RGB888 loop: row [y]. *)
Definition rgb888_row (src : list Z) (w p : Z) (y : Z) (rgb : list Z)
    : outcome (list Z) :=
  memcpy rgb (u32 (y * w * 3)) src (u32 (y * p)) (w * 3).

(** Body of the error-pattern loop: the pixel at byte [i]. *)
Definition magenta_pixel (i : Z) (rgb : list Z) : outcome (list Z) :=
  rgb <~ store rgb i 255 ;;
  rgb <~ store rgb (i + 1) 0 ;;
  store rgb (i + 2) 255.

(** [width * height * 3], the argument of [rgb_data.resize]: both operands
    are promoted to [int] and the products are [int] products. *)
Definition rgb_size (w h : Z) : outcome Z := wh <~ int_mul w h ;; int_mul wh 3.

Definition convertToRGB (frame : ImageFrame) (rgb_data : list Z)
    : outcome (list Z * list Diagnostic) :=
  let w := width (size (header frame)) in
  let h := height (size (header frame)) in
  let p := pitch (header frame) in
  let src := pixels frame in
  n <~ rgb_size w h ;;
  let rgb_data := vector_resize rgb_data n in
  let fmt := format (header frame) in
  if fmt =? RGB888 then
    rgb <~ for_loop (Z.to_nat h) 0 h 1 (rgb888_row src w p) rgb_data ;;
    Ok (rgb, [])
  else if fmt =? YUYV then
    rgb <~ for_loop (Z.to_nat h) 0 h 1 (yuyv_row src w p) rgb_data ;;
    Ok (rgb, [])
  else
    rgb <~ for_loop (Z.to_nat (len rgb_data)) 0 (len rgb_data) 3 magenta_pixel rgb_data ;;
    Ok (rgb, [WarnUnsupportedFormat fmt]).

(** ** Single-precision floats *)

Definition float32 : Type := spec_float.

Definition prec32 : Z := 24.
Definition emax32 : Z := 128.

Definition f32_zero : float32 := S754_zero false.                 (* 0.0F *)
Definition f32_one : float32 := S754_finite false 8388608 (-23).  (* 1.0F *)

(** [static_cast<float>(z)] for an integer [z], rounded to nearest even. *)
Definition f32_of_int (z : Z) : float32 := binary_normalize prec32 emax32 z 0 false.

Definition f32_div (a b : float32) : float32 := SFdiv prec32 emax32 a b.
Definition f32_gt (a b : float32) : bool := SFltb b a.
Definition f32_neg (a : float32) : float32 := SFopp a.

(** ** The display ([Display::Impl]) *)

Record Impl : Type := mkImpl {
  window : Z;                    (* GLFWwindow*, 0 is nullptr *)
  texture_id : Z;
  current_frame_header : Header;
  rgb_buffer : list Z;
  shader_program : Z;
  vao : Z;
  vbo : Z;
  image_aspect_ratio : float32
}.

(** What the display does to the outside world, in program order. *)
Inductive Event : Type :=
  | GlViewport (x y w h : Z)
  | GlClearColor (r g b a : float32)
  | GlClear
  | GlBindBuffer (id : Z)
  | GlBufferSubData (offset : Z) (data : list float32)
  | GlUseProgram (id : Z)
  | GlActiveTexture0
  | GlBindTexture (id : Z)
  | GlTexImage2D (w h : Z) (data : list Z)
  | GlBindVertexArray (id : Z)
  | GlDrawArrays (first count : Z)        (* mode GL_TRIANGLE_FAN *)
  | GlfwSwapBuffers (win : Z)
  | GlDeleteTextures (id : Z)
  | GlDeleteVertexArrays (id : Z)
  | GlDeleteBuffers (id : Z)
  | GlDeleteProgram (id : Z)
  | GlfwDestroyWindow (win : Z)
  | GlfwTerminate
  | Stderr (d : Diagnostic).

Definition is_draw (e : Event) : bool :=
  match e with GlDrawArrays _ _ => true | _ => false end.

Definition is_diagnostic (e : Event) : bool :=
  match e with Stderr _ => true | _ => false end.

(** The handle an event releases, if it is a release. *)
Definition released (e : Event) : option Z :=
  match e with
  | GlDeleteTextures id | GlDeleteVertexArrays id
  | GlDeleteBuffers id | GlDeleteProgram id => Some id
  | GlfwDestroyWindow win => Some win
  | _ => None
  end.

(** Contents of the quad's vertex buffer after a run of events, from its
    contents before: [glBufferSubData] at offset 0 replaces all 16 floats. *)
Definition vertex_data_after (evs : list Event) (before : list float32) : list float32 :=
  foldl (fun q e => match e with GlBufferSubData _ d => d | _ => q end) before evs.

(** The vertex data [setupQuad] uploads: the full-screen quad. *)
Definition QUAD_VERTICES : list float32 :=
  [ f32_neg f32_one; f32_one;         f32_zero; f32_zero;
    f32_neg f32_one; f32_neg f32_one; f32_zero; f32_one;
    f32_one;         f32_neg f32_one; f32_one;  f32_one;
    f32_one;         f32_one;         f32_one;  f32_zero ].

(** [uploadTexture] *)
Definition uploadTexture (s : Impl) (rgb_data : list Z) (sz : ImageSize) : list Event :=
  [ GlBindTexture (texture_id s);
    GlTexImage2D (width sz) (height sz) rgb_data;
    GlBindTexture 0 ].

(** The letterbox computation of [updateQuadForLetterbox], for a framebuffer
    of non-zero size: the half-extents [(quad_width, quad_height)]. *)
Definition letterbox (window_width window_height : Z) (image_aspect : float32)
    : float32 * float32 :=
  let window_aspect := f32_div (f32_of_int window_width) (f32_of_int window_height) in
  if f32_gt window_aspect image_aspect
  then (f32_div image_aspect window_aspect, f32_one)
  else (f32_one, f32_div window_aspect image_aspect).

Definition quad_vertices (quad_width quad_height : float32) : list float32 :=
  [ f32_neg quad_width; quad_height;         f32_zero; f32_zero;
    f32_neg quad_width; f32_neg quad_height; f32_zero; f32_one;
    quad_width;         f32_neg quad_height; f32_one;  f32_one;
    quad_width;         quad_height;         f32_one;  f32_zero ].

(** [updateQuadForLetterbox], with the framebuffer size that
    [glfwGetFramebufferSize] reports. It is a [const] member: only events. *)
Definition updateQuadForLetterbox (fb : Z * Z) (s : Impl) : list Event :=
  let '(window_width, window_height) := fb in
  if (window_width =? 0) || (window_height =? 0) then []
  else
    let '(quad_width, quad_height) :=
      letterbox window_width window_height (image_aspect_ratio s) in
    [ GlBindBuffer (vbo s);
      GlBufferSubData 0 (quad_vertices quad_width quad_height);
      GlBindBuffer 0 ].

(** [render] *)
Definition render (fb : Z * Z) (s : Impl) : list Event :=
  [ GlViewport 0 0 (fst fb) (snd fb);
    GlClearColor f32_zero f32_zero f32_zero f32_one;
    GlClear ]
  ++ updateQuadForLetterbox fb s
  ++ [ GlUseProgram (shader_program s);
       GlActiveTexture0;
       GlBindTexture (texture_id s);
       GlBindVertexArray (vao s);
       GlDrawArrays 0 4;
       GlBindVertexArray 0;
       GlfwSwapBuffers (window s) ].

Definition set_rgb_buffer (s : Impl) (b : list Z) : Impl :=
  mkImpl (window s) (texture_id s) (current_frame_header s) b
         (shader_program s) (vao s) (vbo s) (image_aspect_ratio s).

Definition set_image_aspect_ratio (s : Impl) (r : float32) : Impl :=
  mkImpl (window s) (texture_id s) (current_frame_header s) (rgb_buffer s)
         (shader_program s) (vao s) (vbo s) r.

Definition set_current_frame_header (s : Impl) (h : Header) : Impl :=
  mkImpl (window s) (texture_id s) h (rgb_buffer s)
         (shader_program s) (vao s) (vbo s) (image_aspect_ratio s).

(** [Display::update], with the framebuffer size the window reports during
    the render pass. *)
Definition update (fb : Z * Z) (s : Impl) (frame : ImageFrame)
    : outcome (Impl * list Event) :=
  r <~ convertToRGB frame (rgb_buffer s) ;;
  let s := set_rgb_buffer s (fst r) in
  let sz := size (header frame) in
  let ev_upload := uploadTexture s (rgb_buffer s) sz in
  let s :=
    if (0 <? width sz) && (0 <? height sz)
    then set_image_aspect_ratio s
           (f32_div (f32_of_int (width sz)) (f32_of_int (height sz)))
    else s in
  let s := set_current_frame_header s (header frame) in
  Ok (s, map Stderr (snd r) ++ ev_upload ++ render fb s).

(** [Display::Impl::cleanup] *)
Definition cleanup (s : Impl) : Impl * list Event :=
  let ev_tex := if texture_id s =? 0 then [] else [GlDeleteTextures (texture_id s)] in
  let ev_vao := if vao s =? 0 then [] else [GlDeleteVertexArrays (vao s)] in
  let ev_vbo := if vbo s =? 0 then [] else [GlDeleteBuffers (vbo s)] in
  let ev_prog := if shader_program s =? 0 then [] else [GlDeleteProgram (shader_program s)] in
  let ev_win := if window s =? 0 then [] else [GlfwDestroyWindow (window s)] in
  (mkImpl 0 0 (current_frame_header s) (rgb_buffer s) 0 0 0 (image_aspect_ratio s),
   ev_tex ++ ev_vao ++ ev_vbo ++ ev_prog ++ ev_win ++ [GlfwTerminate]).

(** The state of a freshly allocated [Impl], before [initWindow]. *)
Definition Impl_initial : Impl :=
  mkImpl 0 0 (mkHeader 0 0 (mkImageSize 0 0) 0) [] 0 0 0 f32_one.

(** A run of [Display::update] calls, as the camera callback of [main.cpp]
    makes them: one call per frame, each with the framebuffer size of its
    render pass; the final state and the events of all calls, in order. *)
Fixpoint updates (s : Impl) (frames : list (Z * Z * ImageFrame))
    : outcome (Impl * list Event) :=
  match frames with
  | [] => Ok (s, [])
  | (fb, frame) :: rest =>
      r <~ update fb s frame ;;
      r' <~ updates (fst r) rest ;;
      Ok (fst r', snd r ++ snd r')
  end.

(** ** Construction and destruction ([initWindow], [createShaders],
    [setupQuad], [initGL], [Display::Display], [Display::~Display]) *)

(** What GLFW and the OpenGL driver answer during construction: the value
    each call returns, or leaves in the variable it is given. *)
Record Platform : Type := mkPlatform {
  glfw_init_ok : bool;            (* glfwInit() != GLFW_FALSE *)
  created_window : Z;             (* glfwCreateWindow, 0 is nullptr *)
  vertex_shader_name : Z;         (* glCreateShader(GL_VERTEX_SHADER) *)
  vertex_compile_status : Z;      (* success after glGetShaderiv *)
  fragment_shader_name : Z;       (* glCreateShader(GL_FRAGMENT_SHADER) *)
  fragment_compile_status : Z;    (* success after glGetShaderiv *)
  program_name : Z;               (* glCreateProgram() *)
  link_status : Z;                (* success after glGetProgramiv *)
  vertex_array_name : Z;          (* vao after glGenVertexArrays *)
  buffer_name : Z;                (* vbo after glGenBuffers *)
  texture_name : Z                (* texture_id after glGenTextures *)
}.

Inductive ShaderKind : Type := VertexShader | FragmentShader.

Inductive WindowHint : Type :=
  | ClientApiOpenGlEs              (* GLFW_CLIENT_API, GLFW_OPENGL_ES_API *)
  | ContextVersionMajor (n : Z)
  | ContextVersionMinor (n : Z)
  | Resizable (b : bool).

Inductive TextureParameter : Type :=
  | WrapSClampToEdge | WrapTClampToEdge | MinFilterLinear | MagFilterLinear.

Inductive Notice : Type :=
  | ShadersReady       (* "OpenGL shaders compiled and linked successfully" *)
  | GlReady.           (* "OpenGL initialized successfully" *)

(** The calls of the construction, in program order; [Ev] is a call that the
    per-frame code makes too. A call that creates an object carries the name
    the platform returned. Queries of a status or a log are not recorded. *)
Inductive Call : Type :=
  | Ev (e : Event)
  | GlfwSetErrorCallback
  | GlfwInit
  | GlfwWindowHint (h : WindowHint)
  | GlfwCreateWindow (w h : Z) (win : Z)        (* title "Camera Live View" *)
  | GlfwMakeContextCurrent (win : Z)
  | GlfwSwapInterval (n : Z)
  | GlCreateShader (kind : ShaderKind) (id : Z)
  | GlShaderSource (id : Z) (kind : ShaderKind)
  | GlCompileShader (id : Z)
  | GlDeleteShader (id : Z)
  | GlCreateProgram (id : Z)
  | GlAttachShader (prog shader : Z)
  | GlLinkProgram (prog : Z)
  | GlGenVertexArrays (id : Z)
  | GlGenBuffers (id : Z)
  | GlBufferData (data : list float32)          (* usage GL_DYNAMIC_DRAW *)
  | GlVertexAttribPointer (index components stride offset : Z)   (* GL_FLOAT *)
  | GlEnableVertexAttribArray (index : Z)
  | GlGenTextures (id : Z)
  | GlTexParameteri (p : TextureParameter)
  | Stdout (n : Notice).

(** The [std::runtime_error]s of the construction. *)
Inductive Failure : Type :=
  | GlfwInitFailed
  | WindowCreationFailed
  | VertexShaderFailed
  | FragmentShaderFailed
  | ProgramLinkFailed.

Definition set_window (s : Impl) (w : Z) : Impl :=
  mkImpl w (texture_id s) (current_frame_header s) (rgb_buffer s)
         (shader_program s) (vao s) (vbo s) (image_aspect_ratio s).

Definition set_texture_id (s : Impl) (t : Z) : Impl :=
  mkImpl (window s) t (current_frame_header s) (rgb_buffer s)
         (shader_program s) (vao s) (vbo s) (image_aspect_ratio s).

Definition set_shader_program (s : Impl) (p : Z) : Impl :=
  mkImpl (window s) (texture_id s) (current_frame_header s) (rgb_buffer s)
         p (vao s) (vbo s) (image_aspect_ratio s).

Definition set_vao (s : Impl) (a : Z) : Impl :=
  mkImpl (window s) (texture_id s) (current_frame_header s) (rgb_buffer s)
         (shader_program s) a (vbo s) (image_aspect_ratio s).

Definition set_vbo (s : Impl) (b : Z) : Impl :=
  mkImpl (window s) (texture_id s) (current_frame_header s) (rgb_buffer s)
         (shader_program s) (vao s) b (image_aspect_ratio s).

(** A member function that may throw: the state it leaves, the calls it
    made, and the exception if it threw. *)
Definition step : Type := Impl * list Call * option Failure.

(** [initWindow] *)
Definition initWindow (pf : Platform) (s : Impl) : step :=
  let calls := [GlfwSetErrorCallback; GlfwInit] in
  if negb (glfw_init_ok pf) then (s, calls, Some GlfwInitFailed)
  else
    let calls := calls ++
      [ GlfwWindowHint ClientApiOpenGlEs;
        GlfwWindowHint (ContextVersionMajor 3);
        GlfwWindowHint (ContextVersionMinor 0);
        GlfwWindowHint (Resizable true);
        GlfwCreateWindow 1280 720 (created_window pf) ] in
    let s := set_window s (created_window pf) in
    if window s =? 0
    then (s, calls ++ [Ev GlfwTerminate], Some WindowCreationFailed)
    else (s, calls ++ [GlfwMakeContextCurrent (window s); GlfwSwapInterval 1], None).

(** [createShaders] *)
Definition createShaders (pf : Platform) (s : Impl) : step :=
  let vertex_shader := vertex_shader_name pf in
  let calls :=
    [ GlCreateShader VertexShader vertex_shader;
      GlShaderSource vertex_shader VertexShader;
      GlCompileShader vertex_shader ] in
  if vertex_compile_status pf =? 0
  then (s, calls ++ [GlDeleteShader vertex_shader], Some VertexShaderFailed)
  else
    let fragment_shader := fragment_shader_name pf in
    let calls := calls ++
      [ GlCreateShader FragmentShader fragment_shader;
        GlShaderSource fragment_shader FragmentShader;
        GlCompileShader fragment_shader ] in
    if fragment_compile_status pf =? 0
    then (s, calls ++ [GlDeleteShader vertex_shader; GlDeleteShader fragment_shader],
          Some FragmentShaderFailed)
    else
      let s := set_shader_program s (program_name pf) in
      let calls := calls ++
        [ GlCreateProgram (shader_program s);
          GlAttachShader (shader_program s) vertex_shader;
          GlAttachShader (shader_program s) fragment_shader;
          GlLinkProgram (shader_program s) ] in
      if link_status pf =? 0
      then (s, calls ++ [ GlDeleteShader vertex_shader;
                          GlDeleteShader fragment_shader;
                          Ev (GlDeleteProgram (shader_program s)) ],
            Some ProgramLinkFailed)
      else (s, calls ++ [ GlDeleteShader vertex_shader;
                          GlDeleteShader fragment_shader;
                          Stdout ShadersReady ],
            None).

(** [setupQuad]; a [float] has four bytes. *)
Definition setupQuad (pf : Platform) (s : Impl) : Impl * list Call :=
  let s := set_vao s (vertex_array_name pf) in
  let s := set_vbo s (buffer_name pf) in
  (s, [ GlGenVertexArrays (vao s);
        Ev (GlBindVertexArray (vao s));
        GlGenBuffers (vbo s);
        Ev (GlBindBuffer (vbo s));
        GlBufferData QUAD_VERTICES;
        GlVertexAttribPointer 0 2 (4 * 4) 0;
        GlEnableVertexAttribArray 0;
        GlVertexAttribPointer 1 2 (4 * 4) (2 * 4);
        GlEnableVertexAttribArray 1;
        Ev (GlBindVertexArray 0) ]).

(** [initGL] *)
Definition initGL (pf : Platform) (s : Impl) : step :=
  match createShaders pf s with
  | (s, calls, Some e) => (s, calls, Some e)
  | (s, calls, None) =>
      let '(s, calls_quad) := setupQuad pf s in
      let s := set_texture_id s (texture_name pf) in
      (s, calls ++ calls_quad ++
          [ GlGenTextures (texture_id s);
            Ev (GlBindTexture (texture_id s));
            GlTexParameteri WrapSClampToEdge;
            GlTexParameteri WrapTClampToEdge;
            GlTexParameteri MinFilterLinear;
            GlTexParameteri MagFilterLinear;
            Ev (GlBindTexture 0);
            Stdout GlReady ],
       None)
  end.

(** [Display::Display]: the instance, or the exception that left the
    constructor; in that case the [Impl] is freed as it is, its [cleanup] is
    not run, as no [Display] exists whose destructor would. *)
Definition Display_new (pf : Platform) : (Impl + Failure) * list Call :=
  match initWindow pf Impl_initial with
  | (_, calls, Some e) => (inr e, calls)
  | (s, calls, None) =>
      match initGL pf s with
      | (_, calls_gl, Some e) => (inr e, calls ++ calls_gl)
      | (s, calls_gl, None) => (inl s, calls ++ calls_gl)
      end
  end.

(** [Display::~Display] *)
Definition Display_delete (s : Impl) : list Event := snd (cleanup s).

(** * Vocabulary of the properties *)

(** The byte of [buf] at offset [i]. *)
Definition get (buf : list Z) (i : Z) : option Z := buf !! Z.to_nat i.


(** Pixel [k] of [buf] is magenta. *)
Definition magenta_at (buf : list Z) (k : Z) : Prop :=
  get buf (3 * k) = Some 255 /\
  get buf (3 * k + 1) = Some 0 /\
  get buf (3 * k + 2) = Some 255.

(** The bytes of [buf] from offset [off] are those of [l]. *)
Definition holds_at (buf : list Z) (off : Z) (l : list Z) : Prop :=
  forall (k : nat) (x : Z), l !! k = Some x -> get buf (off + Z.of_nat k) = Some x.

(** The six output bytes of a pixel pair with lumas [y0], [y1] and the shared
    chroma [u], [v]. *)
Definition yuyv_rgb (y0 u y1 v : Z) : list Z :=
  let d := u - 128 in
  let e := v - 128 in
  [ bt601_r (y0 - 16) d e; bt601_g (y0 - 16) d e; bt601_b (y0 - 16) d e;
    bt601_r (y1 - 16) d e; bt601_g (y1 - 16) d e; bt601_b (y1 - 16) d e ].

(** Pair [q] (columns [2q], [2q + 1]) of the row that starts at [P] in the
    source and at [R] in the output has been converted. *)
Definition pair_done (src out : list Z) (P R q : Z) : Prop :=
  exists y0 u y1 v,
    holds_at src (P + 4 * q) [y0; u; y1; v] /\
    holds_at out (R + 6 * q) (yuyv_rgb y0 u y1 v).

Definition recognised (fmt : Z) : bool := (fmt =? RGB888) || (fmt =? YUYV).

(** The frames whose source buffer holds every row the conversion reads:
    rows of at least [3 * width] (RGB888) or [2 * width] (YUYV, even width)
    bytes, [height] of them in the buffer; and where there are rows they hold
    a pixel, so that the first byte of each row, which both recognised
    formats address, exists. Other formats read nothing. *)
Definition source_fits (frame : ImageFrame) : Prop :=
  let hd := header frame in
  (format hd = RGB888 ->
     3 * width (size hd) <= pitch hd /\
     pitch hd * height (size hd) <= len (pixels frame)) /\
  (format hd = YUYV ->
     width (size hd) mod 2 = 0 /\
     2 * width (size hd) <= pitch hd /\
     pitch hd * height (size hd) <= len (pixels frame)) /\
  (recognised (format hd) = true ->
     height (size hd) = 0 \/ 1 <= width (size hd)).

(** The vertex data a run of events uploads, oldest first. *)
Definition vertex_writes (evs : list Event) : list (list float32) :=
  omap (fun e => match e with GlBufferSubData _ d => Some d | _ => None end) evs.

(** The five handles of an instance: texture, vertex array, vertex buffer,
    shader program, window. *)
Definition handles (s : Impl) : list Z :=
  [texture_id s; vao s; vbo s; shader_program s; window s].

(** The handles an event list releases, in order. *)
Definition releases (evs : list Event) : list Z := omap released evs.

(** The real number a binary32 value denotes (zero for infinities and NaN). *)
Definition f32_to_R (f : float32) : R :=
  match f with
  | S754_finite s m e => (IZR (cond_Zopp s (Z.pos m)) * powerRZ 2 e)%R
  | _ => 0%R
  end.

(** A normal positive binary32 number with exponent between [elo] and [ehi]. *)
Definition normal32 (elo ehi : Z) (f : float32) : Prop :=
  exists (m : positive) (e : Z),
    f = S754_finite false m e /\ 2 ^ 23 <= Z.pos m < 2 ^ 24 /\ elo <= e <= ehi.

(** The float a rounded mantissa [m2] in [[2^23, 2^24]] denotes at exponent
    [e]: a mantissa of [2^24] carries into the exponent. *)
Definition finish (m2 e : Z) : float32 :=
  if m2 <? 2 ^ 24 then S754_finite false (Z.to_pos m2) e
  else S754_finite false 8388608 (e + 1).

(** The values [image_aspect_ratio] takes: its initial [1.0F], and what
    [update] stores, the quotient of two non-zero 16-bit dimensions. *)
Definition stored_ratio (r : float32) : Prop :=
  r = f32_one \/
  exists w h,
    1 <= w <= UINT16_MAX /\ 1 <= h <= UINT16_MAX /\
    r = f32_div (f32_of_int w) (f32_of_int h).

(** The smallest positive binary32 number, [2^-149]. *)
Definition f32_min_subnormal : float32 := S754_finite false 1 (-149).

(** A byte. *)
Definition is_byte (b : Z) : Prop := 0 <= b <= 255.

(** The converted bytes of a frame with header [hd], presented again as a
    frame: RGB888 with no padding. *)
Definition as_rgb888 (hd : Header) (out : list Z) : ImageFrame :=
  mkImageFrame (mkHeader (timestamp hd) (3 * width (size hd)) (size hd) RGB888) out.


(** A frame with a non-zero width and a non-zero height. *)
Definition has_pixels (frame : ImageFrame) : bool :=
  (0 <? width (size (header frame))) && (0 <? height (size (header frame))).

(** The textures a run of events uploads: width, height and data. *)
Definition texture_uploads (evs : list Event) : list (Z * Z * list Z) :=
  omap (fun e => match e with GlTexImage2D w h d => Some (w, h, d) | _ => None end) evs.

(** A buffer swap. *)
Definition is_swap (e : Event) : bool :=
  match e with GlfwSwapBuffers _ => true | _ => false end.








(** The per-frame events among the calls. *)
Definition events_of (calls : list Call) : list Event :=
  omap (fun c => match c with Ev e => Some e | _ => None end) calls.

(** The shaders a run of calls creates, and the shaders it deletes. *)
Definition shaders_created (calls : list Call) : list Z :=
  omap (fun c => match c with GlCreateShader _ id => Some id | _ => None end) calls.

Definition shaders_deleted (calls : list Call) : list Z :=
  omap (fun c => match c with GlDeleteShader id => Some id | _ => None end) calls.

(** The windows a run of calls creates ([0] for a failed creation). *)
Definition windows_created (calls : list Call) : list Z :=
  omap (fun c => match c with GlfwCreateWindow _ _ win => Some win | _ => None end) calls.

(** The failures of [createShaders]. *)
Definition shader_failure (e : Failure) : bool :=
  match e with
  | VertexShaderFailed | FragmentShaderFailed | ProgramLinkFailed => true
  | _ => false
  end.

(** Where the remainder [r] of a division by [n] lies in the unit interval. *)
Definition remainder_location (n r : Z) : location :=
  if r =? 0 then loc_Exact else loc_Inexact (2 * r ?= n).

(** The binary32 number nearest to [a / b], ties to even, for the scale [T]
    at which the quotient has 24 digits: [2^23 <= a * 2^T / b < 2^24]. *)
Definition nearest_ratio (a b T : Z) : float32 :=
  finish (round_nearest_even (a * 2 ^ T / b)
            (remainder_location b ((a * 2 ^ T) mod b)))
         (- T).

(** ** Sample inputs *)

(** One white and one black pixel pair, YUYV. *)
Definition white_frame : ImageFrame :=
  mkImageFrame (mkHeader 0 4 (mkImageSize 2 1) YUYV) [235; 128; 235; 128].

Definition black_frame : ImageFrame :=
  mkImageFrame (mkHeader 0 4 (mkImageSize 2 1) YUYV) [16; 128; 16; 128].

(** A 2 x 2 RGB888 frame with two bytes of padding per row. *)
Definition padded_rgb_frame : ImageFrame :=
  mkImageFrame (mkHeader 0 8 (mkImageSize 2 2) RGB888)
               [1; 2; 3; 4; 5; 6; 90; 91; 7; 8; 9; 10; 11; 12; 92; 93].




(** A frame without rows: of zero height. *)
Definition empty_rgb_frame : ImageFrame :=
  mkImageFrame (mkHeader 0 3840 (mkImageSize 1280 0) RGB888) [].

(** A frame with rows but no width, in an unknown format. *)
Definition zero_width_frame : ImageFrame :=
  mkImageFrame (mkHeader 0 0 (mkImageSize 0 2) 0) [].

(** A display showing 640 x 480 frames, before and after one more frame. *)
Definition showing_4_3 : Impl :=
  mkImpl 1 2 (mkHeader 0 1920 (mkImageSize 640 480) RGB888) [] 3 4 5
         (f32_div (f32_of_int 640) (f32_of_int 480)).

Definition showing_4_3_later : Impl :=
  set_current_frame_header (set_rgb_buffer showing_4_3 [1; 2; 3])
    (mkHeader 7 1280 (mkImageSize 640 480) YUYV).


(** A YUYV frame of odd width, and an RGB888 frame whose buffer is one byte
    short. *)
Definition odd_yuyv_frame : ImageFrame :=
  mkImageFrame (mkHeader 0 4 (mkImageSize 1 1) YUYV) [16; 128; 16; 128].

Definition short_rgb_frame : ImageFrame :=
  mkImageFrame (mkHeader 0 6 (mkImageSize 2 1) RGB888) [1; 2; 3; 4; 5].


(** A platform on which the construction succeeds, and one whose vertex
    shader does not compile. *)
Definition working_platform : Platform := mkPlatform true 1 2 1 3 1 4 1 5 6 7.

Definition broken_shader_platform : Platform := mkPlatform true 1 2 0 3 1 4 1 5 6 7.

(** Two frames shown in a window of 1280 x 720 pixels, the second without
    pixels. *)
Definition two_frames : list (Z * Z * ImageFrame) :=
  [ ((1280, 720), white_frame); ((1280, 720), empty_rgb_frame) ].

(** ** Proof automation *)

(** Splits [H : l !! k = Some x], for a list [l] given by its elements, into
    one goal per element. *)
Ltac list_cases k H :=
  repeat (destruct k as [|k]; [simpl in H; injection H as <- |]);
  [.. | simpl in H; discriminate H].

(** Decides a closed comparison of integers by evaluation. *)
Ltac closed_arith := vm_compute; first [reflexivity | discriminate].

(** Decides [source_fits] for a frame given by its fields. *)
Ltac closed_fits :=
  repeat split;
  first [ closed_arith
        | match goal with H : _ = _ |- _ => vm_compute in H; discriminate H end
        | intros H; vm_compute in H; discriminate H
        | intros _; right; closed_arith
        | intros _; left; closed_arith ].

(** * Properties *)


(** ** Loops, loads and stores *)

(** Invariant rule for [for_loop]: an invariant that every iteration below
    the bound re-establishes holds, at an index past the bound, of the state
    the loop returns; in particular the loop does return. *)
Lemma for_loop_inv {S : Type} (Inv : Z -> S -> Prop) (bound step : Z)
    (body : Z -> S -> outcome S) :
  0 < step ->
  (forall i s, i < bound -> Inv i s ->
     exists s', body i s = Ok s' /\ Inv (i + step) s') ->
  forall (fuel : nat) (i : Z) (s : S),
    bound - i <= Z.of_nat fuel -> Inv i s ->
    exists i' s', for_loop fuel i bound step body s = Ok s' /\ Inv i' s' /\ bound <= i'.
Proof.
  intros Hstep Hbody fuel.
  induction fuel as [|fuel IH]; intros i s Hfuel Hinv; simpl.
  - exists i, s. repeat split; [assumption | lia].
  - destruct (Z.ltb_spec i bound) as [Hlt | Hge].
    + destruct (Hbody i s Hlt Hinv) as (s' & Hs' & Hinv').
      rewrite Hs'. simpl. apply IH; [lia | assumption].
    + exists i, s. repeat split; assumption.
Qed.

(** The fuel is no limit: once it covers the distance to the bound, more of
    it changes nothing. *)
Lemma for_loop_more_fuel {S : Type} (bound step : Z) (body : Z -> S -> outcome S) :
  0 < step ->
  forall (fuel extra : nat) (i : Z) (s : S),
    bound - i <= Z.of_nat fuel ->
    for_loop (fuel + extra) i bound step body s = for_loop fuel i bound step body s.
Proof.
  intros Hstep fuel extra.
  induction fuel as [|fuel IH]; intros i s Hfuel.
  - destruct extra as [|extra]; [reflexivity|]. simpl.
    destruct (Z.ltb_spec i bound); [lia | reflexivity].
  - simpl. destruct (Z.ltb_spec i bound); [|reflexivity].
    destruct (body i s) as [s' | f]; [|reflexivity].
    simpl. apply IH. lia.
Qed.

Lemma len_insert (buf : list Z) (n : nat) (v : Z) : len (<[n := v]> buf) = len buf.
Proof. unfold len. now rewrite length_insert. Qed.

Lemma len_vector_resize (buf : list Z) (n : Z) : 0 <= n -> len (vector_resize buf n) = n.
Proof. intros Hn. unfold len, vector_resize. rewrite length_resize. lia. Qed.

Lemma get_is_Some (buf : list Z) (i : Z) :
  0 <= i < len buf -> exists b, get buf i = Some b.
Proof.
  intros Hi. unfold get, len in *.
  destruct (lookup_lt_is_Some_2 buf (Z.to_nat i)) as [b Hb]; [lia | eauto].
Qed.

Lemma load_get (buf : list Z) (i b : Z) :
  0 <= i -> get buf i = Some b -> load buf i = Ok b.
Proof.
  intros Hi Hb. unfold load, get in *.
  destruct (Z.leb_spec 0 i); [now rewrite Hb | lia].
Qed.

Lemma store_ok (buf : list Z) (i v : Z) :
  0 <= i < len buf -> store buf i v = Ok (<[Z.to_nat i := v]> buf).
Proof.
  intros Hi. unfold store.
  destruct (Z.leb_spec 0 i); [|lia].
  destruct (Z.ltb_spec i (len buf)); [reflexivity | lia].
Qed.

Lemma get_insert_eq (buf : list Z) (i j v : Z) :
  i = j -> 0 <= i < len buf -> get (<[Z.to_nat i := v]> buf) j = Some v.
Proof.
  intros <- Hi. unfold get, len in *. apply list_lookup_insert_eq. lia.
Qed.

Lemma get_insert_ne (buf : list Z) (i j v : Z) :
  0 <= i -> 0 <= j -> i <> j -> get (<[Z.to_nat i := v]> buf) j = get buf j.
Proof.
  intros Hi Hj Hne. unfold get. apply list_lookup_insert_ne. lia.
Qed.

(** Rewrites reads of a buffer after stores at other offsets. *)
Ltac get_store :=
  repeat first
    [ rewrite get_insert_eq by (rewrite ?len_insert; lia)
    | rewrite get_insert_ne by lia ].


(** ** The size of the output buffer *)

Lemma int_mul_ok (a b : Z) :
  INT_MIN <= a * b <= INT_MAX -> int_mul a b = Ok (a * b).
Proof.
  intros [Hlo Hhi]. unfold int_mul.
  destruct (Z.leb_spec INT_MIN (a * b)); [|lia].
  destruct (Z.leb_spec (a * b) INT_MAX); [reflexivity | lia].
Qed.

Lemma int_mul_overflow (a b : Z) :
  INT_MAX < a * b -> int_mul a b = Undefined SignedOverflow.
Proof.
  intros Hhi. unfold int_mul.
  destruct (Z.leb_spec (a * b) INT_MAX); [lia|].
  now rewrite andb_false_r.
Qed.

Lemma rgb_size_ok (w h : Z) :
  0 <= w -> 0 <= h -> w * h * 3 <= INT_MAX -> rgb_size w h = Ok (w * h * 3).
Proof.
  intros Hw Hh Hfit. unfold rgb_size.
  assert (0 <= w * h) by lia.
  rewrite int_mul_ok by (unfold INT_MIN, INT_MAX in *; lia). simpl.
  apply int_mul_ok. unfold INT_MIN, INT_MAX in *. lia.
Qed.

Lemma rgb_size_overflow (w h : Z) :
  0 <= w -> 0 <= h -> INT_MAX < w * h * 3 -> rgb_size w h = Undefined SignedOverflow.
Proof.
  intros Hw Hh Hbig. unfold rgb_size, int_mul at 1.
  destruct (Z.leb_spec (w * h) INT_MAX).
  - assert (INT_MIN <= w * h) by (unfold INT_MIN; lia).
    destruct (Z.leb_spec INT_MIN (w * h)); [|lia]. simpl.
    now apply int_mul_overflow.
  - now rewrite andb_false_r.
Qed.

(** ** The error pattern *)

Lemma magenta_pixel_ok (buf : list Z) (i : Z) :
  0 <= i -> i + 2 < len buf ->
  magenta_pixel i buf =
    Ok (<[Z.to_nat (i + 2) := 255]> (<[Z.to_nat (i + 1) := 0]> (<[Z.to_nat i := 255]> buf))).
Proof.
  intros Hi Hlen. unfold magenta_pixel.
  rewrite store_ok by lia. simpl.
  rewrite store_ok by (rewrite len_insert; lia). simpl.
  rewrite store_ok by (rewrite !len_insert; lia). reflexivity.
Qed.

Lemma magenta_fill (n : Z) (buf : list Z) :
  0 <= n -> len buf = 3 * n ->
  exists out,
    for_loop (Z.to_nat (len buf)) 0 (len buf) 3 magenta_pixel buf = Ok out /\
    len out = 3 * n /\
    forall k, 0 <= k < n -> magenta_at out k.
Proof.
  intros Hn Hlen.
  pose (Inv := fun (i : Z) (b : list Z) =>
    len b = 3 * n /\
    exists k, i = 3 * k /\ 0 <= k <= n /\ forall k', 0 <= k' < k -> magenta_at b k').
  destruct (for_loop_inv Inv (len buf) 3 magenta_pixel) with
    (fuel := Z.to_nat (len buf)) (i := 0) (s := buf)
    as (i' & out & Hrun & (Hlen' & k & -> & Hk & Hdone) & Hpast).
  - lia.
  - intros i b Hi (Hb & k & -> & Hk & Hdone).
    rewrite magenta_pixel_ok by lia.
    eexists. split; [reflexivity|].
    split; [now rewrite !len_insert|].
    exists (k + 1). split; [lia|]. split; [lia|].
    intros k' Hk'. unfold magenta_at.
    destruct (Z.eq_dec k' k) as [-> | Hne].
    + repeat split; get_store; reflexivity.
    + destruct (Hdone k') as (H0 & H1 & H2); [lia|].
      repeat split; get_store; assumption.
  - lia.
  - split; [assumption|]. exists 0. repeat split; try lia.
  - exists out. split; [assumption|]. split; [assumption|].
    intros k' Hk'. apply Hdone. lia.
Qed.

(** ** 32-bit offsets *)

Lemma u32_small (z : Z) : 0 <= z <= UINT32_MAX -> u32 z = z.
Proof. intros Hz. unfold u32. apply Z.mod_small. unfold UINT32_MAX in Hz. lia. Qed.

Lemma u32_bounds (z : Z) : 0 <= z -> 0 <= u32 z <= z.
Proof.
  intros Hz. unfold u32. split.
  - apply Z.mod_pos_bound. lia.
  - apply Z.mod_le; lia.
Qed.

(** ** Row copies *)


Lemma memcpy_spec (dst : list Z) (doff : Z) (src : list Z) (soff n : Z) :
  0 <= doff < len dst -> 0 <= soff < len src -> 0 <= n ->
  soff + n <= len src -> doff + n <= len dst ->
  exists out,
    memcpy dst doff src soff n = Ok out /\
    len out = len dst /\
    (forall j, 0 <= j < doff -> get out j = get dst j) /\
    (forall c, 0 <= c < n -> get out (doff + c) = get src (soff + c)) /\
    (forall j, doff + n <= j -> get out j = get dst j).
Proof.
  intros Hdoff Hsoff Hn Hsrc Hdst. unfold memcpy.
  destruct (Z.ltb_spec doff (len dst)); [|lia].
  destruct (Z.ltb_spec soff (len src)); [|lia].
  - destruct (Z.leb_spec (soff + n) (len src)); [|lia].
    destruct (Z.leb_spec (doff + n) (len dst)); [|lia].
    simpl. eexists. split; [reflexivity|].
    unfold len in *.
    assert (Hl1 : length (take (Z.to_nat doff) dst) = Z.to_nat doff)
      by (rewrite length_take; lia).
    assert (Hl2 : length (take (Z.to_nat n) (drop (Z.to_nat soff) src)) = Z.to_nat n)
      by (rewrite length_take, length_drop; lia).
    repeat split.
    + rewrite !length_app, Hl1, Hl2, length_drop. lia.
    + intros j Hj. unfold get.
      rewrite lookup_app_l by lia. apply lookup_take_lt. lia.
    + intros c Hc. unfold get.
      rewrite lookup_app_r by lia. rewrite lookup_app_l by lia.
      rewrite lookup_take_lt by lia. rewrite lookup_drop. f_equal. lia.
    + intros j Hj. unfold get.
      rewrite lookup_app_r by lia. rewrite lookup_app_r by lia.
      rewrite lookup_drop. f_equal. lia.
Qed.

(** The RGB888 loop: row [r] of the output is the first [3 * w] bytes of the
    source from the offset the loop computes for row [r]. *)
Lemma rgb888_rows (src : list Z) (w h p : Z) (buf : list Z) :
  0 <= w -> 0 <= h -> 0 <= p -> h = 0 \/ 1 <= w ->
  w * h * 3 <= INT_MAX ->
  3 * w <= p -> p * h <= len src ->
  len buf = w * h * 3 ->
  exists out,
    for_loop (Z.to_nat h) 0 h 1 (rgb888_row src w p) buf = Ok out /\
    len out = w * h * 3 /\
    forall r c, 0 <= r < h -> 0 <= c < 3 * w ->
      get out (r * (3 * w) + c) = get src (u32 (r * p) + c).
Proof.
  intros Hw Hh Hp Hrows0 Hfit Hpitch Hsrc Hbuf.
  pose (Inv := fun (y : Z) (b : list Z) =>
    len b = w * h * 3 /\ 0 <= y <= h /\
    forall r c, 0 <= r < y -> 0 <= c < 3 * w ->
      get b (r * (3 * w) + c) = get src (u32 (r * p) + c)).
  destruct (for_loop_inv Inv h 1 (rgb888_row src w p)) with
    (fuel := Z.to_nat h) (i := 0) (s := buf)
    as (y' & out & Hrun & (Hlen & Hy' & Hrows) & Hpast).
  - lia.
  - intros y b Hy (Hb & Hy0 & Hrows). unfold rgb888_row.
    assert (Hw1 : 1 <= w) by lia.
    assert (Hrow : 0 <= y * w * 3 /\ y * w * 3 + 3 * w <= w * h * 3) by nia.
    assert (Hsoff : 0 <= u32 (y * p) <= y * p) by (apply u32_bounds; nia).
    assert (Hlast : y * p + p <= p * h) by nia.
    rewrite (u32_small (y * w * 3)) by (unfold INT_MAX, UINT32_MAX in *; lia).
    destruct (memcpy_spec b (y * w * 3) src (u32 (y * p)) (w * 3))
      as (b' & Hb' & Hlen' & Hbefore & Hrowy & _); try lia.
    exists b'. split; [assumption|].
    split; [lia|]. split; [lia|].
    intros r c Hr Hc.
    destruct (Z.eq_dec r y) as [-> | Hne].
    + replace (y * (3 * w) + c) with (y * w * 3 + c) by lia.
      apply Hrowy. lia.
    + rewrite Hbefore by nia. apply Hrows; lia.
  - lia.
  - split; [assumption|]. split; [lia|]. intros r c Hr. lia.
  - exists out. split; [assumption|]. split; [assumption|].
    intros r c Hr Hc. apply Hrows; lia.
Qed.

(** ** The BT.601 expressions

    The model evaluates them in [Z]: on bytes they stay far inside [int], and
    the clamped result is a byte again. *)

Lemma bt601_in_int (y u v : Z) :
  0 <= y <= 255 -> 0 <= u <= 255 -> 0 <= v <= 255 ->
  let c := y - 16 in
  let d := u - 128 in
  let e := v - 128 in
  INT_MIN <= 298 * c + 409 * e + 128 <= INT_MAX /\
  INT_MIN <= 298 * c - 100 * d - 208 * e + 128 <= INT_MAX /\
  INT_MIN <= 298 * c + 516 * d + 128 <= INT_MAX.
Proof. unfold INT_MIN, INT_MAX. lia. Qed.

Lemma clamp_byte (v : Z) : 0 <= clamp v 0 255 <= 255.
Proof.
  unfold clamp. destruct (Z.ltb_spec v 0); [lia|].
  destruct (Z.ltb_spec 255 v); lia.
Qed.

(** ** YUYV rows *)


Lemma yuyv_pair_spec (src : list Z) (P R q : Z) (buf : list Z) :
  0 <= P -> 0 <= R -> 0 <= q ->
  P + 4 * q + 4 <= len src -> R + 6 * q + 6 <= len buf ->
  exists out,
    yuyv_pair src P R (2 * q) buf = Ok out /\
    len out = len buf /\
    (forall j, 0 <= j < R + 6 * q -> get out j = get buf j) /\
    pair_done src out P R q.
Proof.
  intros HP HR Hq Hsrc Hbuf.
  destruct (get_is_Some src (P + 2 * q * 2)) as [y0 Hy0]; [lia|].
  destruct (get_is_Some src (P + (2 * q * 2 + 1))) as [u Hu]; [lia|].
  destruct (get_is_Some src (P + (2 * q * 2 + 2))) as [y1 Hy1]; [lia|].
  destruct (get_is_Some src (P + (2 * q * 2 + 3))) as [v Hv]; [lia|].
  unfold yuyv_pair.
  rewrite (load_get src _ y0), (load_get src _ u), (load_get src _ y1),
    (load_get src _ v) by (assumption || lia).
  cbn [obind].
  repeat (rewrite store_ok by (rewrite ?len_insert; lia); cbn [obind]).
  eexists. split; [reflexivity|].
  split; [now rewrite !len_insert|].
  split.
  - intros j Hj. get_store. reflexivity.
  - exists y0, u, y1, v. split.
    + intros k x Hk. list_cases k Hk.
      * rewrite <- Hy0. f_equal. lia.
      * rewrite <- Hu. f_equal. lia.
      * rewrite <- Hy1. f_equal. lia.
      * rewrite <- Hv. f_equal. lia.
    + intros k x Hk. unfold yuyv_rgb in Hk.
      list_cases k Hk; get_store; reflexivity.
Qed.

Lemma yuyv_row_pairs (src : list Z) (w P R : Z) (buf : list Z) :
  0 <= w -> w mod 2 = 0 -> 0 <= P -> 0 <= R ->
  P + 2 * w <= len src -> R + 3 * w <= len buf ->
  exists out,
    for_loop (Z.to_nat w) 0 w 2 (yuyv_pair src P R) buf = Ok out /\
    len out = len buf /\
    (forall j, 0 <= j < R -> get out j = get buf j) /\
    (forall q, 0 <= q -> 2 * q < w -> pair_done src out P R q).
Proof.
  intros Hw Heven HP HR Hsrc Hbuf.
  pose (Inv := fun (x : Z) (b : list Z) =>
    len b = len buf /\
    (forall j, 0 <= j < R -> get b j = get buf j) /\
    exists q, x = 2 * q /\ 0 <= q /\ 2 * q <= w /\
      forall q', 0 <= q' < q -> pair_done src b P R q').
  destruct (for_loop_inv Inv w 2 (yuyv_pair src P R)) with
    (fuel := Z.to_nat w) (i := 0) (s := buf)
    as (x' & out & Hrun & (Hlen & Hkeep & q & -> & Hq & Hqw & Hdone) & Hpast).
  - lia.
  - intros x b Hx (Hb & Hkeep & q & -> & Hq & Hqw & Hdone).
    assert (Hnext : 2 * q + 2 <= w).
    { rewrite (Z.div_mod w 2) in Hx |- * by lia. rewrite Heven in *. lia. }
    destruct (yuyv_pair_spec src P R q b) as (b' & Hb' & Hlen' & Hkeep' & Hpair);
      try lia.
    exists b'. split; [assumption|].
    split; [lia|]. split.
    + intros j Hj. rewrite Hkeep' by lia. now apply Hkeep.
    + exists (q + 1). split; [lia|]. split; [lia|]. split; [lia|].
      intros q' Hq'. destruct (Z.eq_dec q' q) as [-> | Hne]; [assumption|].
      destruct (Hdone q') as (y0 & u & y1 & v & Hin & Hout); [lia|].
      exists y0, u, y1, v. split; [assumption|].
      intros k c Hk. rewrite Hkeep'; [now apply Hout|].
      apply lookup_lt_Some in Hk. simpl in Hk. lia.
  - lia.
  - split; [reflexivity|]. split; [reflexivity|].
    exists 0. repeat split; try lia.
  - exists out. split; [assumption|]. split; [assumption|]. split; [assumption|].
    intros q' Hq' Hlt. apply Hdone. lia.
Qed.

(** The YUYV loop: every pixel pair of every row is converted from its four
    source bytes. *)
Lemma yuyv_rows (src : list Z) (w h p : Z) (buf : list Z) :
  0 <= w -> w mod 2 = 0 -> 0 <= h -> 0 <= p -> h = 0 \/ 1 <= w ->
  w * h * 3 <= INT_MAX ->
  2 * w <= p -> p * h <= len src ->
  len buf = w * h * 3 ->
  exists out,
    for_loop (Z.to_nat h) 0 h 1 (yuyv_row src w p) buf = Ok out /\
    len out = w * h * 3 /\
    forall r q, 0 <= r < h -> 0 <= q -> 2 * q < w ->
      pair_done src out (u32 (r * p)) (r * (3 * w)) q.
Proof.
  intros Hw Heven Hh Hp Hrows0 Hfit Hpitch Hsrc Hbuf.
  pose (Inv := fun (y : Z) (b : list Z) =>
    len b = w * h * 3 /\ 0 <= y <= h /\
    forall r q, 0 <= r < y -> 0 <= q -> 2 * q < w ->
      pair_done src b (u32 (r * p)) (r * (3 * w)) q).
  destruct (for_loop_inv Inv h 1 (yuyv_row src w p)) with
    (fuel := Z.to_nat h) (i := 0) (s := buf)
    as (y' & out & Hrun & (Hlen & Hy' & Hrows) & Hpast).
  - lia.
  - intros y b Hy (Hb & Hy0 & Hrows). unfold yuyv_row.
    assert (Hw1 : 1 <= w) by lia.
    assert (Hrow : 0 <= y * w * 3 /\ y * w * 3 + 3 * w <= w * h * 3) by nia.
    assert (Hsoff : 0 <= u32 (y * p) <= y * p) by (apply u32_bounds; nia).
    assert (Hlast : y * p + p <= p * h) by nia.
    rewrite (u32_small (y * w * 3)) by (unfold INT_MAX, UINT32_MAX in *; lia).
    destruct (Z.ltb_spec (u32 (y * p)) (len src)); [|lia].
    destruct (Z.ltb_spec (y * w * 3) (len b)); [|lia]. cbn [andb].
    destruct (yuyv_row_pairs src w (u32 (y * p)) (y * w * 3) b)
      as (b' & Hb' & Hlen' & Hkeep & Hpairs); try lia.
    exists b'. split; [assumption|].
    split; [lia|]. split; [lia|].
    intros r q Hr Hq Hqw.
    destruct (Z.eq_dec r y) as [-> | Hne].
    + replace (y * (3 * w)) with (y * w * 3) by lia. now apply Hpairs.
    + destruct (Hrows r q) as (y0 & u & y1 & v & Hin & Hout); try lia.
      exists y0, u, y1, v. split; [assumption|].
      intros k c Hk. rewrite Hkeep; [now apply Hout|].
      apply lookup_lt_Some in Hk. simpl in Hk.
      assert (2 * q + 2 <= w).
      { rewrite (Z.div_mod w 2) in Hqw |- * by lia. rewrite Heven in *. lia. }
      nia.
  - lia.
  - split; [assumption|]. split; [lia|]. intros r q Hr. lia.
  - exists out. split; [assumption|]. split; [assumption|].
    intros r q Hr Hq Hqw. apply Hrows; lia.
Qed.

(** ** [convertToRGB] on each of its three paths *)

Lemma recognised_rgb888 (fmt : Z) : fmt = RGB888 -> recognised fmt = true.
Proof. now intros ->. Qed.

Lemma recognised_yuyv (fmt : Z) : fmt = YUYV -> recognised fmt = true.
Proof. now intros ->. Qed.

Lemma convert_rgb888 (frame : ImageFrame) (rgb_data : list Z) :
  let w := width (size (header frame)) in
  let h := height (size (header frame)) in
  let p := pitch (header frame) in
  header_in_range (header frame) ->
  w * h * 3 <= INT_MAX ->
  format (header frame) = RGB888 ->
  3 * w <= p -> p * h <= len (pixels frame) ->
  h = 0 \/ 1 <= w ->
  exists out,
    convertToRGB frame rgb_data = Ok (out, []) /\
    len out = w * h * 3 /\
    forall r c, 0 <= r < h -> 0 <= c < 3 * w ->
      get out (r * (3 * w) + c) = get (pixels frame) (u32 (r * p) + c).
Proof.
  intros w h p (Hw & Hh & Hp & _) Hfit Hfmt Hpitch Hsrc Hrows0.
  fold w h p in Hw, Hh, Hp.
  destruct (rgb888_rows (pixels frame) w h p (vector_resize rgb_data (w * h * 3)))
    as (out & Hrun & Hlen & Hrows); try lia.
  { apply len_vector_resize. nia. }
  exists out. split; [|split; assumption].
  unfold convertToRGB. fold w h p.
  rewrite rgb_size_ok by lia. cbn [obind].
  rewrite Hfmt, Z.eqb_refl, Hrun. reflexivity.
Qed.

Lemma convert_yuyv (frame : ImageFrame) (rgb_data : list Z) :
  let w := width (size (header frame)) in
  let h := height (size (header frame)) in
  let p := pitch (header frame) in
  header_in_range (header frame) ->
  w * h * 3 <= INT_MAX ->
  format (header frame) = YUYV ->
  w mod 2 = 0 -> 2 * w <= p -> p * h <= len (pixels frame) ->
  h = 0 \/ 1 <= w ->
  exists out,
    convertToRGB frame rgb_data = Ok (out, []) /\
    len out = w * h * 3 /\
    forall r q, 0 <= r < h -> 0 <= q -> 2 * q < w ->
      pair_done (pixels frame) out (u32 (r * p)) (r * (3 * w)) q.
Proof.
  intros w h p (Hw & Hh & Hp & _) Hfit Hfmt Heven Hpitch Hsrc Hrows0.
  fold w h p in Hw, Hh, Hp.
  destruct (yuyv_rows (pixels frame) w h p (vector_resize rgb_data (w * h * 3)))
    as (out & Hrun & Hlen & Hrows); try lia.
  { apply len_vector_resize. nia. }
  exists out. split; [|split; assumption].
  unfold convertToRGB. fold w h p.
  rewrite rgb_size_ok by lia. cbn [obind].
  rewrite Hfmt. change (YUYV =? RGB888) with false. cbv iota.
  rewrite Z.eqb_refl, Hrun. reflexivity.
Qed.

Lemma convert_other (frame : ImageFrame) (rgb_data : list Z) :
  let w := width (size (header frame)) in
  let h := height (size (header frame)) in
  header_in_range (header frame) ->
  w * h * 3 <= INT_MAX ->
  format (header frame) <> RGB888 -> format (header frame) <> YUYV ->
  exists out,
    convertToRGB frame rgb_data
      = Ok (out, [WarnUnsupportedFormat (format (header frame))]) /\
    len out = w * h * 3 /\
    forall k, 0 <= k < w * h -> magenta_at out k.
Proof.
  intros w h (Hw & Hh & _) Hfit Hrgb Hyuyv. fold w h in Hw, Hh.
  destruct (magenta_fill (w * h) (vector_resize rgb_data (w * h * 3)))
    as (out & Hrun & Hlen & Hpix); [nia | |].
  { rewrite len_vector_resize; nia. }
  exists out. split; [|split; [lia | assumption]].
  unfold convertToRGB. fold w h.
  rewrite rgb_size_ok by lia. cbn [obind].
  destruct (Z.eqb_spec (format (header frame)) RGB888); [contradiction|].
  destruct (Z.eqb_spec (format (header frame)) YUYV); [contradiction|].
  rewrite Hrun. reflexivity.
Qed.


(** Beyond the range of [int] the conversion stops at the size expression. *)
Lemma convert_overflow (frame : ImageFrame) (rgb_data : list Z) :
  header_in_range (header frame) ->
  INT_MAX < width (size (header frame)) * height (size (header frame)) * 3 ->
  convertToRGB frame rgb_data = Undefined SignedOverflow.
Proof.
  intros (Hw & Hh & _) Hbig. unfold convertToRGB.
  now rewrite rgb_size_overflow by lia.
Qed.

(** * The format converter *)







(** ** [Display::update] around the conversion *)









(** C10, at a frame that meets its preconditions: 40000 x 40000 YUYV, pitch
    [2 * width], any pixel buffer. [width * height * 3] leaves the range of
    [int], so the behaviour of the conversion is undefined from the resize on.
    Were the product to wrap around, the buffer would get 505032704 bytes;
    row 4208 would cross their end and row 4209 would start beyond them, at
    505080000. *)
Theorem yuyv_size_overflow (px rgb_data : list Z) :
  convertToRGB (mkImageFrame (mkHeader 0 80000 (mkImageSize 40000 40000) YUYV) px) rgb_data
    = Undefined SignedOverflow /\
  INT_MAX < 40000 * 40000 * 3 /\
  u32 (40000 * 40000 * 3) = 505032704 /\
  u32 (4209 * 40000 * 3) = 505080000.
Proof.
  repeat split; reflexivity.
Qed.

(** * The display *)




Lemma updateQuadForLetterbox_zero (fb : Z * Z) (s : Impl) :
  fst fb = 0 \/ snd fb = 0 -> updateQuadForLetterbox fb s = [].
Proof.
  destruct fb as [ww wh]. simpl. intros [-> | ->]; unfold updateQuadForLetterbox.
  - reflexivity.
  - now rewrite orb_true_r.
Qed.

Lemma updateQuadForLetterbox_nonzero (fb : Z * Z) (s : Impl) :
  fst fb <> 0 -> snd fb <> 0 ->
  updateQuadForLetterbox fb s =
    [ GlBindBuffer (vbo s);
      GlBufferSubData 0
        (quad_vertices (fst (letterbox (fst fb) (snd fb) (image_aspect_ratio s)))
                       (snd (letterbox (fst fb) (snd fb) (image_aspect_ratio s))));
      GlBindBuffer 0 ].
Proof.
  destruct fb as [ww wh]. simpl. intros Hw Hh. unfold updateQuadForLetterbox.
  destruct (Z.eqb_spec ww 0); [contradiction|].
  destruct (Z.eqb_spec wh 0); [contradiction|]. simpl.
  now destruct (letterbox ww wh (image_aspect_ratio s)).
Qed.

(** C7, as the code has it. With a framebuffer of zero width or height the
    geometry recomputation makes no call at all, so the vertex buffer keeps
    its contents, and the render pass prints nothing; the pass is not skipped:
    its calls are, in this order, the viewport of the (empty) framebuffer,
    the clear colour and the clear, the program, the texture and the vertex
    array, one draw call of four vertices with the geometry it kept, and the
    buffer swap. A later pass with a non-zero framebuffer uploads the
    letterbox quad for that size. *)
Theorem render_zero_framebuffer (fb : Z * Z) (s : Impl) (quad : list float32) :
  fst fb = 0 \/ snd fb = 0 ->
  updateQuadForLetterbox fb s = [] /\
  render fb s =
    [ GlViewport 0 0 (fst fb) (snd fb);
      GlClearColor f32_zero f32_zero f32_zero f32_one;
      GlClear;
      GlUseProgram (shader_program s);
      GlActiveTexture0;
      GlBindTexture (texture_id s);
      GlBindVertexArray (vao s);
      GlDrawArrays 0 4;
      GlBindVertexArray 0;
      GlfwSwapBuffers (window s) ] /\
  vertex_data_after (render fb s) quad = quad /\
  filter (fun e => is_diagnostic e = true) (render fb s) = [] /\
  filter (fun e => is_draw e = true) (render fb s) = [GlDrawArrays 0 4] /\
  In (GlfwSwapBuffers (window s)) (render fb s) /\
  forall fb', fst fb' <> 0 -> snd fb' <> 0 ->
    vertex_data_after (render fb' s) quad =
      quad_vertices (fst (letterbox (fst fb') (snd fb') (image_aspect_ratio s)))
                    (snd (letterbox (fst fb') (snd fb') (image_aspect_ratio s))).
Proof.
  intros Hzero. pose proof (updateQuadForLetterbox_zero fb s Hzero) as Hq.
  split; [assumption|].
  unfold render. rewrite Hq. repeat split.
  - simpl. tauto.
  - intros fb' Hw Hh. rewrite updateQuadForLetterbox_nonzero by assumption.
    reflexivity.
Qed.

Lemma render_zero_framebuffer_witness :
  vertex_data_after (render (0, 0) Impl_initial) QUAD_VERTICES = QUAD_VERTICES /\
  filter (fun e => is_draw e = true) (render (1280, 0) Impl_initial) = [GlDrawArrays 0 4].
Proof.
  split.
  - apply (render_zero_framebuffer (0, 0) Impl_initial QUAD_VERTICES). left. reflexivity.
  - apply (render_zero_framebuffer (1280, 0) Impl_initial QUAD_VERTICES). right. reflexivity.
Defined.

(** C7 as stated fails: the render pass of a minimised window does not skip
    drawing, it issues the draw call. *)
Lemma render_minimised_counterexample :
  existsb is_draw (render (0, 0) Impl_initial) = true.
Proof. reflexivity. Qed.

(** C8. From any state of the five handles, zero or not, [cleanup] releases
    exactly the non-zero ones, each once and in the order texture, vertex
    array, vertex buffer, program, window, and leaves all five at zero; run
    again from the state it leaves, it releases nothing (it only calls
    [glfwTerminate]) and changes nothing. *)
Theorem cleanup_releases_allocated_only (s : Impl) :
  releases (snd (cleanup s)) = filter (fun id => id <> 0) (handles s) /\
  (forall id, In id (releases (snd (cleanup s))) -> id <> 0) /\
  handles (fst (cleanup s)) = [0; 0; 0; 0; 0] /\
  releases (snd (cleanup (fst (cleanup s)))) = [] /\
  snd (cleanup (fst (cleanup s))) = [GlfwTerminate] /\
  fst (cleanup (fst (cleanup s))) = fst (cleanup s).
Proof.
  assert (Hrel : releases (snd (cleanup s)) = filter (fun id => id <> 0) (handles s)).
  { unfold cleanup, handles, releases. simpl.
    destruct (Z.eqb_spec (texture_id s) 0) as [-> | ?];
    destruct (Z.eqb_spec (vao s) 0) as [-> | ?];
    destruct (Z.eqb_spec (vbo s) 0) as [-> | ?];
    destruct (Z.eqb_spec (shader_program s) 0) as [-> | ?];
    destruct (Z.eqb_spec (window s) 0) as [-> | ?];
    simpl; repeat (rewrite filter_cons; case_decide; try contradiction);
    reflexivity. }
  split; [assumption|]. split; [|repeat split].
  intros id Hin. rewrite Hrel in Hin.
  apply list_elem_of_In, list_elem_of_filter in Hin. tauto.
Qed.

(** C9. The vertex data the geometry recomputation uploads is a function of
    the framebuffer size and the stored image aspect ratio alone: two calls
    with the same size, in states that agree on the ratio, upload the same
    data, 16 floats when the framebuffer is not empty. *)
Theorem letterbox_quad_deterministic (fb : Z * Z) (s1 s2 : Impl) :
  image_aspect_ratio s1 = image_aspect_ratio s2 ->
  vertex_writes (updateQuadForLetterbox fb s1)
    = vertex_writes (updateQuadForLetterbox fb s2) /\
  (forall quad,
     vertex_data_after (updateQuadForLetterbox fb s1 ++ updateQuadForLetterbox fb s2) quad
       = vertex_data_after (updateQuadForLetterbox fb s1) quad) /\
  (fst fb <> 0 -> snd fb <> 0 ->
   exists data,
     vertex_writes (updateQuadForLetterbox fb s1) = [data] /\ length data = 16%nat).
Proof.
  intros Hratio.
  destruct (Z.eq_dec (fst fb) 0) as [Hw | Hw];
    [|destruct (Z.eq_dec (snd fb) 0) as [Hh | Hh]].
  - rewrite !updateQuadForLetterbox_zero by (now left).
    repeat split. intros Hw'. contradiction.
  - rewrite !updateQuadForLetterbox_zero by (now right).
    repeat split. intros _ Hh'. contradiction.
  - rewrite !updateQuadForLetterbox_nonzero by assumption. rewrite Hratio.
    repeat split. intros _ _. eexists. split; reflexivity.
Qed.

Lemma letterbox_quad_deterministic_witness :
  vertex_writes (updateQuadForLetterbox (1280, 720) showing_4_3)
    = vertex_writes (updateQuadForLetterbox (1280, 720) showing_4_3_later).
Proof.
  apply (letterbox_quad_deterministic (1280, 720) showing_4_3 showing_4_3_later).
  reflexivity.
Defined.

(** * Single-precision division and the letterbox *)

(** ** Rounding to 24 bits

    [SpecFloat] on the cases the display meets: mantissas of 24 or 25 bits,
    exponents far from the subnormal and the overflow range. *)

(** The model agrees with IEEE-754 on familiar values: [1.0F / 3.0F] is
    [0x3EAAAAAB], and [2^24 + 1] rounds to the even neighbour [2^24]. *)
Example f32_third :
  f32_div (f32_of_int 1) (f32_of_int 3) = S754_finite false 11184811 (-25).
Proof. reflexivity. Qed.

Example f32_of_int_ties_to_even :
  f32_of_int 16777217 = S754_finite false 8388608 1.
Proof. reflexivity. Qed.

(** [digits2_pos m] is the number of binary digits of [m]. *)
Lemma digits2_pos_bounds (m : positive) :
  2 ^ (Z.pos (digits2_pos m) - 1) <= Z.pos m < 2 ^ Z.pos (digits2_pos m).
Proof.
  induction m as [m IH | m IH |]; cbn [digits2_pos].
  - rewrite Pos2Z.inj_succ.
    replace (Z.succ (Z.pos (digits2_pos m)) - 1) with (Z.succ (Z.pos (digits2_pos m) - 1)) by lia.
    rewrite !Z.pow_succ_r by lia. lia.
  - rewrite Pos2Z.inj_succ.
    replace (Z.succ (Z.pos (digits2_pos m)) - 1) with (Z.succ (Z.pos (digits2_pos m) - 1)) by lia.
    rewrite !Z.pow_succ_r by lia. lia.
  - simpl. lia.
Qed.

Lemma Zdigits2_unique (m d : Z) :
  0 < d -> 2 ^ (d - 1) <= m < 2 ^ d -> Zdigits2 m = d.
Proof.
  intros Hd [Hlo Hhi].
  assert (Hm : 0 < m) by (pose proof (Z.pow_pos_nonneg 2 (d - 1)); lia).
  destruct m as [|p|p]; try lia. cbn [Zdigits2].
  pose proof (digits2_pos_bounds p) as [Hlo' Hhi'].
  set (d' := Z.pos (digits2_pos p)) in *.
  destruct (Z.lt_trichotomy d' d) as [Hlt | [Heq | Hgt]]; [|assumption|].
  - assert (2 ^ d' <= 2 ^ (d - 1)) by (apply Z.pow_le_mono_r; lia). lia.
  - assert (2 ^ d <= 2 ^ (d' - 1)) by (apply Z.pow_le_mono_r; lia). lia.
Qed.

(** Where the remainder [r] of a division by [n] lies in the unit interval:
    at zero, below, at or above one half. *)
Lemma new_location_spec (n r : Z) :
  0 < n -> 0 <= r < n ->
  new_location n r = if r =? 0 then loc_Exact else loc_Inexact (2 * r ?= n).
Proof.
  intros Hn Hr. unfold new_location.
  destruct (Z.even n) eqn:Heven.
  - unfold new_location_even. reflexivity.
  - unfold new_location_odd. destruct (Z.eqb_spec r 0); [reflexivity|].
    f_equal.
    assert (Hodd : Z.odd n = true) by (rewrite <- Z.negb_even, Heven; reflexivity).
    apply Z.odd_spec in Hodd. destruct Hodd as [k ->].
    destruct (Z.compare_spec (2 * r + 1) (2 * k + 1)) as [H | H | H];
    destruct (Z.compare_spec (2 * r) (2 * k + 1)) as [H' | H' | H']; try reflexivity; lia.
Qed.

Lemma fexp32 (e : Z) : fexp prec32 emax32 e = Z.max (e - 24) (-149).
Proof. reflexivity. Qed.

(** A mantissa of 24 bits is kept; one of 25 bits loses its last bit. *)
Lemma shr_fexp_24 (m e : Z) (l : location) :
  2 ^ 23 <= m < 2 ^ 24 -> -149 <= e ->
  shr_fexp prec32 emax32 m e l = (shr_record_of_loc m l, e).
Proof.
  intros Hm He. unfold shr_fexp.
  rewrite (Zdigits2_unique m 24) by lia.
  rewrite fexp32. replace (Z.max (24 + e - 24) (-149) - e) with 0 by lia.
  reflexivity.
Qed.

Lemma shr_fexp_25 (m e : Z) (l : location) :
  2 ^ 24 <= m < 2 ^ 25 -> -150 <= e ->
  shr_fexp prec32 emax32 m e l = (shr_1 (shr_record_of_loc m l), e + 1).
Proof.
  intros Hm He. unfold shr_fexp.
  rewrite (Zdigits2_unique m 25) by lia.
  rewrite fexp32. replace (Z.max (25 + e - 24) (-149) - e) with 1 by lia.
  reflexivity.
Qed.

Lemma round_nearest_even_cases (m : Z) (l : location) :
  round_nearest_even m l = m \/ round_nearest_even m l = m + 1.
Proof.
  destruct l as [|[| |]]; simpl; auto. destruct (Z.even m); auto.
Qed.

Lemma shr_1_spec (m : Z) (r s : bool) :
  0 < m ->
  shr_1 (Build_shr_record m r s) = Build_shr_record (m / 2) (Z.odd m) (r || s).
Proof.
  intros Hm. destruct m as [|[p|p|]|]; try lia; cbn [shr_1 Z.odd].
  - f_equal. rewrite Pos2Z.inj_xI. apply (Z.div_unique _ _ _ 1); lia.
  - f_equal. rewrite Pos2Z.inj_xO. apply (Z.div_unique _ _ _ 0); lia.
  - reflexivity.
Qed.

Lemma loc_of_record_of_loc (m : Z) (l : location) :
  loc_of_shr_record (shr_record_of_loc m l) = l /\ shr_m (shr_record_of_loc m l) = m.
Proof. destruct l as [|[| |]]; split; reflexivity. Qed.

(** The second half of [binary_round_aux], after the mantissa was rounded. *)
Lemma round_finish (m2 e : Z) :
  2 ^ 23 <= m2 <= 2 ^ 24 -> -149 <= e <= 103 ->
  (let '(mrs, e') := shr_fexp prec32 emax32 m2 e loc_Exact in
   match shr_m mrs with
   | 0 => S754_zero false
   | Z.pos m => if e' <=? emax32 - prec32 then S754_finite false m e' else S754_infinity false
   | Z.neg _ => S754_nan
   end) = finish m2 e.
Proof.
  intros Hm He. unfold finish.
  destruct (Z.ltb_spec m2 (2 ^ 24)) as [Hlt | Hge].
  - rewrite shr_fexp_24 by lia. cbn [shr_record_of_loc shr_m].
    destruct m2 as [|p|p]; try lia.
    destruct (Z.leb_spec e (emax32 - prec32)) as [_ | Hbig]; [reflexivity|].
    unfold emax32, prec32 in Hbig. lia.
  - assert (m2 = 2 ^ 24) as -> by lia.
    rewrite shr_fexp_25 by lia.
    destruct (Z.leb_spec (e + 1) (emax32 - prec32)) as [_ | Hbig]; [reflexivity|].
    unfold emax32, prec32 in Hbig. lia.
Qed.

Lemma binary_round_aux_24 (m e : Z) (l : location) :
  2 ^ 23 <= m < 2 ^ 24 -> -149 <= e <= 103 ->
  binary_round_aux prec32 emax32 false m e l = finish (round_nearest_even m l) e.
Proof.
  intros Hm He. unfold binary_round_aux.
  rewrite shr_fexp_24 by lia.
  destruct (loc_of_record_of_loc m l) as [-> ->].
  apply round_finish; [|assumption].
  destruct (round_nearest_even_cases m l) as [-> | ->]; lia.
Qed.

Lemma binary_round_aux_25 (m e : Z) (l : location) :
  2 ^ 24 <= m < 2 ^ 25 -> -150 <= e <= 102 ->
  binary_round_aux prec32 emax32 false m e l =
    finish (round_nearest_even (m / 2) (loc_of_shr_record (shr_1 (shr_record_of_loc m l))))
           (e + 1).
Proof.
  intros Hm He. unfold binary_round_aux.
  rewrite shr_fexp_25 by lia.
  assert (Hm2 : shr_m (shr_1 (shr_record_of_loc m l)) = m / 2).
  { destruct l as [|[| |]]; cbn [shr_record_of_loc]; rewrite shr_1_spec by lia; reflexivity. }
  rewrite Hm2.
  apply round_finish; [|lia].
  assert (2 ^ 23 <= m / 2 < 2 ^ 24).
  { split; [apply Z.div_le_lower_bound | apply Z.div_lt_upper_bound]; lia. }
  destruct (round_nearest_even_cases (m / 2)
              (loc_of_shr_record (shr_1 (shr_record_of_loc m l)))) as [-> | ->]; lia.
Qed.

(** ** Division of normal numbers *)

Section NormalDivision.

Variables (mx my : positive) (ex ey : Z).

Hypothesis Hmx : 2 ^ 23 <= Z.pos mx < 2 ^ 24.
Hypothesis Hmy : 2 ^ 23 <= Z.pos my < 2 ^ 24.

Lemma div_core_normal :
  -125 <= ex - ey ->
  SFdiv_core_binary prec32 emax32 (Z.pos mx) ex (Z.pos my) ey =
    (Z.pos mx * 2 ^ 24 / Z.pos my, ex - ey - 24,
     new_location (Z.pos my) ((Z.pos mx * 2 ^ 24) mod Z.pos my)).
Proof.
  intros He. unfold SFdiv_core_binary. cbv zeta.
  rewrite (Zdigits2_unique (Z.pos mx) 24), (Zdigits2_unique (Z.pos my) 24) by lia.
  rewrite fexp32.
  replace (Z.min (Z.max (24 + ex - (24 + ey) - 24) (-149)) (ex - ey))
    with (ex - ey - 24) by lia.
  replace (ex - ey - (ex - ey - 24)) with 24 by lia.
  cbv iota. rewrite Z.shiftl_mul_pow2 by lia.
  unfold Z.div, Z.modulo.
  now destruct (Z.div_eucl (Z.pos mx * 2 ^ 24) (Z.pos my)).
Qed.

(** Division of two normal numbers: the quotient is normal, its exponent is
    that of the operands' quotient up to a shift [j] of at most two, and it
    is within [2^-24] of the exact quotient, relatively: with the scaled
    mantissas, [|mz * 2^j * my - mx * 2^24| <= mx]. *)
Lemma f32_div_normal :
  -125 <= ex - ey <= 126 ->
  exists (mz : positive) (j : Z),
    f32_div (S754_finite false mx ex) (S754_finite false my ey)
      = S754_finite false mz (ex - ey - 24 + j) /\
    2 ^ 23 <= Z.pos mz < 2 ^ 24 /\
    0 <= j <= 2 /\
    Z.abs (Z.pos mz * 2 ^ j * Z.pos my - Z.pos mx * 2 ^ 24) <= Z.pos mx.
Proof.
  intros He. unfold f32_div, SFdiv.
  rewrite div_core_normal by lia. cbn [xorb].
  set (M := Z.pos mx * 2 ^ 24).
  set (q := M / Z.pos my). set (r := M mod Z.pos my).
  assert (HM : M = Z.pos my * q + r) by (apply Z.div_mod; lia).
  assert (Hr : 0 <= r < Z.pos my) by (apply Z.mod_pos_bound; lia).
  assert (Hq : 2 ^ 23 <= q < 2 ^ 25).
  { unfold M in HM. split.
    - apply Z.nlt_ge. intros Hlt. nia.
    - apply Z.nle_gt. intros Hle. nia. }
  rewrite new_location_spec by lia.
  destruct (Z.lt_ge_cases q (2 ^ 24)) as [Hq24 | Hq25].
  - (* the quotient has 24 digits *)
    rewrite binary_round_aux_24 by lia.
    assert (Hround : exists m2, round_nearest_even q
        (if r =? 0 then loc_Exact else loc_Inexact (2 * r ?= Z.pos my)) = m2 /\
        (m2 = q /\ 2 * r <= Z.pos my \/ m2 = q + 1 /\ Z.pos my <= 2 * r)).
    { eexists. split; [reflexivity|].
      destruct (Z.eqb_spec r 0); [left; simpl; lia|].
      destruct (Z.compare_spec (2 * r) (Z.pos my)); simpl.
      - destruct (Z.even q); [left | right]; lia.
      - left; lia.
      - right; lia. }
    destruct Hround as (m2 & -> & Hm2). unfold finish.
    destruct (Z.ltb_spec m2 (2 ^ 24)).
    + exists (Z.to_pos m2), 0. rewrite Z2Pos.id by lia.
      split; [f_equal; lia|]. split; [lia|]. split; [lia|].
      change (2 ^ 0) with 1. destruct Hm2 as [[-> ?] | [-> ?]]; nia.
    + exists 8388608%positive, 1.
      split; [f_equal; lia|]. split; [lia|]. split; [lia|].
      assert (m2 = 2 ^ 24) as Hc by lia.
      change (Z.pos 8388608 * 2 ^ 1) with (2 ^ 24). rewrite <- Hc.
      destruct Hm2 as [[-> ?] | [-> ?]]; nia.
  - (* the quotient has 25 digits: one bit is shifted out *)
    rewrite binary_round_aux_25 by lia.
    assert (Hmxy : Z.pos my <= Z.pos mx) by (unfold M in HM; nia).
    set (m1 := q / 2).
    assert (Hq2 : q = 2 * m1 + (if Z.odd q then 1 else 0)).
    { unfold m1. rewrite (Z.div_mod q 2) at 1 by lia. f_equal.
      rewrite Zmod_odd. reflexivity. }
    assert (Hm1 : 2 ^ 23 <= m1 < 2 ^ 24) by (destruct (Z.odd q); lia).
    assert (Hround : exists m2, round_nearest_even m1 (loc_of_shr_record (shr_1
          (shr_record_of_loc q (if r =? 0 then loc_Exact
                                else loc_Inexact (2 * r ?= Z.pos my))))) = m2 /\
        (m2 = m1 \/ m2 = m1 + 1) /\
        Z.abs (2 * m2 * Z.pos my - M) <= Z.pos my).
    { eexists. split; [reflexivity|].
      split; [apply round_nearest_even_cases|].
      destruct (Z.eqb_spec r 0) as [Hr0 | Hr0];
        [|destruct (2 * r ?= Z.pos my)]; cbn [shr_record_of_loc];
        rewrite shr_1_spec by lia; fold m1;
        destruct (Z.odd q); cbn [loc_of_shr_record orb round_nearest_even];
        try (destruct (Z.even m1)); nia. }
    destruct Hround as (m2 & -> & Hm2 & Herr). unfold finish.
    destruct (Z.ltb_spec m2 (2 ^ 24)).
    + exists (Z.to_pos m2), 1. rewrite Z2Pos.id by lia.
      split; [f_equal; lia|]. split; [lia|]. split; [lia|].
      change (2 ^ 1) with 2. fold M. nia.
    + exists 8388608%positive, 2.
      split; [f_equal; lia|]. split; [lia|]. split; [lia|].
      assert (m2 = 2 ^ 24) as Hc by lia. fold M.
      change (Z.pos 8388608 * 2 ^ 2) with (2 * 2 ^ 24). rewrite <- Hc. lia.
Qed.

(** The quotient of a normal number by a larger one is below [1.0F]: its
    exponent is at most that of the predecessor of [1.0F]. *)
Lemma f32_div_lt_one :
  -125 <= ex - ey ->
  ex < ey \/ (ex = ey /\ Z.pos mx < Z.pos my) ->
  exists (mz : positive) (ez : Z),
    f32_div (S754_finite false mx ex) (S754_finite false my ey)
      = S754_finite false mz ez /\
    2 ^ 23 <= Z.pos mz < 2 ^ 24 /\ ex - ey - 24 <= ez <= -24.
Proof.
  intros He Hlt.
  destruct (f32_div_normal ltac:(lia))
    as (mz & j & Hdiv & Hmz & Hj & Herr).
  exists mz, (ex - ey - 24 + j). split; [assumption|]. split; [assumption|].
  split; [lia|].
  destruct Hlt as [Hlt | [-> Hlt]].
  - destruct (Z.eq_dec j 2) as [-> | Hj2]; [|lia].
    assert (ey - ex <> 1); [|lia]. intros Hone.
    change (2 ^ 2) with 4 in Herr.
    assert (2 ^ 23 * 4 * 2 ^ 23 <= Z.pos mz * 4 * Z.pos my) by nia.
    lia.
  - destruct (Z.eq_dec j 0) as [-> | Hj0]; [lia|]. exfalso.
    assert (Hpow : 2 ^ 1 <= 2 ^ j) by (apply Z.pow_le_mono_r; lia).
    change (2 ^ 1) with 2 in Hpow.
    set (P := 2 ^ j) in *.
    assert (2 ^ 24 <= Z.pos mz * P) by nia.
    assert (2 ^ 24 * Z.pos my <= Z.pos mz * P * Z.pos my)
      by (apply Z.mul_le_mono_nonneg_r; lia).
    lia.
Qed.

(** The rounding error of a division of normal numbers, relative to the
    dividend: [|z * y - x| <= x / 2^24] for [z = x / y] rounded. *)
Lemma f32_div_error :
  -125 <= ex - ey <= 126 ->
  let x := S754_finite false mx ex in
  let y := S754_finite false my ey in
  (Rabs (f32_to_R (f32_div x y) * f32_to_R y - f32_to_R x) <= f32_to_R x / 2 ^ 24)%R.
Proof.
  intros He x y.
  destruct (f32_div_normal He) as (mz & j & Hdiv & Hmz & Hj & Herr).
  fold x y in Hdiv. rewrite Hdiv. unfold x, y, f32_to_R, cond_Zopp.
  assert (H2 : (2 <> 0)%R) by lra.
  set (c := powerRZ 2 (ex - 24)).
  assert (Hc : (0 < c)%R) by (apply powerRZ_lt; lra).
  assert (Hex : powerRZ 2 ex = (c * 2 ^ 24)%R).
  { replace ex with (ex - 24 + 24) at 1 by lia.
    rewrite powerRZ_add by assumption. reflexivity. }
  assert (Hez : (powerRZ 2 (ex - ey - 24 + j) * powerRZ 2 ey = c * IZR (2 ^ j))%R).
  { rewrite <- powerRZ_add by assumption.
    replace (ex - ey - 24 + j + ey) with (ex - 24 + j) by lia.
    rewrite powerRZ_add by assumption. fold c. f_equal.
    assert (Hj' : j = 0 \/ j = 1 \/ j = 2) by lia.
    destruct Hj' as [-> | [-> | ->]]; simpl; lra. }
  replace (IZR (Z.pos mz) * powerRZ 2 (ex - ey - 24 + j) * (IZR (Z.pos my) * powerRZ 2 ey)
           - IZR (Z.pos mx) * powerRZ 2 ex)%R
    with (c * IZR (Z.pos mz * 2 ^ j * Z.pos my - Z.pos mx * 2 ^ 24))%R.
  - rewrite Rabs_mult, (Rabs_pos_eq c) by lra.
    rewrite <- abs_IZR, Hex.
    apply IZR_le in Herr.
    replace (IZR (Z.pos mx) * (c * 2 ^ 24) / 2 ^ 24)%R with (c * IZR (Z.pos mx))%R by (field; lra).
    apply Rmult_le_compat_l; lra.
  - rewrite minus_IZR, !mult_IZR, Hex.
    replace (IZR (2 ^ 24)) with (2 ^ 24)%R by (simpl; lra).
    transitivity (IZR (Z.pos mz) * IZR (Z.pos my)
                  * (powerRZ 2 (ex - ey - 24 + j) * powerRZ 2 ey)
                  - IZR (Z.pos mx) * (c * 2 ^ 24))%R; [|ring].
    rewrite Hez. ring.
Qed.

End NormalDivision.

(** ** Conversion of integers *)

Lemma iter_xO (m d : positive) : Z.pos (Pos.iter xO m d) = Z.pos m * 2 ^ Z.pos d.
Proof.
  apply (Pos.iter_ind _ xO m (fun p a => Z.pos a = Z.pos m * 2 ^ Z.pos p)).
  - rewrite Pos2Z.inj_xO. lia.
  - intros p a IH. rewrite Pos2Z.inj_xO, IH, Pos2Z.inj_succ, Z.pow_succ_r by lia. lia.
Qed.

Lemma shr_1_m (mrs : shr_record) :
  0 <= shr_m mrs -> shr_m (shr_1 mrs) = shr_m mrs / 2.
Proof.
  destruct mrs as [m r s]. cbn [shr_m]. intros Hm.
  destruct (Z.eq_dec m 0) as [-> | Hne]; [reflexivity|].
  now rewrite shr_1_spec by lia.
Qed.

Lemma iter_shr_1_m (n : positive) (mrs : shr_record) :
  0 <= shr_m mrs ->
  shr_m (SpecFloat.iter_pos shr_1 n mrs) = shr_m mrs / 2 ^ Z.pos n.
Proof.
  revert mrs. induction n as [n IH | n IH |]; intros mrs Hm; cbn [SpecFloat.iter_pos].
  - assert (H1 : 0 <= shr_m (shr_1 mrs))
      by (rewrite shr_1_m by lia; apply Z.div_pos; lia).
    assert (H2 : 0 <= shr_m (SpecFloat.iter_pos shr_1 n (shr_1 mrs)))
      by (rewrite IH by lia; apply Z.div_pos; lia).
    rewrite IH, IH, shr_1_m by assumption.
    rewrite !Z.div_div by lia. f_equal.
    rewrite (Pos2Z.inj_xI n).
    replace (2 * Z.pos n + 1) with (Z.pos n + Z.pos n + 1) by lia.
    rewrite !Z.pow_add_r by lia. change (2 ^ 1) with 2. ring.
  - assert (H2 : 0 <= shr_m (SpecFloat.iter_pos shr_1 n mrs))
      by (rewrite IH by lia; apply Z.div_pos; lia).
    rewrite IH, IH by assumption.
    rewrite !Z.div_div by lia. f_equal.
    rewrite (Pos2Z.inj_xO n).
    replace (2 * Z.pos n) with (Z.pos n + Z.pos n) by lia.
    now rewrite Z.pow_add_r by lia.
  - now apply shr_1_m.
Qed.

Lemma finish_normal (m2 e : Z) :
  2 ^ 23 <= m2 <= 2 ^ 24 -> normal32 e (e + 1) (finish m2 e).
Proof.
  intros Hm. unfold finish. destruct (Z.ltb_spec m2 (2 ^ 24)).
  - exists (Z.to_pos m2), e. rewrite Z2Pos.id by lia. repeat split; lia.
  - exists 8388608%positive, (e + 1). repeat split; lia.
Qed.

Lemma normal32_weaken (elo ehi elo' ehi' : Z) (f : float32) :
  elo' <= elo -> ehi <= ehi' -> normal32 elo ehi f -> normal32 elo' ehi' f.
Proof.
  intros Hlo Hhi (m & e & -> & Hm & He). exists m, e. repeat split; lia.
Qed.

(** Conversion of a positive [int]. *)
Lemma f32_of_int_normal (z : Z) :
  1 <= z < 2 ^ 31 -> normal32 (-23) 8 (f32_of_int z).
Proof.
  intros Hz. destruct z as [|p|p]; try lia.
  unfold f32_of_int, binary_normalize, binary_round.
  pose proof (digits2_pos_bounds p) as Hd.
  set (d := Z.pos (digits2_pos p)) in *.
  assert (Hd31 : 1 <= d <= 31).
  { split; [unfold d; lia|].
    apply Z.nlt_ge. intros Hlt.
    assert (2 ^ 31 <= 2 ^ (d - 1)) by (apply Z.pow_le_mono_r; lia). lia. }
  rewrite fexp32. replace (Z.max (d + 0 - 24) (-149)) with (d - 24) by lia.
  unfold shl_align.
  destruct (d - 24 - 0) as [|k|k] eqn:Hk.
  - (* exactly 24 digits *)
    assert (d = 24) as Hd24 by lia. rewrite Hd24 in Hd.
    rewrite binary_round_aux_24 by lia. cbn [round_nearest_even].
    eapply normal32_weaken; [| |apply finish_normal]; lia.
  - (* more than 24 digits: the low [d - 24] bits are rounded away *)
    unfold binary_round_aux. unfold shr_fexp at 1.
    rewrite (Zdigits2_unique (Z.pos p) d) by lia.
    rewrite fexp32. replace (Z.max (d + 0 - 24) (-149) - 0) with (Z.pos k) by lia.
    cbn [shr shr_record_of_loc].
    set (mrs := SpecFloat.iter_pos shr_1 k _).
    assert (Hm1 : shr_m mrs = Z.pos p / 2 ^ Z.pos k)
      by (unfold mrs; now rewrite iter_shr_1_m by (cbn; lia)).
    assert (Hpow : 2 ^ (d - 1) = 2 ^ 23 * 2 ^ Z.pos k /\ 2 ^ d = 2 ^ 24 * 2 ^ Z.pos k).
    { rewrite <- !Z.pow_add_r by lia. split; f_equal; lia. }
    assert (Hrange : 2 ^ 23 <= shr_m mrs < 2 ^ 24).
    { rewrite Hm1. pose proof (Z.pow_pos_nonneg 2 (Z.pos k)).
      split; [apply Z.div_le_lower_bound | apply Z.div_lt_upper_bound]; lia. }
    rewrite round_finish.
    + eapply normal32_weaken; [| |apply finish_normal]; try lia.
      destruct (round_nearest_even_cases (shr_m mrs) (loc_of_shr_record mrs)) as [-> | ->]; lia.
    + destruct (round_nearest_even_cases (shr_m mrs) (loc_of_shr_record mrs)) as [-> | ->]; lia.
    + lia.
  - (* fewer than 24 digits: exact after a left shift *)
    assert (Hm : 2 ^ 23 <= Z.pos (Pos.iter xO p k) < 2 ^ 24).
    { rewrite iter_xO.
      assert (Hpow : 2 ^ 23 = 2 ^ (d - 1) * 2 ^ Z.pos k /\ 2 ^ 24 = 2 ^ d * 2 ^ Z.pos k).
      { rewrite <- !Z.pow_add_r by lia. split; f_equal; lia. }
      pose proof (Z.pow_pos_nonneg 2 (Z.pos k)). nia. }
    rewrite binary_round_aux_24 by lia. cbn [round_nearest_even].
    eapply normal32_weaken; [| |apply finish_normal]; lia.
Qed.

(** A normal number divided by itself is [1.0F]. *)
Lemma f32_div_same (m : positive) (e : Z) :
  2 ^ 23 <= Z.pos m < 2 ^ 24 ->
  f32_div (S754_finite false m e) (S754_finite false m e) = f32_one.
Proof.
  intros Hm. unfold f32_div, SFdiv.
  rewrite div_core_normal by lia.
  rewrite Z.mul_comm, Z.div_mul, Z.mod_mul by lia.
  rewrite new_location_spec by lia.
  replace (e - e - 24) with (-24) by lia.
  reflexivity.
Qed.

(** The order of two positive finite numbers, as [SFltb] decides it. *)
Lemma SFltb_finite (m1 m2 : positive) (e1 e2 : Z) :
  SFltb (S754_finite false m1 e1) (S754_finite false m2 e2) = true <->
  e1 < e2 \/ (e1 = e2 /\ Z.pos m1 < Z.pos m2).
Proof.
  unfold SFltb, SFcompare.
  destruct (Z.compare_spec e1 e2) as [He | He | He].
  - rewrite Pos.compare_cont_spec. cbn [Pos.switch_Eq].
    destruct (Pos.compare_spec m1 m2) as [Hm | Hm | Hm].
    + split; [discriminate | lia].
    + split; [intros _; right; split; [assumption | lia] | reflexivity].
    + split; [discriminate | lia].
  - split; [intros _; left; assumption | reflexivity].
  - split; [discriminate | lia].
Qed.

(** ** Real values and tolerances *)

Lemma f32_to_R_one : f32_to_R f32_one = 1%R.
Proof. unfold f32_to_R, f32_one, cond_Zopp. simpl. field. Qed.

Lemma f32_to_R_pos (m : positive) (e : Z) : (0 < f32_to_R (S754_finite false m e))%R.
Proof.
  unfold f32_to_R, cond_Zopp. apply Rmult_lt_0_compat.
  - apply IZR_lt. lia.
  - apply powerRZ_lt. lra.
Qed.

Lemma Rabs_le_bounds (a b : R) : (Rabs a <= b -> - b <= a <= b)%R.
Proof. unfold Rabs. destruct (Rcase_abs a); lra. Qed.

Lemma tolerance_direct (x y z : R) :
  (0 < x -> 0 < y -> Rabs (z * y - x) <= x / 2 ^ 24 ->
   Rabs (z / 1 - x / y) <= x / y / 2 ^ 23)%R.
Proof.
  intros Hx Hy Herr.
  replace (z / 1 - x / y)%R with ((z * y - x) / y)%R by (field; lra).
  unfold Rdiv at 1. rewrite Rabs_mult, (Rabs_pos_eq (/ y)).
  - apply Rle_trans with (x / 2 ^ 24 * / y)%R.
    + apply Rmult_le_compat_r; [|assumption].
      apply Rlt_le, Rinv_0_lt_compat. assumption.
    + assert (0 < x * / y)%R by (apply Rmult_lt_0_compat; [|apply Rinv_0_lt_compat]; assumption).
      unfold Rdiv. lra.
  - apply Rlt_le, Rinv_0_lt_compat. assumption.
Qed.

Lemma tolerance_inverse (x y z : R) :
  (0 < x -> 0 < y -> 0 < z -> Rabs (z * y - x) <= x / 2 ^ 24 ->
   Rabs (1 / z - y / x) <= y / x / 2 ^ 23)%R.
Proof.
  intros Hx Hy Hz Herr.
  apply Rabs_le_bounds in Herr.
  assert (Hzy : (x / 2 <= z * y)%R) by lra.
  assert (Hzx : (0 < z * x)%R) by (apply Rmult_lt_0_compat; assumption).
  replace (1 / z - y / x)%R with ((x - z * y) / (z * x))%R by (field; lra).
  replace (y / x / 2 ^ 23)%R with ((2 * (z * y) / 2 ^ 24) / (z * x))%R by (field; lra).
  unfold Rdiv at 1. rewrite Rabs_mult, (Rabs_pos_eq (/ (z * x))).
  - apply Rmult_le_compat_r; [apply Rlt_le, Rinv_0_lt_compat; assumption|].
    apply Rabs_le. lra.
  - apply Rlt_le, Rinv_0_lt_compat. assumption.
Qed.

(** ** The aspect ratios the display computes with *)

Lemma f32_div_normal32 (elo ehi elo' ehi' : Z) (x y : float32) :
  normal32 elo ehi x -> normal32 elo' ehi' y ->
  -125 <= elo - ehi' -> ehi - elo' <= 126 ->
  normal32 (elo - ehi' - 24) (ehi - elo' - 22) (f32_div x y).
Proof.
  intros (mx & ex & -> & Hmx & Hex) (my & ey & -> & Hmy & Hey) Hlo Hhi.
  destruct (f32_div_normal mx my ex ey Hmx Hmy ltac:(lia))
    as (mz & j & -> & Hmz & Hj & _).
  exists mz, (ex - ey - 24 + j). repeat split; lia.
Qed.

Lemma quotient_of_ints_normal (a b : Z) :
  1 <= a <= INT_MAX -> 1 <= b <= INT_MAX ->
  normal32 (-55) 9 (f32_div (f32_of_int a) (f32_of_int b)).
Proof.
  intros Ha Hb. unfold INT_MAX in *.
  apply (f32_div_normal32 (-23) 8 (-23) 8); try lia;
    apply f32_of_int_normal; lia.
Qed.

Lemma stored_ratio_normal (r : float32) : stored_ratio r -> normal32 (-55) 9 r.
Proof.
  intros [-> | (w & h & Hw & Hh & ->)].
  - exists 8388608%positive, (-23). repeat split; lia.
  - apply quotient_of_ints_normal; unfold UINT16_MAX, INT_MAX in *; lia.
Qed.

(** A positive number with exponent below that of [1.0F] is below [1.0F]. *)
Lemma below_one (m : positive) (e : Z) :
  e <= -24 ->
  SFleb (S754_finite false m e) f32_one = true /\ S754_finite false m e <> f32_one.
Proof.
  intros He. split.
  - unfold SFleb, SFcompare, f32_one.
    destruct (Z.compare_spec e (-23)); [lia | reflexivity | lia].
  - unfold f32_one. intros Heq. injection Heq as _ He'. lia.
Qed.

(** [stored_ratio] is an invariant of the display: it holds initially and
    every [update] keeps it. *)
Lemma stored_ratio_initial : stored_ratio (image_aspect_ratio Impl_initial).
Proof. left. reflexivity. Qed.

Lemma update_keeps_stored_ratio (fb : Z * Z) (s s' : Impl) (frame : ImageFrame)
    (evs : list Event) :
  header_in_range (header frame) ->
  stored_ratio (image_aspect_ratio s) ->
  update fb s frame = Ok (s', evs) ->
  stored_ratio (image_aspect_ratio s').
Proof.
  intros (Hw & Hh & _) Hs Hupd. unfold update in Hupd.
  destruct (convertToRGB frame (rgb_buffer s)) as [[out diags] | f]; [|discriminate].
  cbn [obind fst snd] in Hupd. injection Hupd as <- _.
  destruct (Z.ltb_spec 0 (width (size (header frame))));
    destruct (Z.ltb_spec 0 (height (size (header frame)))); cbn; try assumption.
  right. eexists _, _. split; [|split; [|reflexivity]]; lia.
Qed.

(** C5. For every positive framebuffer width and height and every image
    aspect ratio the letterbox computation can be given, the half-extents [(qw, qh)] of the
    letterbox satisfy [0 < qw <= 1] and [0 < qh <= 1]; both are [1.0F] when the
    window's aspect ratio (the [float] quotient of width by height) equals the
    image's, and exactly one is otherwise; and [qw / qh] is within [2^-23],
    relatively, of the image's aspect ratio divided by the window's. The
    ratio is the private member [image_aspect_ratio], which only the
    initialiser and [update] write: it is [1.0F] or the quotient of two
    non-zero 16-bit dimensions ([stored_ratio], an invariant of the display
    by [stored_ratio_initial] and [update_keeps_stored_ratio]), and always
    positive. *)
Theorem letterbox_half_extents (W H : Z) (ia : float32) :
  1 <= W <= INT_MAX -> 1 <= H <= INT_MAX -> stored_ratio ia ->
  let wa := f32_div (f32_of_int W) (f32_of_int H) in
  let qw := fst (letterbox W H ia) in
  let qh := snd (letterbox W H ia) in
  SFltb f32_zero qw = true /\ SFleb qw f32_one = true /\
  SFltb f32_zero qh = true /\ SFleb qh f32_one = true /\
  (wa = ia -> qw = f32_one /\ qh = f32_one) /\
  (wa <> ia -> (qw = f32_one /\ qh <> f32_one) \/ (qw <> f32_one /\ qh = f32_one)) /\
  (Rabs (f32_to_R qw / f32_to_R qh - f32_to_R ia / f32_to_R wa)
     <= f32_to_R ia / f32_to_R wa / 2 ^ 23)%R.
Proof.
  intros HW HH Hia wa qw qh.
  destruct (quotient_of_ints_normal W H HW HH) as (mw & ew & Hwa & Hmw & Hew).
  destruct (stored_ratio_normal ia Hia) as (mi & ei & -> & Hmi & Hei).
  fold wa in Hwa.
  unfold qw, qh, letterbox. fold wa. rewrite Hwa. unfold f32_gt.
  destruct (SFltb (S754_finite false mi ei) (S754_finite false mw ew)) eqn:Hcmp;
    cbn [fst snd].
  - (* the window is wider than the image *)
    apply SFltb_finite in Hcmp.
    destruct (f32_div_lt_one mi mw ei ew Hmi Hmw ltac:(lia) Hcmp)
      as (mz & ez & Hdiv & Hmz & Hez).
    pose proof (f32_div_error mi mw ei ew Hmi Hmw ltac:(lia)) as Herr.
    cbv zeta in Herr. rewrite Hdiv in *.
    destruct (below_one mz ez ltac:(lia)) as (Hle & Hne).
    split; [reflexivity|]. split; [assumption|].
    split; [reflexivity|]. split; [reflexivity|].
    split; [|split].
    + intros Heq. injection Heq as -> ->. lia.
    + intros _. right. split; [assumption | reflexivity].
    + rewrite f32_to_R_one. apply tolerance_direct; try apply f32_to_R_pos. exact Herr.
  - (* the window is not wider than the image *)
    assert (Hnlt : ~ (ei < ew \/ ei = ew /\ Z.pos mi < Z.pos mw)).
    { intros Hlt. apply SFltb_finite in Hlt. congruence. }
    destruct (Z.eq_dec ew ei) as [Hee | Hee];
      [destruct (Z.eq_dec (Z.pos mw) (Z.pos mi)) as [Hmm | Hmm]|].
    + (* the two ratios are equal *)
      injection Hmm as ->. subst ew.
      rewrite f32_div_same by assumption.
      split; [reflexivity|]. split; [reflexivity|].
      split; [reflexivity|]. split; [reflexivity|].
      split; [|split].
      * intros _. split; reflexivity.
      * intros Hne. contradiction.
      * rewrite f32_to_R_one.
        pose proof (f32_to_R_pos mi ei) as Hpos.
        replace (1 / 1 - f32_to_R (S754_finite false mi ei) / f32_to_R (S754_finite false mi ei))%R
          with 0%R by (field; lra).
        rewrite Rabs_R0.
        replace (f32_to_R (S754_finite false mi ei) / f32_to_R (S754_finite false mi ei))%R
          with 1%R by (field; lra).
        lra.
    + (* the window is narrower: same exponent, smaller mantissa *)
      assert (Hlt : ew < ei \/ ew = ei /\ Z.pos mw < Z.pos mi) by lia.
      destruct (f32_div_lt_one mw mi ew ei Hmw Hmi ltac:(lia) Hlt)
        as (mz & ez & Hdiv & Hmz & Hez).
      pose proof (f32_div_error mw mi ew ei Hmw Hmi ltac:(lia)) as Herr.
      cbv zeta in Herr. rewrite Hdiv in *.
      destruct (below_one mz ez ltac:(lia)) as (Hle & Hne).
      split; [reflexivity|]. split; [reflexivity|].
      split; [reflexivity|]. split; [assumption|].
      split; [|split].
      * intros Heq. injection Heq as Hm He. lia.
      * intros _. left. split; [reflexivity | assumption].
      * rewrite f32_to_R_one. apply tolerance_inverse; try apply f32_to_R_pos. exact Herr.
    + assert (Hlt : ew < ei \/ ew = ei /\ Z.pos mw < Z.pos mi) by lia.
      destruct (f32_div_lt_one mw mi ew ei Hmw Hmi ltac:(lia) Hlt)
        as (mz & ez & Hdiv & Hmz & Hez).
      pose proof (f32_div_error mw mi ew ei Hmw Hmi ltac:(lia)) as Herr.
      cbv zeta in Herr. rewrite Hdiv in *.
      destruct (below_one mz ez ltac:(lia)) as (Hle & Hne).
      split; [reflexivity|]. split; [reflexivity|].
      split; [reflexivity|]. split; [assumption|].
      split; [|split].
      * intros Heq. injection Heq as Hm He. lia.
      * intros _. left. split; [reflexivity | assumption].
      * rewrite f32_to_R_one. apply tolerance_inverse; try apply f32_to_R_pos. exact Herr.
Qed.


Lemma letterbox_half_extents_witness :
  letterbox 1280 720 (image_aspect_ratio showing_4_3)
    = (S754_finite false 12582912 (-24), f32_one) /\
  SFleb (fst (letterbox 1280 720 (image_aspect_ratio showing_4_3))) f32_one = true.
Proof.
  split; [reflexivity|].
  apply (letterbox_half_extents 1280 720 (image_aspect_ratio showing_4_3)).
  - split; closed_arith.
  - split; closed_arith.
  - right. exists 640, 480. repeat split; closed_arith.
Defined.

(** The computation itself has no guard for ratios the display never
    stores: on the smallest positive [float] and a 2 x 1 framebuffer the
    quotient [2^-150] rounds to zero. *)
Lemma letterbox_outside_stored_ratio :
  valid_binary prec32 emax32 f32_min_subnormal = true /\
  SFltb f32_zero f32_min_subnormal = true /\
  letterbox 2 1 f32_min_subnormal = (f32_zero, f32_one) /\
  SFltb f32_zero (fst (letterbox 2 1 f32_min_subnormal)) = false.
Proof. repeat split. Qed.


(** * The converter at its edges

    What [convertToRGB] does on frames without pixels, on frames it cannot
    convert, and what its output depends on. *)

(** ** Frames without pixels *)

Lemma vector_resize_zero (buf : list Z) : vector_resize buf 0 = [].
Proof. now destruct buf. Qed.

(** A loop whose body keeps the state runs to its end and keeps the state. *)
Lemma for_loop_unchanged {S : Type} (bound step : Z) (body : Z -> S -> outcome S) (s : S) :
  0 < step ->
  (forall i, 0 <= i < bound -> body i s = Ok s) ->
  forall (fuel : nat) (i : Z), 0 <= i -> for_loop fuel i bound step body s = Ok s.
Proof.
  intros Hstep Hbody fuel. induction fuel as [|fuel IH]; intros i Hi; simpl; [reflexivity|].
  destruct (Z.ltb_spec i bound); [|reflexivity].
  rewrite Hbody by lia. simpl. apply IH. lia.
Qed.

(** The converter on a frame without pixels. *)
Lemma convert_empty_frame_cases (frame : ImageFrame) (rgb_data : list Z) :
  let w := width (size (header frame)) in
  let h := height (size (header frame)) in
  let fmt := format (header frame) in
  (h = 0 \/ (w = 0 /\ recognised fmt = false) ->
   convertToRGB frame rgb_data
     = Ok ([], if recognised fmt then [] else [WarnUnsupportedFormat fmt])) /\
  (w = 0 -> 1 <= h -> recognised fmt = true ->
   convertToRGB frame rgb_data = Undefined OutOfBounds).
Proof.
  intros w h fmt.
  assert (Hsize : w = 0 \/ h = 0 -> rgb_size w h = Ok 0).
  { intros [-> | ->]; [reflexivity|].
    unfold rgb_size, int_mul at 1. rewrite Z.mul_0_r. reflexivity. }
  split.
  - intros Hzero. unfold convertToRGB. fold w h fmt.
    rewrite Hsize by tauto. cbn [obind]. rewrite vector_resize_zero.
    unfold recognised in *.
    destruct (fmt =? RGB888); [|destruct (fmt =? YUYV)]; cbn [orb] in *.
    + destruct Hzero as [-> | [_ Hf]]; [reflexivity | discriminate Hf].
    + destruct Hzero as [-> | [_ Hf]]; [reflexivity | discriminate Hf].
    + reflexivity.
  - intros Hw Hh Hfmt. unfold convertToRGB. fold w h fmt.
    rewrite Hsize by tauto. cbn [obind]. rewrite vector_resize_zero.
    assert (Hfuel : exists n, Z.to_nat h = S n) by (exists (Z.to_nat (h - 1)); lia).
    destruct Hfuel as [n ->]. cbn [for_loop].
    destruct (Z.ltb_spec 0 h); [|lia].
    unfold recognised in Hfmt.
    destruct (fmt =? RGB888); [reflexivity|].
    destruct (fmt =? YUYV); [|discriminate Hfmt].
    unfold yuyv_row. change (len []) with 0.
    destruct (u32 (0 * pitch (header frame)) <? len (pixels frame)); reflexivity.
Qed.

(** X1. A frame without pixels. A frame of zero height converts to an empty
    buffer, in every format: no row is addressed and no pixel read, whatever
    its pitch, its pixel buffer and the old content of the output buffer; so
    does a frame of zero width in an unrecognised format, which still gets
    its warning. A frame of zero width with a row, in a recognised format, is
    not converted: for its first row the address of the first byte of the
    empty output buffer is taken. *)
Theorem convert_empty_frame (frame : ImageFrame) (rgb_data : list Z) :
  let w := width (size (header frame)) in
  let h := height (size (header frame)) in
  let fmt := format (header frame) in
  (h = 0 \/ (w = 0 /\ recognised fmt = false) ->
   convertToRGB frame rgb_data
     = Ok ([], if recognised fmt then [] else [WarnUnsupportedFormat fmt])) /\
  (w = 0 -> 1 <= h -> recognised fmt = true ->
   convertToRGB frame rgb_data = Undefined OutOfBounds).
Proof. exact (convert_empty_frame_cases frame rgb_data). Qed.

Lemma convert_empty_frame_witness :
  convertToRGB empty_rgb_frame [1; 2; 3] = Ok ([], []) /\
  convertToRGB (mkImageFrame (mkHeader 0 0 (mkImageSize 0 720) RGB888) []) []
    = Undefined OutOfBounds.
Proof.
  split.
  - apply (convert_empty_frame empty_rgb_frame [1; 2; 3]). left. reflexivity.
  - apply (convert_empty_frame (mkImageFrame (mkHeader 0 0 (mkImageSize 0 720) RGB888) []) []);
      closed_arith.
Defined.

(** ** Loops that fault *)

(** A loop whose iterations either keep an invariant or stop with the fault
    [f] does the same as a whole. *)
Lemma for_loop_outcome {S : Type} (Inv : S -> Prop) (f : fault) (bound step : Z)
    (body : Z -> S -> outcome S) :
  (forall i s, Inv s -> (exists s', body i s = Ok s' /\ Inv s') \/ body i s = Undefined f) ->
  forall (fuel : nat) (i : Z) (s : S), Inv s ->
    (exists s', for_loop fuel i bound step body s = Ok s' /\ Inv s') \/
    for_loop fuel i bound step body s = Undefined f.
Proof.
  intros Hbody fuel. induction fuel as [|fuel IH]; intros i s Hs; simpl.
  - left. eauto.
  - destruct (i <? bound); [|left; eauto].
    destruct (Hbody i s Hs) as [(s' & -> & Hs') | ->]; [|now right].
    simpl. now apply IH.
Qed.

(** Such a loop stops with [f] when the iteration at some index it reaches
    cannot succeed. *)
Lemma for_loop_fault {S : Type} (Inv : S -> Prop) (f : fault) (bound step last : Z)
    (body : Z -> S -> outcome S) :
  0 < step ->
  (forall i s, Inv s -> (exists s', body i s = Ok s' /\ Inv s') \/ body i s = Undefined f) ->
  (forall s, Inv s -> body last s = Undefined f) ->
  forall (fuel : nat) (k : Z) (s : S),
    0 <= k -> k < Z.of_nat fuel -> last < bound -> Inv s ->
    for_loop fuel (last - k * step) bound step body s = Undefined f.
Proof.
  intros Hstep Hbody Hlast fuel.
  induction fuel as [|fuel IH]; intros k s Hk Hfuel Hbound Hs; [lia|]. simpl.
  destruct (Z.ltb_spec (last - k * step) bound) as [_ | Hge]; [|nia].
  destruct (Z.eq_dec k 0) as [-> | Hk0].
  - replace (last - 0 * step) with last by lia. now rewrite Hlast.
  - destruct (Hbody (last - k * step) s Hs) as [(s' & -> & Hs') | ->]; [|reflexivity].
    simpl. replace (last - k * step + step) with (last - (k - 1) * step) by lia.
    apply IH; try assumption; lia.
Qed.

Lemma load_outcome (buf : list Z) (i : Z) :
  (exists b, load buf i = Ok b) \/ load buf i = Undefined OutOfBounds.
Proof.
  unfold load. destruct (0 <=? i); [|now right].
  destruct (buf !! Z.to_nat i); [left; eauto | now right].
Qed.

Lemma store_outcome (buf : list Z) (i v : Z) :
  (exists buf', store buf i v = Ok buf' /\ len buf' = len buf) \/
  store buf i v = Undefined OutOfBounds.
Proof.
  unfold store. destruct ((0 <=? i) && (i <? len buf)); [|now right].
  left. eexists. split; [reflexivity | apply len_insert].
Qed.

Lemma store_past_end (buf : list Z) (i v : Z) :
  len buf <= i -> store buf i v = Undefined OutOfBounds.
Proof.
  intros Hi. unfold store. destruct (Z.ltb_spec i (len buf)); [lia|].
  now rewrite andb_false_r.
Qed.

(** Runs the next load or store of a sequence: it succeeds, or it faults and
    [done] closes the goal. *)
Ltac step_load done :=
  match goal with
  | |- context [obind (load ?b ?i) _] =>
      destruct (load_outcome b i) as [[? ->] | ->]; [cbn [obind] | done]
  end.

Ltac step_store H done :=
  match goal with
  | |- context [obind (store ?b ?i ?v) _] =>
      let b' := fresh "b" in let Hb := fresh "Hb" in
      destruct (store_outcome b i v) as [(b' & -> & Hb) | ->];
      [cbn [obind]; rewrite H in Hb; clear H; rename Hb into H | done]
  end.

Lemma yuyv_pair_outcome (src : list Z) (P R x : Z) (buf : list Z) (n : Z) :
  len buf = n ->
  (exists out, yuyv_pair src P R x buf = Ok out /\ len out = n) \/
  yuyv_pair src P R x buf = Undefined OutOfBounds.
Proof.
  intros Hlen. unfold yuyv_pair.
  do 4 (step_load ltac:(now right)). do 5 (step_store Hlen ltac:(now right)).
  match goal with
  | |- context [store ?b ?i ?v] =>
      destruct (store_outcome b i v) as [(b' & -> & Hb) | ->]; [left | now right]
  end.
  exists b'. split; [reflexivity | lia].
Qed.

(** A pair whose second pixel lies past the end of the output cannot be
    converted. *)
Lemma yuyv_pair_past_end (src : list Z) (P R x : Z) (buf : list Z) :
  len buf <= R + (x + 1) * 3 ->
  yuyv_pair src P R x buf = Undefined OutOfBounds.
Proof.
  intros Hend. remember (len buf) as n eqn:Hlen. symmetry in Hlen.
  unfold yuyv_pair.
  do 4 (step_load ltac:(reflexivity)). do 3 (step_store Hlen ltac:(reflexivity)).
  rewrite store_past_end by lia. reflexivity.
Qed.

Lemma yuyv_row_outcome (src : list Z) (w p y : Z) (buf : list Z) (n : Z) :
  len buf = n ->
  (exists out, yuyv_row src w p y buf = Ok out /\ len out = n) \/
  yuyv_row src w p y buf = Undefined OutOfBounds.
Proof.
  intros Hlen. unfold yuyv_row.
  destruct ((u32 (y * p) <? len src) && (u32 (y * w * 3) <? len buf));
    [|now right].
  apply (for_loop_outcome (fun b => len b = n)); [|assumption].
  intros i b Hb. now apply yuyv_pair_outcome.
Qed.

(** The last row of an odd-width frame: its last pair has no second pixel. *)
Lemma yuyv_last_row_odd (src : list Z) (w h p : Z) (buf : list Z) :
  0 <= w -> w mod 2 = 1 -> 1 <= h -> w * h * 3 <= INT_MAX ->
  len buf = w * h * 3 ->
  yuyv_row src w p (h - 1) buf = Undefined OutOfBounds.
Proof.
  intros Hw Hodd Hh Hfit Hlen. unfold yuyv_row.
  assert (Hw2 : w = 2 * (w / 2) + 1) by (rewrite (Z.div_mod w 2) at 1 by lia; lia).
  assert (Hk : 0 <= w / 2) by (apply Z.div_pos; lia).
  rewrite (u32_small ((h - 1) * w * 3)) by (unfold INT_MAX, UINT32_MAX in *; nia).
  destruct ((u32 ((h - 1) * p) <? len src) && ((h - 1) * w * 3 <? len buf));
    [|reflexivity].
  replace 0 with (w - 1 - w / 2 * 2) at 1 by lia.
  apply (for_loop_fault (fun b => len b = w * h * 3)); try assumption; try lia.
  - intros i b Hb. now apply yuyv_pair_outcome.
  - intros b Hb. apply yuyv_pair_past_end. lia.
Qed.

(** X2. A YUYV frame of odd width (and at least one row) is never converted:
    whatever the pixel buffer holds and however long it is, a byte outside a
    buffer is accessed. *)
Theorem convert_yuyv_odd_width (frame : ImageFrame) (rgb_data : list Z) :
  let w := width (size (header frame)) in
  let h := height (size (header frame)) in
  format (header frame) = YUYV ->
  header_in_range (header frame) ->
  w mod 2 = 1 -> 1 <= h ->
  w * h * 3 <= INT_MAX ->
  convertToRGB frame rgb_data = Undefined OutOfBounds.
Proof.
  intros w h Hfmt (Hw & Hh & _) Hodd Hh1 Hfit. fold w h in Hw, Hh.
  unfold convertToRGB. fold w h.
  rewrite rgb_size_ok by lia. cbn [obind].
  rewrite Hfmt. change (YUYV =? RGB888) with false. cbv iota. rewrite Z.eqb_refl.
  assert (Hlen : len (vector_resize rgb_data (w * h * 3)) = w * h * 3)
    by (apply len_vector_resize; nia).
  replace 0 with (h - 1 - (h - 1) * 1) at 1 by lia.
  rewrite (for_loop_fault (fun b => len b = w * h * 3) OutOfBounds);
    try reflexivity; try assumption; try lia.
  - intros i b Hb. now apply yuyv_row_outcome.
  - intros b Hb. now apply yuyv_last_row_odd.
Qed.

Lemma convert_yuyv_odd_width_witness :
  convertToRGB odd_yuyv_frame [] = Undefined OutOfBounds.
Proof.
  apply (convert_yuyv_odd_width odd_yuyv_frame []).
  - reflexivity.
  - repeat split; closed_arith.
  - reflexivity.
  - closed_arith.
  - closed_arith.
Defined.

(** ** What the output depends on *)

Lemma list_eq_get (a b : list Z) :
  len a = len b -> (forall i, 0 <= i < len a -> get a i = get b i) -> a = b.
Proof.
  intros Hlen Hget. apply list_eq. intros k.
  destruct (Z.lt_ge_cases (Z.of_nat k) (len a)) as [Hk | Hk].
  - specialize (Hget (Z.of_nat k) ltac:(lia)). unfold get in Hget.
    now rewrite Nat2Z.id in Hget.
  - unfold len in *. rewrite !lookup_ge_None_2 by lia. reflexivity.
Qed.

(** Row and column of a byte offset in rows of [n] bytes. *)
Lemma offset_row_col (i n rows : Z) :
  0 < n -> 0 <= i < n * rows ->
  i = i / n * n + i mod n /\ 0 <= i / n < rows /\ 0 <= i mod n < n.
Proof.
  intros Hn Hi.
  pose proof (Z.div_mod i n ltac:(lia)). pose proof (Z.mod_pos_bound i n Hn).
  split; [lia|]. split; [|assumption].
  split; [apply Z.div_pos; lia | apply Z.div_lt_upper_bound; lia].
Qed.

Lemma pair_done_bytes (src o1 o2 : list Z) (P R q k : Z) :
  pair_done src o1 P R q -> pair_done src o2 P R q -> 0 <= k < 6 ->
  get o1 (R + 6 * q + k) = get o2 (R + 6 * q + k).
Proof.
  intros (y0 & u & y1 & v & Hin1 & Hout1) (y0' & u' & y1' & v' & Hin2 & Hout2) Hk.
  assert (y0 = y0') as <-.
  { pose proof (Hin1 0%nat y0 eq_refl) as H1. pose proof (Hin2 0%nat y0' eq_refl) as H2. congruence. }
  assert (u = u') as <-.
  { pose proof (Hin1 1%nat u eq_refl) as H1. pose proof (Hin2 1%nat u' eq_refl) as H2. congruence. }
  assert (y1 = y1') as <-.
  { pose proof (Hin1 2%nat y1 eq_refl) as H1. pose proof (Hin2 2%nat y1' eq_refl) as H2. congruence. }
  assert (v = v') as <-.
  { pose proof (Hin1 3%nat v eq_refl) as H1. pose proof (Hin2 3%nat v' eq_refl) as H2. congruence. }
  destruct (lookup_lt_is_Some_2 (yuyv_rgb y0 u y1 v) (Z.to_nat k)) as [x Hx]; [simpl; lia|].
  pose proof (Hout1 _ _ Hx) as H1. pose proof (Hout2 _ _ Hx) as H2.
  rewrite Z2Nat.id in H1, H2 by lia. congruence.
Qed.

(** X3. On a frame it is defined on, the conversion does not depend on what the
    caller's buffer held: every byte of the output is written, so nothing of an
    earlier frame stays in a reused buffer. *)
Theorem convert_ignores_old_buffer (frame : ImageFrame) (old1 old2 : list Z) :
  header_in_range (header frame) ->
  width (size (header frame)) * height (size (header frame)) * 3 <= INT_MAX ->
  source_fits frame ->
  exists out diags,
    convertToRGB frame old1 = Ok (out, diags) /\
    convertToRGB frame old2 = Ok (out, diags).
Proof.
  intros Hrange Hfit (Hrgb & Hyuyv & Hrows0).
  pose proof Hrange as (Hw & Hh & _).
  set (w := width (size (header frame))) in *.
  set (h := height (size (header frame))) in *.
  destruct (Z.eq_dec (format (header frame)) RGB888) as [E1 | N1];
    [|destruct (Z.eq_dec (format (header frame)) YUYV) as [E2 | N2]].
  - destruct (Hrgb E1) as (Hp & Hs).
    destruct (convert_rgb888 frame old1 Hrange Hfit E1 Hp Hs (Hrows0 (recognised_rgb888 _ E1))) as (o1 & Hr1 & Hl1 & Hb1).
    destruct (convert_rgb888 frame old2 Hrange Hfit E1 Hp Hs (Hrows0 (recognised_rgb888 _ E1))) as (o2 & Hr2 & Hl2 & Hb2).
    fold w h in Hl1, Hl2, Hb1, Hb2.
    assert (o1 = o2) as <-; [|eauto].
    apply list_eq_get; [lia|]. intros i Hi.
    destruct (Z.eq_dec w 0) as [Hw0 | Hw0]; [rewrite Hw0 in *; lia|].
    destruct (offset_row_col i (3 * w) h) as (Hi' & Hr & Hc); [lia | lia |].
    rewrite Hi'. rewrite Hb1, Hb2 by lia. reflexivity.
  - destruct (Hyuyv E2) as (He & Hp & Hs).
    destruct (convert_yuyv frame old1 Hrange Hfit E2 He Hp Hs (Hrows0 (recognised_yuyv _ E2))) as (o1 & Hr1 & Hl1 & Hb1).
    destruct (convert_yuyv frame old2 Hrange Hfit E2 He Hp Hs (Hrows0 (recognised_yuyv _ E2))) as (o2 & Hr2 & Hl2 & Hb2).
    fold w h in Hl1, Hl2, Hb1, Hb2, He.
    assert (o1 = o2) as <-; [|eauto].
    apply list_eq_get; [lia|]. intros i Hi.
    destruct (Z.eq_dec w 0) as [Hw0 | Hw0]; [rewrite Hw0 in *; lia|].
    destruct (offset_row_col i (3 * w) h) as (Hi' & Hr & Hc); [lia | lia |].
    assert (Hw2 : w = 2 * (w / 2)) by (rewrite (Z.div_mod w 2) at 1 by lia; lia).
    destruct (offset_row_col (i mod (3 * w)) 6 (w / 2)) as (Hc' & Hq & Hk); [lia | lia |].
    rewrite Hi', Hc'.
    replace (i / (3 * w) * (3 * w) + (i mod (3 * w) / 6 * 6 + (i mod (3 * w)) mod 6))
      with (i / (3 * w) * (3 * w) + 6 * (i mod (3 * w) / 6) + (i mod (3 * w)) mod 6) by lia.
    apply (pair_done_bytes (pixels frame) o1 o2
             (u32 (i / (3 * w) * pitch (header frame)))); [| |lia].
    + apply Hb1; lia.
    + apply Hb2; lia.
  - destruct (convert_other frame old1 Hrange Hfit N1 N2) as (o1 & Hr1 & Hl1 & Hb1).
    destruct (convert_other frame old2 Hrange Hfit N1 N2) as (o2 & Hr2 & Hl2 & Hb2).
    fold w h in Hl1, Hl2, Hb1, Hb2.
    assert (o1 = o2) as <-; [|eauto].
    apply list_eq_get; [lia|]. intros i Hi.
    destruct (offset_row_col i 3 (w * h)) as (Hi' & Hr & Hc); [lia | lia |].
    destruct (Hb1 (i / 3) Hr) as (A0 & A1 & A2).
    destruct (Hb2 (i / 3) Hr) as (B0 & B1 & B2).
    assert (Hcases : i mod 3 = 0 \/ i mod 3 = 1 \/ i mod 3 = 2) by lia.
    rewrite Hi'.
    destruct Hcases as [-> | [-> | ->]].
    + replace (i / 3 * 3 + 0) with (3 * (i / 3)) by lia. congruence.
    + replace (i / 3 * 3 + 1) with (3 * (i / 3) + 1) by lia. congruence.
    + replace (i / 3 * 3 + 2) with (3 * (i / 3) + 2) by lia. congruence.
Qed.

Lemma convert_ignores_old_buffer_witness :
  exists out diags,
    convertToRGB white_frame [] = Ok (out, diags) /\
    convertToRGB white_frame [1; 2; 3; 4; 5; 6; 7] = Ok (out, diags).
Proof.
  apply (convert_ignores_old_buffer white_frame [] [1; 2; 3; 4; 5; 6; 7]).
  - repeat split; closed_arith.
  - closed_arith.
  - closed_fits.
Defined.

(** ** The output is a byte buffer *)

Lemma pair_done_byte (src o : list Z) (P R q k : Z) :
  pair_done src o P R q -> 0 <= k < 6 ->
  exists x, get o (R + 6 * q + k) = Some x /\ is_byte x.
Proof.
  intros (y0 & u & y1 & v & _ & Hout) Hk.
  destruct (lookup_lt_is_Some_2 (yuyv_rgb y0 u y1 v) (Z.to_nat k)) as [x Hx]; [simpl; lia|].
  exists x. split.
  - pose proof (Hout _ _ Hx) as H. now rewrite Z2Nat.id in H by lia.
  - apply list_elem_of_lookup_2 in Hx. unfold yuyv_rgb in Hx.
    repeat (apply elem_of_cons in Hx; destruct Hx as [-> | Hx]; [apply clamp_byte|]).
    now apply elem_of_nil in Hx.
Qed.

(** X4. The bytes of a frame convert to bytes: with every source byte in
    [0, 255], so is every output byte. *)
Theorem convert_output_bytes (frame : ImageFrame) (rgb_data : list Z) :
  header_in_range (header frame) ->
  width (size (header frame)) * height (size (header frame)) * 3 <= INT_MAX ->
  source_fits frame ->
  Forall is_byte (pixels frame) ->
  exists out diags,
    convertToRGB frame rgb_data = Ok (out, diags) /\ Forall is_byte out.
Proof.
  intros Hrange Hfit (Hrgb & Hyuyv & Hrows0) Hsrc.
  pose proof Hrange as (Hw & Hh & _).
  set (w := width (size (header frame))) in *.
  set (h := height (size (header frame))) in *.
  assert (Hall : forall out : list Z,
    (forall i, 0 <= i < len out -> exists x, get out i = Some x /\ is_byte x) ->
    Forall is_byte out).
  { intros out Hget. apply Forall_lookup. intros k x Hk.
    destruct (Hget (Z.of_nat k)) as (x' & Hx' & Hbyte).
    - apply lookup_lt_Some in Hk. unfold len. lia.
    - unfold get in Hx'. rewrite Nat2Z.id in Hx'. congruence. }
  destruct (Z.eq_dec (format (header frame)) RGB888) as [E1 | N1];
    [|destruct (Z.eq_dec (format (header frame)) YUYV) as [E2 | N2]].
  - destruct (Hrgb E1) as (Hp & Hs).
    destruct (convert_rgb888 frame rgb_data Hrange Hfit E1 Hp Hs (Hrows0 (recognised_rgb888 _ E1))) as (o & Hr & Hl & Hb).
    fold w h in Hl, Hb.
    exists o, []. split; [assumption|]. apply Hall. intros i Hi.
    destruct (Z.eq_dec w 0) as [Hw0 | Hw0]; [rewrite Hw0 in *; lia|].
    destruct (offset_row_col i (3 * w) h) as (Hi' & Hrow & Hc); [lia | lia |].
    destruct (get_is_Some o i ltac:(lia)) as [x Hx]. exists x. split; [assumption|].
    rewrite Hi', Hb in Hx by lia.
    unfold get in Hx. eapply Forall_lookup_1 in Hx; eassumption.
  - destruct (Hyuyv E2) as (He & Hp & Hs).
    destruct (convert_yuyv frame rgb_data Hrange Hfit E2 He Hp Hs (Hrows0 (recognised_yuyv _ E2))) as (o & Hr & Hl & Hb).
    fold w h in Hl, Hb, He.
    exists o, []. split; [assumption|]. apply Hall. intros i Hi.
    destruct (Z.eq_dec w 0) as [Hw0 | Hw0]; [rewrite Hw0 in *; lia|].
    destruct (offset_row_col i (3 * w) h) as (Hi' & Hrow & Hc); [lia | lia |].
    assert (Hw2 : w = 2 * (w / 2)) by (rewrite (Z.div_mod w 2) at 1 by lia; lia).
    destruct (offset_row_col (i mod (3 * w)) 6 (w / 2)) as (Hc' & Hq & Hk); [lia | lia |].
    rewrite Hi', Hc'.
    replace (i / (3 * w) * (3 * w) + (i mod (3 * w) / 6 * 6 + (i mod (3 * w)) mod 6))
      with (i / (3 * w) * (3 * w) + 6 * (i mod (3 * w) / 6) + (i mod (3 * w)) mod 6) by lia.
    apply (pair_done_byte (pixels frame) o (u32 (i / (3 * w) * pitch (header frame))));
      [|lia].
    apply Hb; lia.
  - destruct (convert_other frame rgb_data Hrange Hfit N1 N2) as (o & Hr & Hl & Hb).
    fold w h in Hl, Hb.
    exists o. eexists. split; [eassumption|]. apply Hall. intros i Hi.
    destruct (offset_row_col i 3 (w * h)) as (Hi' & Hrow & Hc); [lia | lia |].
    destruct (Hb (i / 3) Hrow) as (A0 & A1 & A2).
    assert (Hcases : i mod 3 = 0 \/ i mod 3 = 1 \/ i mod 3 = 2) by lia.
    rewrite Hi'. unfold is_byte.
    destruct Hcases as [-> | [-> | ->]].
    + replace (i / 3 * 3 + 0) with (3 * (i / 3)) by lia. eexists; split; [eassumption | lia].
    + replace (i / 3 * 3 + 1) with (3 * (i / 3) + 1) by lia. eexists; split; [eassumption | lia].
    + replace (i / 3 * 3 + 2) with (3 * (i / 3) + 2) by lia. eexists; split; [eassumption | lia].
Qed.

Lemma convert_output_bytes_witness :
  exists out diags,
    convertToRGB padded_rgb_frame [] = Ok (out, diags) /\ Forall is_byte out.
Proof.
  apply (convert_output_bytes padded_rgb_frame []).
  - repeat split; closed_arith.
  - closed_arith.
  - closed_fits.
  - repeat (constructor; [split; closed_arith|]). constructor.
Defined.

(** ** The size of the output *)

Lemma memcpy_outcome (dst : list Z) (doff : Z) (src : list Z) (soff n : Z) :
  0 <= doff -> 0 <= soff -> 0 <= n ->
  (exists out, memcpy dst doff src soff n = Ok out /\ len out = len dst) \/
  memcpy dst doff src soff n = Undefined OutOfBounds.
Proof.
  intros Hd Hs Hn.
  destruct (Z.ltb_spec doff (len dst)) as [Hd1 | Hd1];
    [|right; unfold memcpy; destruct (Z.ltb_spec doff (len dst)); [lia | reflexivity]].
  destruct (Z.ltb_spec soff (len src)) as [Hs1 | Hs1];
    [|right; unfold memcpy; destruct (Z.ltb_spec soff (len src)); [lia|];
      now rewrite andb_false_r].
  destruct (Z.leb_spec (soff + n) (len src)) as [Hsrc | Hsrc];
    [|right; unfold memcpy; destruct (Z.leb_spec (soff + n) (len src)); [lia|];
      now rewrite andb_false_r].
  destruct (Z.leb_spec (doff + n) (len dst)) as [Hdst | Hdst];
    [|right; unfold memcpy; destruct (Z.leb_spec (doff + n) (len dst)); [lia|];
      now rewrite andb_false_r].
  destruct (memcpy_spec dst doff src soff n) as (out & -> & Hlen & _);
    try assumption; try lia.
  left. eauto.
Qed.

Lemma u32_nonneg (z : Z) : 0 <= u32 z.
Proof. unfold u32. apply Z.mod_pos_bound. lia. Qed.

Lemma rgb888_row_outcome (src : list Z) (w p y : Z) (buf : list Z) (n : Z) :
  0 <= w -> len buf = n ->
  (exists out, rgb888_row src w p y buf = Ok out /\ len out = n) \/
  rgb888_row src w p y buf = Undefined OutOfBounds.
Proof.
  intros Hw <-. unfold rgb888_row. apply memcpy_outcome; try apply u32_nonneg. lia.
Qed.

Lemma magenta_pixel_outcome (i : Z) (buf : list Z) (n : Z) :
  len buf = n ->
  (exists out, magenta_pixel i buf = Ok out /\ len out = n) \/
  magenta_pixel i buf = Undefined OutOfBounds.
Proof.
  intros Hlen. unfold magenta_pixel.
  do 2 (step_store Hlen ltac:(now right)).
  match goal with
  | |- context [store ?b ?i ?v] =>
      destruct (store_outcome b i v) as [(b' & -> & Hb) | ->]; [left | now right]
  end.
  exists b'. split; [reflexivity | lia].
Qed.

(** Every run of the converter either returns [width * height * 3] bytes,
    that size being an [int], or is undefined. *)
Lemma convert_ok_len (frame : ImageFrame) (rgb_data out : list Z) (diags : list Diagnostic) :
  header_in_range (header frame) ->
  convertToRGB frame rgb_data = Ok (out, diags) ->
  width (size (header frame)) * height (size (header frame)) * 3 <= INT_MAX /\
  len out = width (size (header frame)) * height (size (header frame)) * 3 /\
  diags = (if recognised (format (header frame)) then []
           else [WarnUnsupportedFormat (format (header frame))]).
Proof.
  intros Hrange Hrun. pose proof Hrange as (Hw & Hh & _).
  set (w := width (size (header frame))) in *.
  set (h := height (size (header frame))) in *.
  destruct (Z.le_gt_cases (w * h * 3) INT_MAX) as [Hfit | Hbig];
    [|rewrite convert_overflow in Hrun by (assumption || (fold w h; lia)); discriminate].
  split; [assumption|].
  unfold convertToRGB, recognised in *. fold w h in Hrun.
  rewrite rgb_size_ok in Hrun by lia. cbn [obind] in Hrun.
  assert (Hlen : len (vector_resize rgb_data (w * h * 3)) = w * h * 3)
    by (apply len_vector_resize; nia).
  set (buf := vector_resize rgb_data (w * h * 3)) in *.
  destruct (format (header frame) =? RGB888);
    [|destruct (format (header frame) =? YUYV)]; cbn [orb].
  - destruct (for_loop_outcome (fun b => len b = w * h * 3) OutOfBounds h 1
                (rgb888_row (pixels frame) w (pitch (header frame)))
                ltac:(intros i b Hb; apply rgb888_row_outcome; [lia | assumption])
                (Z.to_nat h) 0 buf Hlen) as [(o & Ho & Hlo) | Ho];
      rewrite Ho in Hrun; [|discriminate].
    cbn [obind] in Hrun. injection Hrun as <- <-. now split.
  - destruct (for_loop_outcome (fun b => len b = w * h * 3) OutOfBounds h 1
                (yuyv_row (pixels frame) w (pitch (header frame)))
                ltac:(intros i b Hb; now apply yuyv_row_outcome)
                (Z.to_nat h) 0 buf Hlen) as [(o & Ho & Hlo) | Ho];
      rewrite Ho in Hrun; [|discriminate].
    cbn [obind] in Hrun. injection Hrun as <- <-. now split.
  - destruct (for_loop_outcome (fun b => len b = w * h * 3) OutOfBounds (len buf) 3
                magenta_pixel
                ltac:(intros i b Hb; now apply magenta_pixel_outcome)
                (Z.to_nat (len buf)) 0 buf Hlen) as [(o & Ho & Hlo) | Ho];
      rewrite Ho in Hrun; [|discriminate].
    cbn [obind] in Hrun. injection Hrun as <- <-. now split.
Qed.

(** A tightly packed RGB888 frame converts to its own bytes. *)
Lemma convert_tight_rgb888 (frame : ImageFrame) (rgb_data : list Z) :
  let w := width (size (header frame)) in
  let h := height (size (header frame)) in
  header_in_range (header frame) ->
  w * h * 3 <= INT_MAX ->
  format (header frame) = RGB888 ->
  pitch (header frame) = 3 * w ->
  len (pixels frame) = w * h * 3 ->
  h = 0 \/ 1 <= w ->
  convertToRGB frame rgb_data = Ok (pixels frame, []).
Proof.
  intros w h Hrange Hfit Hfmt Hp Hlen Hrows0. pose proof Hrange as (Hw & Hh & _).
  fold w h in Hw, Hh.
  destruct (convert_rgb888 frame rgb_data Hrange Hfit Hfmt) as (out & -> & Hl & Hb);
    fold w h; [lia | rewrite Hp; lia | assumption |].
  fold w h in Hl, Hb. f_equal. f_equal.
  apply list_eq_get; [lia|]. intros i Hi.
  destruct (Z.eq_dec w 0) as [Hw0 | Hw0]; [rewrite Hw0 in *; lia|].
  destruct (offset_row_col i (3 * w) h) as (Hi' & Hr & Hc); [lia | lia |].
  rewrite Hi' at 1. rewrite Hb by lia. rewrite Hp.
  rewrite u32_small by (unfold INT_MAX, UINT32_MAX in *; nia).
  f_equal. lia.
Qed.

(** X5. What the converter returns is a tightly packed RGB888 image, and a
    fixed point of the converter: presented again as an RGB888 frame of the
    same size with rows of [3 * width] bytes, it converts to itself. The one
    exception is the empty image of a frame of zero width that has a row
    (which only an unrecognised format returns): as an RGB888 frame it is not
    converted, the address of a byte of an empty buffer being taken. *)
Theorem convert_output_fixpoint (frame : ImageFrame) (old old' : list Z)
    (out : list Z) (diags : list Diagnostic) :
  let w := width (size (header frame)) in
  let h := height (size (header frame)) in
  header_in_range (header frame) ->
  convertToRGB frame old = Ok (out, diags) ->
  (h = 0 \/ 1 <= w ->
   convertToRGB (as_rgb888 (header frame) out) old' = Ok (out, [])) /\
  (w = 0 -> 1 <= h ->
   recognised (format (header frame)) = false /\
   convertToRGB (as_rgb888 (header frame) out) old' = Undefined OutOfBounds).
Proof.
  intros w h Hrange Hrun.
  destruct (convert_ok_len frame old out diags Hrange Hrun) as (Hfit & Hlen & _).
  split.
  - intros Hrows0. destruct Hrange as (Hw & Hh & Hp & Hf).
    apply (convert_tight_rgb888 (as_rgb888 (header frame) out) old');
      try assumption; try reflexivity.
    repeat split; simpl; try assumption; unfold UINT16_MAX, UINT32_MAX, RGB888 in *; lia.
  - intros Hw0 Hh1. split.
    + destruct (recognised (format (header frame))) eqn:Hrec; [|reflexivity].
      destruct (convert_empty_frame_cases frame old) as [_ Hundef].
      rewrite Hundef in Hrun by assumption. discriminate Hrun.
    + destruct (convert_empty_frame_cases (as_rgb888 (header frame) out) old')
        as [_ Hundef].
      apply Hundef; [exact Hw0 | exact Hh1 | reflexivity].
Qed.

Lemma convert_output_fixpoint_witness :
  (convertToRGB (as_rgb888 (header white_frame) [255; 255; 255; 255; 255; 255]) [0]
     = Ok ([255; 255; 255; 255; 255; 255], [])) /\
  (recognised (format (header zero_width_frame)) = false /\
   convertToRGB (as_rgb888 (header zero_width_frame) []) [0] = Undefined OutOfBounds).
Proof.
  split.
  - apply (convert_output_fixpoint white_frame [] [0] _ []).
    + repeat split; closed_arith.
    + reflexivity.
    + right. closed_arith.
  - apply (convert_output_fixpoint zero_width_frame [] [0] []
             [WarnUnsupportedFormat 0]).
    + repeat split; closed_arith.
    + reflexivity.
    + reflexivity.
    + closed_arith.
Defined.

(** ** Source buffers that are too short *)

Lemma load_past_end (buf : list Z) (i : Z) :
  len buf <= i -> load buf i = Undefined OutOfBounds.
Proof.
  intros Hi. unfold load. destruct (0 <=? i); [|reflexivity].
  rewrite lookup_ge_None_2; [reflexivity | unfold len in Hi; lia].
Qed.

(** A pair whose last source byte lies past the end of the source cannot be
    converted. *)
Lemma yuyv_pair_short (src : list Z) (P R x : Z) (buf : list Z) :
  len src <= P + (x * 2 + 3) ->
  yuyv_pair src P R x buf = Undefined OutOfBounds.
Proof.
  intros Hend. unfold yuyv_pair.
  do 3 (step_load ltac:(reflexivity)).
  now rewrite load_past_end.
Qed.

Lemma yuyv_last_row_short (src : list Z) (w h p : Z) (buf : list Z) :
  1 <= w -> 1 <= h -> 0 <= p -> (h - 1) * p <= UINT32_MAX ->
  len src < (h - 1) * p + 2 * w ->
  yuyv_row src w p (h - 1) buf = Undefined OutOfBounds.
Proof.
  intros Hw Hh Hp Hwrap Hshort. unfold yuyv_row.
  rewrite (u32_small ((h - 1) * p)) by nia.
  set (k := (w - 1) / 2).
  assert (Hk : 0 <= k /\ 2 * k <= w - 1 < 2 * k + 2).
  { unfold k. pose proof (Z.div_mod (w - 1) 2 ltac:(lia)).
    pose proof (Z.mod_pos_bound (w - 1) 2 ltac:(lia)).
    split; [apply Z.div_pos; lia | lia]. }
  destruct (((h - 1) * p <? len src) && (u32 ((h - 1) * w * 3) <? len buf));
    [|reflexivity].
  replace 0 with (2 * k - k * 2) at 1 by lia.
  apply (for_loop_fault (fun b => len b = len buf)); try reflexivity; try lia.
  - intros i b Hb. now apply yuyv_pair_outcome.
  - intros b Hb. apply yuyv_pair_short. lia.
Qed.

Lemma rgb888_last_row_short (src : list Z) (w h p : Z) (buf : list Z) :
  1 <= w -> 1 <= h -> 0 <= p -> (h - 1) * p <= UINT32_MAX ->
  len src < (h - 1) * p + 3 * w ->
  rgb888_row src w p (h - 1) buf = Undefined OutOfBounds.
Proof.
  intros Hw Hh Hp Hwrap Hshort. unfold rgb888_row, memcpy.
  rewrite (u32_small ((h - 1) * p)) by nia.
  destruct (Z.leb_spec ((h - 1) * p + w * 3) (len src)); [lia|].
  now rewrite andb_false_r.
Qed.

(** X6. A frame in a recognised format whose pixel buffer ends before the end
    of its last row ([3 * width] bytes of it for RGB888, [2 * width] for YUYV)
    is never converted: the conversion reads past the end of the buffer, at
    the last row if not before. *)
Theorem convert_short_source (frame : ImageFrame) (rgb_data : list Z) :
  let w := width (size (header frame)) in
  let h := height (size (header frame)) in
  let p := pitch (header frame) in
  header_in_range (header frame) ->
  w * h * 3 <= INT_MAX ->
  1 <= w -> 1 <= h -> (h - 1) * p <= UINT32_MAX ->
  (format (header frame) = RGB888 /\ len (pixels frame) < (h - 1) * p + 3 * w) \/
  (format (header frame) = YUYV /\ len (pixels frame) < (h - 1) * p + 2 * w) ->
  convertToRGB frame rgb_data = Undefined OutOfBounds.
Proof.
  intros w h p (Hw & Hh & Hp & _) Hfit Hw1 Hh1 Hwrap Hshort. fold w h p in Hw, Hh, Hp.
  unfold convertToRGB. fold w h p.
  rewrite rgb_size_ok by lia. cbn [obind].
  assert (Hlen : len (vector_resize rgb_data (w * h * 3)) = w * h * 3)
    by (apply len_vector_resize; nia).
  destruct Hshort as [(Hfmt & Hend) | (Hfmt & Hend)]; rewrite Hfmt.
  - rewrite Z.eqb_refl.
    replace 0 with (h - 1 - (h - 1) * 1) at 1 by lia.
    rewrite (for_loop_fault (fun b => len b = w * h * 3) OutOfBounds);
      try reflexivity; try assumption; try lia.
    + intros i b Hb. apply rgb888_row_outcome; [lia | assumption].
    + intros b Hb. apply rgb888_last_row_short; assumption || lia.
  - change (YUYV =? RGB888) with false. cbv iota. rewrite Z.eqb_refl.
    replace 0 with (h - 1 - (h - 1) * 1) at 1 by lia.
    rewrite (for_loop_fault (fun b => len b = w * h * 3) OutOfBounds);
      try reflexivity; try assumption; try lia.
    + intros i b Hb. now apply yuyv_row_outcome.
    + intros b Hb. apply yuyv_last_row_short; assumption || lia.
Qed.

Lemma convert_short_source_witness :
  convertToRGB short_rgb_frame [] = Undefined OutOfBounds.
Proof.
  apply (convert_short_source short_rgb_frame []).
  - repeat split; closed_arith.
  - closed_arith.
  - closed_arith.
  - closed_arith.
  - closed_arith.
  - left. split; [reflexivity | closed_arith].
Defined.

(** ** What the conversion reads *)




(** ** Gray frames *)




(** * Sizes and headers ([image_frame.h]) *)

Lemma ImageSize_eqb_eq (a b : ImageSize) : ImageSize_eqb a b = true <-> a = b.
Proof.
  unfold ImageSize_eqb. rewrite andb_true_iff, !Z.eqb_eq.
  destruct a, b. simpl. split; [intros [-> ->]; reflexivity | intros [= -> ->]; now split].
Qed.

Lemma matchesFormat_spec (hd1 hd2 : Header) :
  matchesFormat hd1 hd2 = true <-> size hd1 = size hd2 /\ format hd1 = format hd2.
Proof.
  unfold matchesFormat. now rewrite andb_true_iff, ImageSize_eqb_eq, Z.eqb_eq.
Qed.

(** X9. The ordering of sizes is a total order that agrees with equality:
    two sizes compare equal exactly when they are the same size, swapping the
    operands reverses the result, and "less" is transitive; it orders by
    width first, by height among sizes of one width. *)
Theorem ImageSize_compare_total_order (a b c : ImageSize) :
  (ImageSize_compare a b = Eq <-> ImageSize_eqb a b = true) /\
  (ImageSize_compare a b = Eq <-> a = b) /\
  ImageSize_compare b a = CompOpp (ImageSize_compare a b) /\
  (ImageSize_compare a b = Lt -> ImageSize_compare b c = Lt -> ImageSize_compare a c = Lt) /\
  (ImageSize_compare a b = Lt <->
     width a < width b \/ (width a = width b /\ height a < height b)).
Proof.
  assert (Heq : forall x y, ImageSize_compare x y = Eq <-> x = y).
  { intros [wx hx] [wy hy]. unfold ImageSize_compare. simpl.
    destruct (Z.compare_spec wx wy) as [-> | ? | ?].
    - rewrite Z.compare_eq_iff. split; [intros ->; reflexivity | intros [= ->]; reflexivity].
    - split; [discriminate | intros [= -> ->]; lia].
    - split; [discriminate | intros [= -> ->]; lia]. }
  assert (Hlt : forall x y, ImageSize_compare x y = Lt <->
            width x < width y \/ (width x = width y /\ height x < height y)).
  { intros x y. unfold ImageSize_compare.
    destruct (Z.compare_spec (width x) (width y)) as [Hw | Hw | Hw].
    - rewrite Z.compare_lt_iff. lia.
    - split; [intros _; now left | reflexivity].
    - split; [discriminate | lia]. }
  split; [rewrite ImageSize_eqb_eq; apply Heq|].
  split; [apply Heq|]. split; [|split; [|apply Hlt]].
  - unfold ImageSize_compare.
    rewrite (Z.compare_antisym (width a) (width b)), (Z.compare_antisym (height a) (height b)).
    now destruct (width a ?= width b).
  - rewrite !Hlt. lia.
Qed.

(** X10. Frames whose headers match, by [matchesFormat], convert alike:
    whenever both conversions are defined, their outputs have one length and
    their diagnostics are the same, whatever the pitch, the timestamp and the
    pixels of either frame. *)
Theorem matching_frames_convert_alike (f1 f2 : ImageFrame) (b1 b2 o1 o2 : list Z)
    (d1 d2 : list Diagnostic) :
  header_in_range (header f1) -> header_in_range (header f2) ->
  matchesFormat (header f1) (header f2) = true ->
  convertToRGB f1 b1 = Ok (o1, d1) ->
  convertToRGB f2 b2 = Ok (o2, d2) ->
  len o1 = len o2 /\ d1 = d2.
Proof.
  intros Hr1 Hr2 Hm Hc1 Hc2. apply matchesFormat_spec in Hm as (Hs & Hf).
  destruct (convert_ok_len f1 b1 o1 d1 Hr1 Hc1) as (_ & Hl1 & ->).
  destruct (convert_ok_len f2 b2 o2 d2 Hr2 Hc2) as (_ & Hl2 & ->).
  rewrite Hl1, Hl2, Hs, Hf. now split.
Qed.

Lemma matching_frames_convert_alike_witness :
  exists o1 o2 d,
    convertToRGB white_frame [] = Ok (o1, d) /\
    convertToRGB black_frame [9] = Ok (o2, d) /\
    len o1 = len o2.
Proof.
  destruct (matching_frames_convert_alike white_frame black_frame [] [9]
              [255; 255; 255; 255; 255; 255] [0; 0; 0; 0; 0; 0] [] [])
    as (Hlen & _).
  - repeat split; closed_arith.
  - repeat split; closed_arith.
  - reflexivity.
  - reflexivity.
  - reflexivity.
  - eexists _, _, _. split; [reflexivity|]. split; [reflexivity | exact Hlen].
Defined.

(** X11. [matchesFormat] is reflexive, symmetric and transitive, and blind to
    the timestamp and the pitch of either header. *)
Theorem matchesFormat_equivalence (hd1 hd2 hd3 : Header) (ts p : Z) :
  matchesFormat hd1 hd1 = true /\
  matchesFormat hd2 hd1 = matchesFormat hd1 hd2 /\
  (matchesFormat hd1 hd2 = true -> matchesFormat hd2 hd3 = true ->
   matchesFormat hd1 hd3 = true) /\
  matchesFormat (mkHeader ts p (size hd1) (format hd1)) hd2 = matchesFormat hd1 hd2.
Proof.
  split; [now apply matchesFormat_spec|]. split; [|split; [|reflexivity]].
  - unfold matchesFormat, ImageSize_eqb.
    now rewrite (Z.eqb_sym (width (size hd2))), (Z.eqb_sym (height (size hd2))),
      (Z.eqb_sym (format hd2)).
  - rewrite !matchesFormat_spec. intros [-> ->] [-> ->]. now split.
Qed.

(** * The display over a run of frames *)

(** ** One update *)

Lemma updateQuadForLetterbox_shape (fb : Z * Z) (s : Impl) :
  updateQuadForLetterbox fb s = [] \/
  exists d, updateQuadForLetterbox fb s
              = [GlBindBuffer (vbo s); GlBufferSubData 0 d; GlBindBuffer 0].
Proof.
  destruct fb as [ww wh]. unfold updateQuadForLetterbox.
  destruct ((ww =? 0) || (wh =? 0)); [now left | right].
  destruct (letterbox ww wh (image_aspect_ratio s)). eauto.
Qed.

Lemma omap_Stderr {A : Type} (f : Event -> option A) (diags : list Diagnostic) :
  (forall d, f (Stderr d) = None) -> omap f (map Stderr diags) = [].
Proof.
  intros Hf. induction diags as [|d diags IH]; [reflexivity|].
  simpl. now rewrite Hf.
Qed.

Lemma filter_Stderr (f : Event -> bool) (diags : list Diagnostic) :
  (forall d, f (Stderr d) = false) -> List.filter f (map Stderr diags) = [].
Proof.
  intros Hf. induction diags as [|d diags IH]; [reflexivity|].
  simpl. now rewrite Hf.
Qed.

(** The events of one update, whatever the frame: diagnostics, the texture
    upload, the render pass. *)
Lemma update_events (fb : Z * Z) (s s' : Impl) (frame : ImageFrame) (evs : list Event) :
  update fb s frame = Ok (s', evs) ->
  exists out diags,
    convertToRGB frame (rgb_buffer s) = Ok (out, diags) /\
    rgb_buffer s' = out /\
    handles s' = handles s /\
    current_frame_header s' = header frame /\
    image_aspect_ratio s' =
      (if has_pixels frame
       then f32_div (f32_of_int (width (size (header frame))))
                    (f32_of_int (height (size (header frame))))
       else image_aspect_ratio s) /\
    evs = map Stderr diags
          ++ uploadTexture s out (size (header frame))
          ++ render fb s'.
Proof.
  intros Hupd. unfold update in Hupd.
  destruct (convertToRGB frame (rgb_buffer s)) as [[out diags] | f]; [|discriminate].
  cbn [obind fst snd] in Hupd. injection Hupd as <- <-.
  exists out, diags. unfold has_pixels.
  destruct ((0 <? width (size (header frame))) && (0 <? height (size (header frame))));
    repeat split.
Qed.

(** X12. Every update uploads exactly one texture: the whole converted frame,
    [width * height * 3] bytes for the [width] and [height] it declares to
    OpenGL, which is also the buffer the display keeps. *)
Theorem update_uploads_whole_frame (fb : Z * Z) (s s' : Impl) (frame : ImageFrame)
    (evs : list Event) :
  header_in_range (header frame) ->
  update fb s frame = Ok (s', evs) ->
  texture_uploads evs
    = [(width (size (header frame)), height (size (header frame)), rgb_buffer s')] /\
  len (rgb_buffer s')
    = width (size (header frame)) * height (size (header frame)) * 3.
Proof.
  intros Hrange Hupd.
  destruct (update_events fb s s' frame evs Hupd)
    as (out & diags & Hconv & Hbuf & _ & _ & _ & ->).
  destruct (convert_ok_len frame (rgb_buffer s) out diags Hrange Hconv) as (_ & Hlen & _).
  rewrite Hbuf. split; [|assumption].
  unfold texture_uploads. rewrite omap_app, omap_Stderr by reflexivity.
  unfold render. simpl.
  destruct (updateQuadForLetterbox_shape fb s') as [-> | [d ->]]; reflexivity.
Qed.

Lemma update_uploads_whole_frame_witness :
  exists s' evs,
    update (1280, 720) Impl_initial white_frame = Ok (s', evs) /\
    texture_uploads evs = [(2, 1, rgb_buffer s')] /\
    len (rgb_buffer s') = 6.
Proof.
  destruct (update (1280, 720) Impl_initial white_frame) as [[s' evs] | f] eqn:Hupd.
  - exists s', evs. split; [reflexivity|].
    apply (update_uploads_whole_frame (1280, 720) Impl_initial s' white_frame evs).
    + repeat split; closed_arith.
    + exact Hupd.
  - vm_compute in Hupd. discriminate Hupd.
Defined.

(** ** Runs of updates *)

Lemma updates_app (s : Impl) (l1 l2 : list (Z * Z * ImageFrame)) :
  updates s (l1 ++ l2) =
    (r <~ updates s l1 ;; r' <~ updates (fst r) l2 ;; Ok (fst r', snd r ++ snd r')).
Proof.
  revert s. induction l1 as [|[fb frame] l1 IH]; intros s; simpl.
  - destruct (updates s l2) as [[s2 e2] | f]; reflexivity.
  - destruct (update fb s frame) as [[s1 e1] | f]; [|reflexivity]. cbn [obind fst snd].
    rewrite IH.
    destruct (updates s1 l1) as [[s1' e1'] | f]; [|reflexivity]. cbn [obind fst snd].
    destruct (updates s1' l2) as [[s2 e2] | f]; [|reflexivity]. cbn [obind fst snd].
    now rewrite app_assoc.
Qed.

Lemma render_releases (fb : Z * Z) (s : Impl) : releases (render fb s) = [].
Proof.
  unfold releases, render. simpl.
  destruct (updateQuadForLetterbox_shape fb s) as [-> | [d ->]]; reflexivity.
Qed.

Lemma render_draws (fb : Z * Z) (s : Impl) :
  List.filter is_draw (render fb s) = [GlDrawArrays 0 4] /\
  List.filter is_swap (render fb s) = [GlfwSwapBuffers (window s)].
Proof.
  unfold render. simpl.
  destruct (updateQuadForLetterbox_shape fb s) as [-> | [d ->]]; now split.
Qed.

Lemma cleanup_releases (s : Impl) :
  releases (snd (cleanup s)) = filter (fun id => id <> 0) (handles s).
Proof.
  unfold cleanup, handles, releases. simpl.
  destruct (Z.eqb_spec (texture_id s) 0) as [-> | ?];
  destruct (Z.eqb_spec (vao s) 0) as [-> | ?];
  destruct (Z.eqb_spec (vbo s) 0) as [-> | ?];
  destruct (Z.eqb_spec (shader_program s) 0) as [-> | ?];
  destruct (Z.eqb_spec (window s) 0) as [-> | ?];
  simpl; repeat (rewrite filter_cons; case_decide; try contradiction);
  reflexivity.
Qed.

Lemma updates_preserve (s s' : Impl) (frames : list (Z * Z * ImageFrame))
    (evs : list Event) :
  updates s frames = Ok (s', evs) ->
  handles s' = handles s /\ releases evs = [].
Proof.
  revert s evs. induction frames as [|[fb frame] rest IH]; intros s evs Hrun.
  - injection Hrun as <- <-. now split.
  - simpl in Hrun.
    destruct (update fb s frame) as [[s1 e1] | f] eqn:Hupd; [|discriminate].
    cbn [obind fst snd] in Hrun.
    destruct (updates s1 rest) as [[s2 e2] | f] eqn:Hrest; [|discriminate].
    cbn [obind fst snd] in Hrun. injection Hrun as <- <-.
    destruct (IH s1 e2 Hrest) as (Hh2 & Hr2).
    destruct (update_events fb s s1 frame e1 Hupd)
      as (out & diags & _ & _ & Hh1 & _ & _ & ->).
    split; [congruence|].
    unfold releases in *. rewrite !omap_app, Hr2, omap_Stderr by reflexivity.
    fold (releases (render fb s1)). now rewrite render_releases.
Qed.

(** X13. Updates never release a resource and never change a handle: after
    any run of updates the instance holds the handles it started with, no
    event of the run is a release, and the teardown releases exactly what it
    would have released before the first frame. *)
Theorem updates_keep_handles (s s' : Impl) (frames : list (Z * Z * ImageFrame))
    (evs : list Event) :
  updates s frames = Ok (s', evs) ->
  handles s' = handles s /\
  releases evs = [] /\
  releases (snd (cleanup s')) = releases (snd (cleanup s)).
Proof.
  intros Hrun. destruct (updates_preserve s s' frames evs Hrun) as (Hh & Hr).
  split; [assumption|]. split; [assumption|].
  now rewrite !cleanup_releases, Hh.
Qed.

Lemma updates_keep_handles_witness :
  exists s' evs,
    updates showing_4_3 two_frames = Ok (s', evs) /\
    handles s' = handles showing_4_3 /\
    releases evs = [].
Proof.
  destruct (updates showing_4_3 two_frames) as [[s' evs] | f] eqn:Hrun.
  - exists s', evs. split; [reflexivity|].
    destruct (updates_keep_handles showing_4_3 s' two_frames evs Hrun) as (Hh & Hr & _).
    split; assumption.
  - vm_compute in Hrun. discriminate Hrun.
Defined.

(** X14. A run of updates draws once and swaps buffers once per frame, on the
    window of the instance, and uploads one texture per frame. *)
Theorem updates_draw_once_per_frame (s s' : Impl) (frames : list (Z * Z * ImageFrame))
    (evs : list Event) :
  updates s frames = Ok (s', evs) ->
  List.filter is_draw evs = repeat (GlDrawArrays 0 4) (length frames) /\
  List.filter is_swap evs = repeat (GlfwSwapBuffers (window s)) (length frames) /\
  length (texture_uploads evs) = length frames.
Proof.
  revert s evs. induction frames as [|[fb frame] rest IH]; intros s evs Hrun.
  - injection Hrun as <- <-. repeat split.
  - simpl in Hrun.
    destruct (update fb s frame) as [[s1 e1] | f] eqn:Hupd; [|discriminate].
    cbn [obind fst snd] in Hrun.
    destruct (updates s1 rest) as [[s2 e2] | f] eqn:Hrest; [|discriminate].
    cbn [obind fst snd] in Hrun. injection Hrun as <- <-.
    destruct (IH s1 e2 Hrest) as (Hd & Hs & Hu).
    destruct (update_events fb s s1 frame e1 Hupd)
      as (out & diags & _ & _ & Hh1 & _ & _ & ->).
    assert (Hwin : window s1 = window s) by (unfold handles in Hh1; congruence).
    destruct (render_draws fb s1) as (Hrd & Hrs).
    rewrite !List.filter_app, Hd, Hs, Hrd, Hrs, !filter_Stderr, Hwin by reflexivity.
    unfold texture_uploads in *. rewrite !omap_app, omap_Stderr by reflexivity.
    rewrite !length_app, Hu. simpl.
    repeat split.
    unfold render. simpl.
    destruct (updateQuadForLetterbox_shape fb s1) as [-> | [d ->]]; reflexivity.
Qed.

Lemma updates_draw_once_per_frame_witness :
  exists s' evs,
    updates showing_4_3 two_frames = Ok (s', evs) /\
    List.filter is_draw evs = [GlDrawArrays 0 4; GlDrawArrays 0 4] /\
    List.filter is_swap evs = [GlfwSwapBuffers 1; GlfwSwapBuffers 1].
Proof.
  destruct (updates showing_4_3 two_frames) as [[s' evs] | f] eqn:Hrun.
  - exists s', evs. split; [reflexivity|].
    destruct (updates_draw_once_per_frame showing_4_3 s' two_frames evs Hrun)
      as (Hd & Hs & _).
    split; assumption.
  - vm_compute in Hrun. discriminate Hrun.
Defined.

Lemma updates_cons (s s' : Impl) (fb : Z * Z) (frame : ImageFrame)
    (rest : list (Z * Z * ImageFrame)) (evs : list Event) :
  updates s ((fb, frame) :: rest) = Ok (s', evs) ->
  exists s1 e1 e2,
    update fb s frame = Ok (s1, e1) /\ updates s1 rest = Ok (s', e2) /\ evs = e1 ++ e2.
Proof.
  simpl. intros Hrun.
  destruct (update fb s frame) as [[s1 e1] | f]; [|discriminate].
  cbn [obind fst snd] in Hrun.
  destruct (updates s1 rest) as [[s2 e2] | f] eqn:Hrest; [|discriminate].
  cbn [obind fst snd] in Hrun. injection Hrun as <- <-.
  exists s1, e1, e2. now repeat split.
Qed.

Lemma last_cons_default {A : Type} (x : A) (l : list A) (d d' : A) :
  List.last (x :: l) d = List.last (x :: l) d'.
Proof.
  revert x. induction l as [|y l IH]; intros x; [reflexivity|].
  change (List.last (y :: l) d = List.last (y :: l) d'). apply IH.
Qed.

Lemma updates_state (s s' : Impl) (frames : list (Z * Z * ImageFrame)) (evs : list Event) :
  updates s frames = Ok (s', evs) ->
  current_frame_header s'
    = List.last (map (fun x => header (snd x)) frames) (current_frame_header s) /\
  (Forall (fun x => has_pixels (snd x) = false) frames ->
   image_aspect_ratio s' = image_aspect_ratio s).
Proof.
  revert s evs. induction frames as [|[fb frame] rest IH]; intros s evs Hrun.
  - injection Hrun as <- _. now split.
  - apply updates_cons in Hrun as (s1 & e1 & e2 & Hupd & Hrest & _).
    destruct (IH s1 e2 Hrest) as (Hhd & Hratio).
    destruct (update_events fb s s1 frame e1 Hupd)
      as (out & diags & _ & _ & _ & Hh1 & Hr1 & _).
    split.
    + rewrite Hhd, Hh1. destruct rest as [|x rest]; [reflexivity|].
      exact (last_cons_default (header (snd x)) (map (fun x => header (snd x)) rest) _ _).
    + intros Hall. inversion Hall as [|x l Hx Hl]; subst.
      cbn [snd] in Hx. rewrite Hx in Hr1. rewrite (Hratio Hl). assumption.
Qed.

(** X15. A display shows the shape of the last frame that had one: after any
    run of updates, the aspect ratio it holds is that of the last frame with a
    non-zero width and height, however many empty frames came after it, and
    the header it holds is that of the last frame of all. *)
Theorem updates_keep_last_shape (s s' : Impl) (pre post : list (Z * Z * ImageFrame))
    (fb : Z * Z) (frame : ImageFrame) (evs : list Event) :
  updates s (pre ++ (fb, frame) :: post) = Ok (s', evs) ->
  has_pixels frame = true ->
  Forall (fun x => has_pixels (snd x) = false) post ->
  image_aspect_ratio s'
    = f32_div (f32_of_int (width (size (header frame))))
              (f32_of_int (height (size (header frame)))) /\
  current_frame_header s'
    = List.last (map (fun x => header (snd x)) post) (header frame).
Proof.
  intros Hrun Hpix Hpost. rewrite updates_app in Hrun.
  destruct (updates s pre) as [[s0 e0] | f]; [|discriminate].
  cbn [obind fst snd] in Hrun.
  destruct (updates s0 ((fb, frame) :: post)) as [[s2 e2] | f] eqn:Hrest; [|discriminate].
  cbn [obind fst snd] in Hrun. injection Hrun as <- _.
  apply updates_cons in Hrest as (s1 & e1 & e3 & Hupd & Hrest & _).
  destruct (update_events fb s0 s1 frame e1 Hupd)
    as (out & diags & _ & _ & _ & Hh1 & Hr1 & _).
  destruct (updates_state s1 s2 post e3 Hrest) as (Hhd & Hratio).
  rewrite Hpix in Hr1. rewrite (Hratio Hpost), Hhd, Hh1, Hr1. now split.
Qed.

Lemma updates_keep_last_shape_witness :
  exists s' evs,
    updates showing_4_3 two_frames = Ok (s', evs) /\
    image_aspect_ratio s' = f32_div (f32_of_int 2) (f32_of_int 1) /\
    current_frame_header s' = header empty_rgb_frame.
Proof.
  destruct (updates showing_4_3 two_frames) as [[s' evs] | f] eqn:Hrun.
  - exists s', evs. split; [reflexivity|].
    apply (updates_keep_last_shape showing_4_3 s' [] [((1280, 720), empty_rgb_frame)]
             (1280, 720) white_frame evs).
    + exact Hrun.
    + reflexivity.
    + constructor; [reflexivity | constructor].
  - vm_compute in Hrun. discriminate Hrun.
Defined.

(** ** What an update shows *)








(** * The letterbox and the shape of the window

    The quotient of two converted integers is the binary32 number nearest
    to their exact quotient; this makes the comparison of the two aspect
    ratios agree with their order as fractions. *)

(** ** Exact conversions and quotients of integers *)

Lemma digits_exist (z : Z) :
  1 <= z < 2 ^ 24 -> exists d, 1 <= d <= 24 /\ 2 ^ (d - 1) <= z < 2 ^ d.
Proof.
  intros Hz. destruct z as [|p|p]; try lia.
  pose proof (digits2_pos_bounds p) as Hd.
  exists (Z.pos (digits2_pos p)). split; [|assumption].
  split; [lia|]. apply Z.nlt_ge. intros Hlt.
  assert (2 ^ 24 <= 2 ^ (Z.pos (digits2_pos p) - 1)) by (apply Z.pow_le_mono_r; lia).
  lia.
Qed.

(** An integer of at most 24 digits converts without rounding. *)
Lemma f32_of_int_exact (z d : Z) :
  1 <= d <= 24 -> 2 ^ (d - 1) <= z < 2 ^ d ->
  f32_of_int z = S754_finite false (Z.to_pos (z * 2 ^ (24 - d))) (d - 24).
Proof.
  intros Hd Hz.
  assert (Hz0 : 0 < z) by (pose proof (Z.pow_pos_nonneg 2 (d - 1)); lia).
  destruct z as [|p|p]; try lia.
  unfold f32_of_int, binary_normalize, binary_round.
  assert (Hdig : Z.pos (digits2_pos p) = d).
  { apply (Zdigits2_unique (Z.pos p) d); lia. }
  rewrite Hdig.
  rewrite fexp32. replace (Z.max (d + 0 - 24) (-149)) with (d - 24) by lia.
  unfold shl_align.
  destruct (d - 24 - 0) as [|k|k] eqn:Hk.
  - assert (d = 24) as -> by lia.
    rewrite binary_round_aux_24 by lia. cbn [round_nearest_even].
    unfold finish. destruct (Z.ltb_spec (Z.pos p) (2 ^ 24)); [|lia].
    change (2 ^ (24 - 24)) with 1. rewrite Z.mul_1_r. reflexivity.
  - lia.
  - assert (Hpow : 2 ^ 23 = 2 ^ (d - 1) * 2 ^ Z.pos k /\ 2 ^ 24 = 2 ^ d * 2 ^ Z.pos k).
    { rewrite <- !Z.pow_add_r by lia. split; f_equal; lia. }
    assert (Hm : 2 ^ 23 <= Z.pos (Pos.iter xO p k) < 2 ^ 24).
    { rewrite iter_xO. pose proof (Z.pow_pos_nonneg 2 (Z.pos k)). nia. }
    rewrite binary_round_aux_24 by lia. cbn [round_nearest_even].
    unfold finish. destruct (Z.ltb_spec (Z.pos (Pos.iter xO p k)) (2 ^ 24)); [|lia].
    rewrite iter_xO. replace (24 - d) with (Z.pos k) by lia.
    f_equal; lia.
Qed.

Lemma remainder_location_scale (k n r : Z) :
  0 < k -> remainder_location (n * k) (r * k) = remainder_location n r.
Proof.
  intros Hk. unfold remainder_location.
  destruct (Z.eqb_spec r 0) as [-> | Hr]; [reflexivity|].
  destruct (Z.eqb_spec (r * k) 0); [nia|]. f_equal.
  replace (2 * (r * k)) with (2 * r * k) by lia.
  symmetry. apply Zmult_compare_compat_r. lia.
Qed.

(** The location of a remainder after one more digit of the quotient is
    dropped. *)
Lemma halve_location (x b : Z) :
  0 < b -> b <= 2 * x ->
  loc_of_shr_record (shr_1 (shr_record_of_loc (2 * x / b)
                              (remainder_location b ((2 * x) mod b))))
    = remainder_location b (x mod b) /\
  2 * x / b / 2 = x / b.
Proof.
  intros Hb Hx.
  assert (Hdiv : 2 * x / b / 2 = x / b).
  { rewrite Z.div_div by lia. rewrite (Z.mul_comm b 2).
    apply Z.div_mul_cancel_l; lia. }
  split; [|assumption].
  pose proof (Z.div_mod (2 * x) b ltac:(lia)) as H2.
  pose proof (Z.mod_pos_bound (2 * x) b Hb) as Hr2.
  pose proof (Z.div_mod x b ltac:(lia)) as H1.
  pose proof (Z.mod_pos_bound x b Hb) as Hr1.
  set (q := 2 * x / b) in *. set (r := (2 * x) mod b) in *.
  set (q' := x / b) in *. set (r' := x mod b) in *.
  assert (Hq : 0 < q) by (apply Z.div_str_pos; lia).
  assert (Hq2 : q = 2 * q' + (if Z.odd q then 1 else 0)).
  { rewrite <- Hdiv. rewrite (Z.div_mod q 2) at 1 by lia. f_equal.
    rewrite Zmod_odd. reflexivity. }
  unfold remainder_location.
  destruct (Z.eqb_spec r 0) as [Hr0 | Hr0];
    [|destruct (Z.compare_spec (2 * r) b)]; cbn [shr_record_of_loc];
    rewrite shr_1_spec by lia; cbn [loc_of_shr_record orb];
    destruct (Z.odd q); cbn [loc_of_shr_record];
    destruct (Z.eqb_spec r' 0); try nia;
    try (destruct (Z.compare_spec (2 * r') b); try reflexivity; nia).
Qed.

Lemma binade_unique (a b T1 T2 : Z) :
  0 < a -> 0 <= T1 -> 0 <= T2 ->
  2 ^ 23 * b <= a * 2 ^ T1 < 2 ^ 24 * b ->
  2 ^ 23 * b <= a * 2 ^ T2 < 2 ^ 24 * b ->
  T1 = T2.
Proof.
  assert (Hlt : forall U V, 0 <= U -> U < V ->
            2 ^ 23 * b <= a * 2 ^ U -> a * 2 ^ V < 2 ^ 24 * b -> 0 < a -> False).
  { intros U V HU HUV H1 H2 Ha.
    assert (Hpow : 2 * 2 ^ U <= 2 ^ V).
    { rewrite <- Z.pow_succ_r by lia. apply Z.pow_le_mono_r; lia. }
    nia. }
  intros Ha H1 H2 [A1 B1] [A2 B2].
  destruct (Z.lt_trichotomy T1 T2) as [H | [H | H]]; [|assumption|]; exfalso; eauto.
Qed.

(** The quotient of two converted integers of at most 24 digits is the
    binary32 number nearest to their exact quotient. *)
Lemma f32_div_ints (a b T : Z) :
  1 <= a < 2 ^ 24 -> 1 <= b < 2 ^ 24 -> 0 <= T ->
  2 ^ 23 * b <= a * 2 ^ T < 2 ^ 24 * b ->
  f32_div (f32_of_int a) (f32_of_int b) = nearest_ratio a b T.
Proof.
  intros Ha Hb HT Hbin.
  destruct (digits_exist a Ha) as (da & Hda & Ha').
  destruct (digits_exist b Hb) as (db & Hdb & Hb').
  rewrite (f32_of_int_exact a da), (f32_of_int_exact b db) by assumption.
  set (t := 24 + db - da).
  set (c := 2 ^ (24 - db)).
  assert (Hc : 0 < c) by (apply Z.pow_pos_nonneg; lia).
  assert (Hpa : 2 ^ (da - 1) * 2 ^ (24 - da) = 2 ^ 23 /\ 2 ^ da * 2 ^ (24 - da) = 2 ^ 24).
  { rewrite <- !Z.pow_add_r by lia. split; f_equal; lia. }
  assert (Hpb : 2 ^ (db - 1) * c = 2 ^ 23 /\ 2 ^ db * c = 2 ^ 24).
  { unfold c. rewrite <- !Z.pow_add_r by lia. split; f_equal; lia. }
  assert (Hca : 0 < 2 ^ (24 - da)) by (apply Z.pow_pos_nonneg; lia).
  assert (Hmx : 2 ^ 23 <= a * 2 ^ (24 - da) < 2 ^ 24) by nia.
  assert (Hmy : 2 ^ 23 <= b * c < 2 ^ 24) by nia.
  fold c.
  set (mx := Z.to_pos (a * 2 ^ (24 - da))). set (my := Z.to_pos (b * c)).
  assert (Emx : Z.pos mx = a * 2 ^ (24 - da)) by (unfold mx; rewrite Z2Pos.id; lia).
  assert (Emy : Z.pos my = b * c) by (unfold my; rewrite Z2Pos.id; lia).
  unfold f32_div, SFdiv.
  rewrite div_core_normal by lia. cbn [xorb].
  assert (Enum : Z.pos mx * 2 ^ 24 = a * 2 ^ t * c).
  { rewrite Emx. unfold c, t. rewrite <- !Z.mul_assoc, <- !Z.pow_add_r by lia.
    do 2 f_equal. lia. }
  rewrite Enum, Emy.
  rewrite Z.div_mul_cancel_r, Z.mul_mod_distr_r by lia.
  assert (Hrem : 0 <= (a * 2 ^ t) mod b < b) by (apply Z.mod_pos_bound; lia).
  rewrite new_location_spec by nia.
  change (if (a * 2 ^ t) mod b * c =? 0 then loc_Exact
          else loc_Inexact (2 * ((a * 2 ^ t) mod b * c) ?= b * c))
    with (remainder_location (b * c) ((a * 2 ^ t) mod b * c)).
  rewrite remainder_location_scale by assumption.
  assert (Ht : 1 <= t <= 47) by (unfold t; lia).
  assert (Hpt : 2 ^ (da - 1) * 2 ^ t = 2 ^ 24 * 2 ^ (db - 1) /\
                2 ^ da * 2 ^ t = 2 ^ 25 * 2 ^ (db - 1)).
  { rewrite <- !Z.pow_add_r by lia. split; f_equal; unfold t; lia. }
  assert (Hdb1 : 2 * 2 ^ (db - 1) = 2 ^ db).
  { rewrite <- Z.pow_succ_r by lia. f_equal. lia. }
  assert (H2t : 0 < 2 ^ t) by (apply Z.pow_pos_nonneg; lia).
  assert (Hnum : 2 ^ 23 * b <= a * 2 ^ t < 2 ^ 25 * b) by nia.
  assert (Hq : 2 ^ 23 <= a * 2 ^ t / b < 2 ^ 25).
  { split; [apply Z.div_le_lower_bound | apply Z.div_lt_upper_bound]; lia. }
  unfold nearest_ratio.
  destruct (Z.lt_ge_cases (a * 2 ^ t / b) (2 ^ 24)) as [Hq24 | Hq25].
  - assert (T = t) as ->.
    { apply (binade_unique a b); try lia. split; [lia|].
      apply Z.nle_gt. intros Hle.
      assert (2 ^ 24 <= a * 2 ^ t / b) by (apply Z.div_le_lower_bound; lia). lia. }
    rewrite binary_round_aux_24 by lia.
    f_equal. unfold t. lia.
  - assert (H2t1 : 2 ^ t = 2 * 2 ^ (t - 1)).
    { rewrite <- Z.pow_succ_r by lia. f_equal. lia. }
    assert (Hge : 2 ^ 24 * b <= a * 2 ^ t).
    { apply Z.nlt_ge. intros Hlt.
      assert (a * 2 ^ t / b < 2 ^ 24) by (apply Z.div_lt_upper_bound; lia). lia. }
    assert (Hx : a * 2 ^ t = 2 * (a * 2 ^ (t - 1))) by (rewrite H2t1; ring).
    assert (T = t - 1) as ->.
    { apply (binade_unique a b); try lia. }
    rewrite binary_round_aux_25 by lia.
    rewrite Hx.
    destruct (halve_location (a * 2 ^ (t - 1)) b) as [-> ->]; [lia | lia |].
    f_equal. unfold t. lia.
Qed.

Lemma binade_exists (a b : Z) :
  1 <= a < 2 ^ 24 -> 1 <= b < 2 ^ 24 ->
  exists T, 0 <= T /\ 2 ^ 23 * b <= a * 2 ^ T < 2 ^ 24 * b.
Proof.
  intros Ha Hb.
  destruct (digits_exist a Ha) as (da & Hda & Ha').
  destruct (digits_exist b Hb) as (db & Hdb & Hb').
  set (t := 24 + db - da).
  assert (Ht : 1 <= t <= 47) by (unfold t; lia).
  assert (Hpt : 2 ^ (da - 1) * 2 ^ t = 2 ^ 24 * 2 ^ (db - 1) /\
                2 ^ da * 2 ^ t = 2 ^ 25 * 2 ^ (db - 1)).
  { rewrite <- !Z.pow_add_r by lia. split; f_equal; unfold t; lia. }
  assert (Hdb1 : 2 * 2 ^ (db - 1) = 2 ^ db).
  { rewrite <- Z.pow_succ_r by lia. f_equal. lia. }
  assert (H2t : 0 < 2 ^ t) by (apply Z.pow_pos_nonneg; lia).
  assert (Hnum : 2 ^ 23 * b <= a * 2 ^ t < 2 ^ 25 * b) by nia.
  destruct (Z.lt_ge_cases (a * 2 ^ t) (2 ^ 24 * b)) as [Hlt | Hge].
  - exists t. lia.
  - assert (H2t1 : 2 ^ t = 2 * 2 ^ (t - 1)).
    { rewrite <- Z.pow_succ_r by lia. f_equal. lia. }
    assert (Hx : a * 2 ^ t = 2 * (a * 2 ^ (t - 1))) by (rewrite H2t1; ring).
    exists (t - 1). lia.
Qed.

(** The nearest binary32 number depends on the quotient only. *)
Lemma nearest_ratio_scale (k a b T : Z) :
  0 < k -> 0 < b -> nearest_ratio (k * a) (k * b) T = nearest_ratio a b T.
Proof.
  intros Hk Hb. unfold nearest_ratio.
  rewrite <- Z.mul_assoc.
  rewrite Z.div_mul_cancel_l, Z.mul_mod_distr_l by lia.
  rewrite (Z.mul_comm k b), (Z.mul_comm k ((a * 2 ^ T) mod b)).
  now rewrite remainder_location_scale.
Qed.

Lemma f32_div_ints_same_ratio (a b a' b' : Z) :
  1 <= a < 2 ^ 24 -> 1 <= b < 2 ^ 24 -> 1 <= a' < 2 ^ 24 -> 1 <= b' < 2 ^ 24 ->
  a * b' = a' * b ->
  f32_div (f32_of_int a) (f32_of_int b) = f32_div (f32_of_int a') (f32_of_int b').
Proof.
  intros Ha Hb Ha' Hb' Heq.
  destruct (binade_exists a b Ha Hb) as (T & HT & Hbin).
  assert (H2T : 0 < 2 ^ T) by (apply Z.pow_pos_nonneg; lia).
  assert (Hbin' : 2 ^ 23 * b' <= a' * 2 ^ T < 2 ^ 24 * b').
  { set (P := 2 ^ T) in *. split.
    - apply (Z.mul_le_mono_pos_r _ _ b); [lia|].
      replace (a' * P * b) with (a * P * b') by (rewrite <- !Z.mul_assoc, (Z.mul_comm P b), (Z.mul_comm P b'), !Z.mul_assoc, Heq; reflexivity).
      nia.
    - apply (Z.mul_lt_mono_pos_r b); [lia|].
      replace (a' * P * b) with (a * P * b') by (rewrite <- !Z.mul_assoc, (Z.mul_comm P b), (Z.mul_comm P b'), !Z.mul_assoc, Heq; reflexivity).
      nia. }
  rewrite (f32_div_ints a b T), (f32_div_ints a' b' T) by assumption.
  rewrite <- (nearest_ratio_scale b' a b T), <- (nearest_ratio_scale b a' b' T) by lia.
  now rewrite (Z.mul_comm b' a), Heq, (Z.mul_comm a' b), (Z.mul_comm b' b).
Qed.

(** ** Rounding is monotone *)

Lemma finish_not_lt (m1 e1 m2 e2 : Z) :
  2 ^ 23 <= m1 <= 2 ^ 24 -> 2 ^ 23 <= m2 <= 2 ^ 24 ->
  e1 < e2 \/ (e1 = e2 /\ m1 <= m2) ->
  SFltb (finish m2 e2) (finish m1 e1) = false.
Proof.
  intros H1 H2 Hle. unfold finish.
  destruct (Z.ltb_spec m1 (2 ^ 24)); destruct (Z.ltb_spec m2 (2 ^ 24));
    match goal with
    | |- ?c = false => destruct c eqn:E; [|reflexivity]
    end;
    apply SFltb_finite in E; rewrite ?Z2Pos.id in E by lia; lia.
Qed.

Lemma round_mono (x1 b1 x2 b2 : Z) :
  0 < b1 -> 0 < b2 -> 0 <= x1 -> 0 <= x2 ->
  x1 * b2 <= x2 * b1 ->
  round_nearest_even (x1 / b1) (remainder_location b1 (x1 mod b1))
    <= round_nearest_even (x2 / b2) (remainder_location b2 (x2 mod b2)).
Proof.
  intros Hb1 Hb2 Hx1 Hx2 Hle.
  pose proof (Z.div_mod x1 b1 ltac:(lia)) as E1.
  pose proof (Z.mod_pos_bound x1 b1 Hb1) as R1.
  pose proof (Z.div_mod x2 b2 ltac:(lia)) as E2.
  pose proof (Z.mod_pos_bound x2 b2 Hb2) as R2.
  set (q1 := x1 / b1) in *. set (r1 := x1 mod b1) in *.
  set (q2 := x2 / b2) in *. set (r2 := x2 mod b2) in *.
  assert (Hq : q1 <= q2).
  { unfold q2. apply Z.div_le_lower_bound; [lia|].
    apply (Z.mul_le_mono_pos_r _ _ b1); [lia|]. nia. }
  destruct (Z.eq_dec q1 q2) as [Heq | Hne].
  - rewrite <- Heq in *. clear Heq.
    assert (Hr : r1 * b2 <= r2 * b1) by nia.
    unfold remainder_location.
    destruct (Z.eqb_spec r1 0); destruct (Z.eqb_spec r2 0);
      try (destruct (Z.compare_spec (2 * r1) b1));
      try (destruct (Z.compare_spec (2 * r2) b2));
      cbn [round_nearest_even]; try (destruct (Z.even q1)); try lia; nia.
  - destruct (round_nearest_even_cases q1 (remainder_location b1 r1)) as [-> | ->];
      destruct (round_nearest_even_cases q2 (remainder_location b2 r2)) as [-> | ->]; lia.
Qed.

Lemma nearest_ratio_mono (a1 b1 T1 a2 b2 T2 : Z) :
  0 < a1 -> 0 < b1 -> 0 < a2 -> 0 < b2 -> 0 <= T1 -> 0 <= T2 ->
  2 ^ 23 * b1 <= a1 * 2 ^ T1 < 2 ^ 24 * b1 ->
  2 ^ 23 * b2 <= a2 * 2 ^ T2 < 2 ^ 24 * b2 ->
  a1 * b2 <= a2 * b1 ->
  SFltb (nearest_ratio a2 b2 T2) (nearest_ratio a1 b1 T1) = false.
Proof.
  intros Ha1 Hb1 Ha2 Hb2 HT1 HT2 Hbin1 Hbin2 Hle.
  assert (H2T1 : 0 < 2 ^ T1) by (apply Z.pow_pos_nonneg; lia).
  assert (H2T2 : 0 < 2 ^ T2) by (apply Z.pow_pos_nonneg; lia).
  assert (Hq1 : 2 ^ 23 <= a1 * 2 ^ T1 / b1 < 2 ^ 24).
  { split; [apply Z.div_le_lower_bound | apply Z.div_lt_upper_bound]; lia. }
  assert (Hq2 : 2 ^ 23 <= a2 * 2 ^ T2 / b2 < 2 ^ 24).
  { split; [apply Z.div_le_lower_bound | apply Z.div_lt_upper_bound]; lia. }
  unfold nearest_ratio.
  apply finish_not_lt.
  - destruct (round_nearest_even_cases (a1 * 2 ^ T1 / b1)
                (remainder_location b1 ((a1 * 2 ^ T1) mod b1))) as [-> | ->]; lia.
  - destruct (round_nearest_even_cases (a2 * 2 ^ T2 / b2)
                (remainder_location b2 ((a2 * 2 ^ T2) mod b2))) as [-> | ->]; lia.
  - destruct (Z.lt_trichotomy T1 T2) as [Hlt | [Heq | Hgt]].
    + exfalso.
      assert (Hpow : 2 * 2 ^ T1 <= 2 ^ T2).
      { rewrite <- Z.pow_succ_r by lia. apply Z.pow_le_mono_r; lia. }
      set (P1 := 2 ^ T1) in *. set (P2 := 2 ^ T2) in *.
      assert (H1 : 2 ^ 24 * b1 * b2 <= a1 * P2 * b2) by nia.
      assert (H2 : a1 * b2 * P2 <= a2 * b1 * P2) by nia.
      assert (H3 : a2 * P2 * b1 < 2 ^ 24 * b2 * b1) by nia.
      lia.
    + right. split; [lia|]. rewrite Heq in *.
      apply round_mono; try lia. set (P2 := 2 ^ T2) in *. nia.
    + left. lia.
Qed.

(** ** Where the bars go *)

Lemma normal32_eq (elo ehi elo' ehi' : Z) (x y : float32) :
  normal32 elo ehi x -> normal32 elo' ehi' y ->
  SFltb x y = false -> SFltb y x = false -> x = y.
Proof.
  intros (mx & ex & -> & Hmx & _) (my & ey & -> & Hmy & _) Hxy Hyx.
  assert (N1 : ~ (ex < ey \/ (ex = ey /\ Z.pos mx < Z.pos my))).
  { intros H. apply SFltb_finite in H. congruence. }
  assert (N2 : ~ (ey < ex \/ (ey = ex /\ Z.pos my < Z.pos mx))).
  { intros H. apply SFltb_finite in H. congruence. }
  assert (ex = ey) as -> by lia.
  assert (mx = my) as -> by lia.
  reflexivity.
Qed.

Lemma f32_div_ints_mono (a1 b1 a2 b2 : Z) :
  1 <= a1 < 2 ^ 24 -> 1 <= b1 < 2 ^ 24 -> 1 <= a2 < 2 ^ 24 -> 1 <= b2 < 2 ^ 24 ->
  a1 * b2 <= a2 * b1 ->
  SFltb (f32_div (f32_of_int a2) (f32_of_int b2))
        (f32_div (f32_of_int a1) (f32_of_int b1)) = false.
Proof.
  intros Ha1 Hb1 Ha2 Hb2 Hle.
  destruct (binade_exists a1 b1 Ha1 Hb1) as (T1 & HT1 & Hbin1).
  destruct (binade_exists a2 b2 Ha2 Hb2) as (T2 & HT2 & Hbin2).
  rewrite (f32_div_ints a1 b1 T1), (f32_div_ints a2 b2 T2) by assumption.
  apply nearest_ratio_mono; assumption || lia.
Qed.

(** X17. The bars are on the right sides. For a framebuffer of [W x H] pixels
    and frames of [w x h] pixels: when the window is at least as wide as the
    image ([w / h <= W / H], compared exactly), the quad has the full height
    of the window, so that bars appear only at the left and the right; when it
    is at most as wide, the quad has the full width; when the shapes agree,
    the image fills the window. Rounding never turns the quad the wrong way. *)
Theorem letterbox_bars (W H w h : Z) :
  1 <= W < 2 ^ 24 -> 1 <= H < 2 ^ 24 ->
  1 <= w <= UINT16_MAX -> 1 <= h <= UINT16_MAX ->
  let ia := f32_div (f32_of_int w) (f32_of_int h) in
  (w * H <= W * h -> snd (letterbox W H ia) = f32_one) /\
  (W * h <= w * H -> fst (letterbox W H ia) = f32_one) /\
  (W * h = w * H -> letterbox W H ia = (f32_one, f32_one)).
Proof.
  intros HW HH Hw Hh ia. unfold UINT16_MAX in *.
  set (wa := f32_div (f32_of_int W) (f32_of_int H)).
  assert (Hwide : w * H <= W * h -> snd (letterbox W H ia) = f32_one).
  { intros Hle. unfold letterbox. fold wa. unfold f32_gt.
    destruct (SFltb ia wa) eqn:Hgt; [reflexivity|]. cbn [snd].
    assert (Hlt : SFltb wa ia = false) by (apply f32_div_ints_mono; lia).
    assert (Heq : wa = ia).
    { apply (normal32_eq (-55) 9 (-55) 9); try assumption;
        apply quotient_of_ints_normal; unfold INT_MAX; lia. }
    rewrite Heq.
    destruct (quotient_of_ints_normal w h) as (m & e & Hia & Hm & _);
      [unfold INT_MAX; lia | unfold INT_MAX; lia |].
    fold ia in Hia. rewrite Hia. now apply f32_div_same. }
  assert (Htall : W * h <= w * H -> fst (letterbox W H ia) = f32_one).
  { intros Hle. unfold letterbox. fold wa. unfold f32_gt.
    assert (Hlt : SFltb ia wa = false) by (apply f32_div_ints_mono; lia).
    now rewrite Hlt. }
  split; [assumption|]. split; [assumption|].
  intros Heq. specialize (Hwide ltac:(lia)). specialize (Htall ltac:(lia)).
  destruct (letterbox W H ia) as [qw qh]. simpl in *. congruence.
Qed.

Lemma letterbox_bars_witness :
  snd (letterbox 1920 1080 (f32_div (f32_of_int 640) (f32_of_int 480))) = f32_one /\
  fst (letterbox 480 640 (f32_div (f32_of_int 640) (f32_of_int 480))) = f32_one.
Proof.
  split.
  - destruct (letterbox_bars 1920 1080 640 480) as (Hwide & _);
      [split; closed_arith | split; closed_arith | split; closed_arith
      | split; closed_arith |].
    apply Hwide. closed_arith.
  - destruct (letterbox_bars 480 640 640 480) as (_ & Htall & _);
      [split; closed_arith | split; closed_arith | split; closed_arith
      | split; closed_arith |].
    apply Htall. closed_arith.
Defined.

(** A window whose aspect ratio is the image's, as [float]s. *)
Lemma letterbox_same_ratio (W H : Z) (ia : float32) :
  normal32 (-55) 9 ia ->
  f32_div (f32_of_int W) (f32_of_int H) = ia ->
  letterbox W H ia = (f32_one, f32_one).
Proof.
  intros (m & e & -> & Hm & _) Heq. unfold letterbox. rewrite Heq. unfold f32_gt.
  destruct (SFltb (S754_finite false m e) (S754_finite false m e)) eqn:Hlt.
  - apply SFltb_finite in Hlt. lia.
  - now rewrite f32_div_same.
Qed.

(** X18. A frame of the window's shape fills the window: when the framebuffer
    has the aspect ratio of the frame, exactly, the update uploads the
    full-screen quad that [setupQuad] started with. *)
Theorem update_fills_matching_window (W H : Z) (s s' : Impl) (frame : ImageFrame)
    (evs : list Event) :
  let w := width (size (header frame)) in
  let h := height (size (header frame)) in
  header_in_range (header frame) ->
  1 <= w -> 1 <= h -> 1 <= W < 2 ^ 24 -> 1 <= H < 2 ^ 24 ->
  W * h = w * H ->
  update (W, H) s frame = Ok (s', evs) ->
  vertex_writes evs = [QUAD_VERTICES].
Proof.
  intros w h (Hw & Hh & _) Hw1 Hh1 HW HH Hshape Hupd. fold w h in Hw, Hh.
  destruct (update_events (W, H) s s' frame evs Hupd)
    as (out & diags & _ & _ & _ & _ & Hratio & ->).
  unfold has_pixels in Hratio. fold w h in Hratio.
  destruct (Z.ltb_spec 0 w); [|lia]. destruct (Z.ltb_spec 0 h); [|lia].
  cbn [andb] in Hratio.
  unfold vertex_writes. rewrite !omap_app, omap_Stderr by reflexivity.
  unfold render. rewrite !omap_app.
  rewrite updateQuadForLetterbox_nonzero by (simpl; lia). cbn [fst snd].
  rewrite Hratio.
  rewrite letterbox_same_ratio; [reflexivity | |].
  - apply quotient_of_ints_normal; unfold UINT16_MAX, INT_MAX in *; lia.
  - apply f32_div_ints_same_ratio; unfold UINT16_MAX in *; lia.
Qed.

Lemma update_fills_matching_window_witness :
  exists s' evs,
    update (1280, 640) Impl_initial white_frame = Ok (s', evs) /\
    vertex_writes evs = [QUAD_VERTICES].
Proof.
  destruct (update (1280, 640) Impl_initial white_frame) as [[s' evs] | f] eqn:Hupd.
  - exists s', evs. split; [reflexivity|].
    apply (update_fills_matching_window 1280 640 Impl_initial s' white_frame evs).
    + repeat split; closed_arith.
    + closed_arith.
    + closed_arith.
    + split; closed_arith.
    + split; closed_arith.
    + reflexivity.
    + exact Hupd.
  - vm_compute in Hupd. discriminate Hupd.
Defined.

(** X19. The quad depends on the shape of the framebuffer, not on its
    resolution: a framebuffer [k] times as wide and as high (a HiDPI
    display, a maximised window of the same shape) uploads the same
    vertices, whatever aspect ratio the display holds. *)
Theorem letterbox_resolution_independent (k W H : Z) (s : Impl) :
  1 <= k -> 1 <= W -> 1 <= H -> k * W < 2 ^ 24 -> k * H < 2 ^ 24 ->
  updateQuadForLetterbox (k * W, k * H) s = updateQuadForLetterbox (W, H) s.
Proof.
  intros Hk HW HH HkW HkH. unfold updateQuadForLetterbox.
  destruct (Z.eqb_spec (k * W) 0); [nia|]. destruct (Z.eqb_spec (k * H) 0); [nia|].
  destruct (Z.eqb_spec W 0); [lia|]. destruct (Z.eqb_spec H 0); [lia|].
  cbn [orb]. unfold letterbox.
  rewrite (f32_div_ints_same_ratio (k * W) (k * H) W H) by nia.
  reflexivity.
Qed.

Lemma letterbox_resolution_independent_witness :
  updateQuadForLetterbox (2 * 1280, 2 * 720) showing_4_3
    = updateQuadForLetterbox (1280, 720) showing_4_3.
Proof.
  apply (letterbox_resolution_independent 2 1280 720 showing_4_3); closed_arith.
Defined.

(** * Construction and destruction of the display *)

Lemma omap_cons_match {A B : Type} (f : A -> option B) (x : A) (l : list A) :
  omap f (x :: l) = match f x with Some y => y :: omap f l | None => omap f l end.
Proof. reflexivity. Qed.

Lemma createShaders_paths (pf : Platform) (s : Impl) :
  let vs := vertex_shader_name pf in
  let fs := fragment_shader_name pf in
  let compiled :=
    [ GlCreateShader VertexShader vs; GlShaderSource vs VertexShader; GlCompileShader vs;
      GlCreateShader FragmentShader fs; GlShaderSource fs FragmentShader;
      GlCompileShader fs ] in
  let linked :=
    compiled ++ [ GlCreateProgram (program_name pf);
                  GlAttachShader (program_name pf) vs;
                  GlAttachShader (program_name pf) fs;
                  GlLinkProgram (program_name pf) ] in
  (vertex_compile_status pf = 0 /\
   createShaders pf s = (s, take 3 compiled ++ [GlDeleteShader vs], Some VertexShaderFailed)) \/
  (vertex_compile_status pf <> 0 /\ fragment_compile_status pf = 0 /\
   createShaders pf s
     = (s, compiled ++ [GlDeleteShader vs; GlDeleteShader fs], Some FragmentShaderFailed)) \/
  (vertex_compile_status pf <> 0 /\ fragment_compile_status pf <> 0 /\ link_status pf = 0 /\
   createShaders pf s
     = (set_shader_program s (program_name pf),
        linked ++ [GlDeleteShader vs; GlDeleteShader fs; Ev (GlDeleteProgram (program_name pf))],
        Some ProgramLinkFailed)) \/
  (vertex_compile_status pf <> 0 /\ fragment_compile_status pf <> 0 /\ link_status pf <> 0 /\
   createShaders pf s
     = (set_shader_program s (program_name pf),
        linked ++ [GlDeleteShader vs; GlDeleteShader fs; Stdout ShadersReady],
        None)).
Proof.
  unfold createShaders.
  destruct (Z.eqb_spec (vertex_compile_status pf) 0); [left; now split|].
  destruct (Z.eqb_spec (fragment_compile_status pf) 0); [right; left; now repeat split|].
  destruct (Z.eqb_spec (link_status pf) 0);
    [right; right; left | right; right; right]; now repeat split.
Qed.

(** X20. [createShaders] leaks no shader: on each of its four paths (vertex
    shader, fragment shader or link failure, success) the shaders it deletes
    are the shaders it created, each once and in the order of creation. It
    deletes the program exactly when linking failed, and it returns normally
    exactly when the three statuses it reads are non-zero. *)
Theorem createShaders_deletes_its_shaders (pf : Platform) (s : Impl) :
  let calls := snd (fst (createShaders pf s)) in
  let thrown := snd (createShaders pf s) in
  shaders_deleted calls = shaders_created calls /\
  releases (events_of calls)
    = match thrown with Some ProgramLinkFailed => [program_name pf] | _ => [] end /\
  (thrown = None <->
     vertex_compile_status pf <> 0 /\ fragment_compile_status pf <> 0 /\
     link_status pf <> 0).
Proof.
  destruct (createShaders_paths pf s)
    as [(Hv & ->) | [(Hv & Hf & ->) | [(Hv & Hf & Hl & ->) | (Hv & Hf & Hl & ->)]]];
    cbn; (split; [reflexivity|]); (split; [reflexivity|]);
    split; try discriminate; try tauto.
Qed.

Lemma initGL_paths (pf : Platform) (s : Impl) :
  (exists e, shader_failure e = true /\ snd (createShaders pf s) = Some e /\
     initGL pf s = createShaders pf s) \/
  (exists calls,
     createShaders pf s = (set_shader_program s (program_name pf), calls, None) /\
     initGL pf s =
       (set_texture_id
          (set_vbo (set_vao (set_shader_program s (program_name pf))
                            (vertex_array_name pf)) (buffer_name pf))
          (texture_name pf),
        calls ++ snd (setupQuad pf (set_shader_program s (program_name pf))) ++
          [ GlGenTextures (texture_name pf);
            Ev (GlBindTexture (texture_name pf));
            GlTexParameteri WrapSClampToEdge;
            GlTexParameteri WrapTClampToEdge;
            GlTexParameteri MinFilterLinear;
            GlTexParameteri MagFilterLinear;
            Ev (GlBindTexture 0);
            Stdout GlReady ],
        None)).
Proof.
  unfold initGL.
  destruct (createShaders_paths pf s)
    as [(Hv & ->) | [(Hv & Hf & ->) | [(Hv & Hf & Hl & ->) | (Hv & Hf & Hl & ->)]]].
  - left. eexists. now repeat split.
  - left. eexists. now repeat split.
  - left. eexists. now repeat split.
  - right. eexists. split; reflexivity.
Qed.

Lemma createShaders_events (pf : Platform) (s : Impl) :
  windows_created (snd (fst (createShaders pf s))) = [] /\
  forall e, In e (events_of (snd (fst (createShaders pf s)))) ->
    e = GlDeleteProgram (program_name pf).
Proof.
  destruct (createShaders_paths pf s)
    as [(Hv & ->) | [(Hv & Hf & ->) | [(Hv & Hf & Hl & ->) | (Hv & Hf & Hl & ->)]]];
    cbn; (split; [reflexivity | intuition congruence]).
Qed.

(** X21. A display that fails to construct after its window was opened leaves
    the window open: when a shader fails to compile or the program to link,
    the constructor throws having created a window (not null) that it does
    not destroy, and without terminating GLFW; no destructor runs for it.
    The two earlier failures leave nothing behind: no window exists when
    [glfwInit] fails, and the failure to create one terminates GLFW. *)
Theorem construction_failure (pf : Platform) (e : Failure) (calls : list Call) :
  Display_new pf = (inr e, calls) ->
  (shader_failure e = true ->
     windows_created calls = [created_window pf] /\ created_window pf <> 0 /\
     ~ In (GlfwDestroyWindow (created_window pf)) (events_of calls) /\
     ~ In GlfwTerminate (events_of calls)) /\
  (e = WindowCreationFailed ->
     windows_created calls = [0] /\ events_of calls = [GlfwTerminate]) /\
  (e = GlfwInitFailed -> windows_created calls = [] /\ events_of calls = []).
Proof.
  unfold Display_new, initWindow.
  destruct (glfw_init_ok pf); cbn [negb].
  2:{ intros [= <- <-]. repeat split; discriminate. }
  cbn [window set_window].
  destruct (Z.eqb_spec (created_window pf) 0) as [Hwin | Hwin].
  { intros [= <- <-]. rewrite Hwin. repeat split; discriminate. }
  set (s1 := set_window Impl_initial (created_window pf)).
  destruct (initGL_paths pf s1) as [(e' & He' & Hthrown & ->) | (c & _ & ->)];
    [|discriminate].
  pose proof (createShaders_events pf s1) as (Hwc & Hev).
  destruct (createShaders pf s1) as [[s2 c2] r2]. cbn [fst snd] in Hwc, Hev, Hthrown.
  subst r2. intros [= <- <-].
  split; [|split; intros ->; discriminate].
  intros _. unfold windows_created, events_of in *.
  rewrite !omap_cons_match. cbv beta iota. rewrite Hwc.
  repeat split; try assumption; intros Hin; apply Hev in Hin; discriminate.
Qed.

Lemma construction_failure_witness :
  exists calls,
    Display_new broken_shader_platform = (inr VertexShaderFailed, calls) /\
    windows_created calls = [1] /\
    ~ In (GlfwDestroyWindow 1) (events_of calls) /\
    ~ In GlfwTerminate (events_of calls).
Proof.
  eexists. split; [reflexivity|].
  destruct (construction_failure broken_shader_platform VertexShaderFailed _ eq_refl)
    as (Hleak & _).
  destruct (Hleak eq_refl) as (Hw & _ & Hd & Ht).
  split; [exact Hw|]. split; [exact Hd | exact Ht].
Defined.

(** What a successful construction leaves and did. *)
Lemma Display_new_ok (pf : Platform) (s : Impl) (calls : list Call) :
  Display_new pf = (inl s, calls) ->
  created_window pf <> 0 /\
  handles s = [texture_name pf; vertex_array_name pf; buffer_name pf;
               program_name pf; created_window pf] /\
  image_aspect_ratio s = f32_one /\
  rgb_buffer s = [] /\
  releases (events_of calls) = [] /\
  shaders_deleted calls = shaders_created calls /\
  shaders_created calls = [vertex_shader_name pf; fragment_shader_name pf].
Proof.
  unfold Display_new, initWindow.
  destruct (glfw_init_ok pf); cbn [negb]; [|discriminate].
  cbn [window set_window].
  destruct (Z.eqb_spec (created_window pf) 0) as [Hwin | Hwin]; [discriminate|].
  set (s1 := set_window Impl_initial (created_window pf)).
  destruct (initGL_paths pf s1) as [(e' & He' & Hthrown & ->) | (c & Hcs & ->)].
  - destruct (createShaders pf s1) as [[s2 c2] r2]. cbn [snd] in Hthrown. subst r2.
    discriminate.
  - destruct (createShaders_paths pf s1)
      as [(Hv & Hp) | [(Hv & Hf & Hp) | [(Hv & Hf & Hl & Hp) | (Hv & Hf & Hl & Hp)]]];
      rewrite Hp in Hcs; try discriminate.
    injection Hcs as <-. intros [= <- <-].
    repeat split; assumption || reflexivity.
Qed.

(** X22. Over its whole life a display releases what the platform gave it,
    once: a display that was constructed, then shown any run of frames, then
    destroyed, releases nothing before its destruction, and there exactly
    the texture, vertex array, buffer, program and window the platform
    returned (those that are not zero), in this order; its two shaders were
    deleted during construction; the window it had is not null. *)
Theorem display_lifetime (pf : Platform) (s s' : Impl) (calls : list Call)
    (frames : list (Z * Z * ImageFrame)) (evs : list Event) :
  Display_new pf = (inl s, calls) ->
  updates s frames = Ok (s', evs) ->
  releases (events_of calls) = [] /\
  releases evs = [] /\
  releases (Display_delete s')
    = filter (fun id => id <> 0)
        [texture_name pf; vertex_array_name pf; buffer_name pf;
         program_name pf; created_window pf] /\
  created_window pf <> 0 /\
  shaders_deleted calls = [vertex_shader_name pf; fragment_shader_name pf].
Proof.
  intros Hnew Hrun.
  destruct (Display_new_ok pf s calls Hnew) as (Hwin & Hh & _ & _ & Hrel & Hdel & Hcr).
  destruct (updates_preserve s s' frames evs Hrun) as (Hh' & Hr).
  split; [assumption|]. split; [assumption|].
  split; [|split; [assumption | congruence]].
  unfold Display_delete. now rewrite cleanup_releases, Hh', Hh.
Qed.

Lemma display_lifetime_witness :
  exists s calls s' evs,
    Display_new working_platform = (inl s, calls) /\
    updates s two_frames = Ok (s', evs) /\
    releases (Display_delete s') = [7; 5; 6; 4; 1].
Proof.
  destruct (Display_new working_platform) as [[s | e] calls] eqn:Hnew;
    [|vm_compute in Hnew; discriminate Hnew].
  pose proof Hnew as Hs. vm_compute in Hs. injection Hs as Hs _.
  destruct (updates s two_frames) as [[s' evs] | f] eqn:Hrun.
  - exists s, calls, s', evs. split; [reflexivity|]. split; [exact Hrun|].
    destruct (display_lifetime working_platform s s' calls two_frames evs Hnew Hrun)
      as (_ & _ & Hrel & _).
    exact Hrel.
  - rewrite <- Hs in Hrun. vm_compute in Hrun. discriminate Hrun.
Defined.

(** X23. The aspect ratio a display holds is always one it can letterbox:
    from its construction on and after any run of frames whose headers are
    in range, it is [1.0F] or the quotient of two non-zero 16-bit
    dimensions, hence a normal binary32 number: never zero, subnormal,
    infinite or NaN. *)
Theorem display_ratio_invariant (pf : Platform) (s s' : Impl) (calls : list Call)
    (frames : list (Z * Z * ImageFrame)) (evs : list Event) :
  Display_new pf = (inl s, calls) ->
  Forall (fun x => header_in_range (header (snd x))) frames ->
  updates s frames = Ok (s', evs) ->
  stored_ratio (image_aspect_ratio s') /\
  normal32 (-55) 9 (image_aspect_ratio s').
Proof.
  intros Hnew Hfr Hrun.
  destruct (Display_new_ok pf s calls Hnew) as (_ & _ & Hone & _).
  assert (Hs : stored_ratio (image_aspect_ratio s)) by (left; assumption).
  clear Hnew Hone.
  assert (Hinv : stored_ratio (image_aspect_ratio s')).
  { revert s evs Hs Hrun. induction Hfr as [|[fb frame] rest Hhd _ IH]; intros s evs Hs Hrun.
    - injection Hrun as <- _. assumption.
    - simpl in Hrun.
      destruct (update fb s frame) as [[s1 e1] | f] eqn:Hupd; [|discriminate].
      cbn [obind fst snd] in Hrun.
      destruct (updates s1 rest) as [[s2 e2] | f] eqn:Hrest; [|discriminate].
      cbn [obind fst snd] in Hrun. injection Hrun as <- _.
      apply (IH s1 e2); [|assumption].
      now apply (update_keeps_stored_ratio fb s s1 frame e1). }
  split; [assumption | now apply stored_ratio_normal].
Qed.

Lemma display_ratio_invariant_witness :
  exists s calls s' evs,
    Display_new working_platform = (inl s, calls) /\
    updates s two_frames = Ok (s', evs) /\
    stored_ratio (image_aspect_ratio s').
Proof.
  destruct (Display_new working_platform) as [[s | e] calls] eqn:Hnew;
    [|vm_compute in Hnew; discriminate Hnew].
  pose proof Hnew as Hs. vm_compute in Hs. injection Hs as Hs _.
  destruct (updates s two_frames) as [[s' evs] | f] eqn:Hrun.
  - exists s, calls, s', evs. split; [reflexivity|]. split; [exact Hrun|].
    apply (display_ratio_invariant working_platform s s' calls two_frames evs Hnew);
      [|exact Hrun].
    constructor; [repeat split; closed_arith|].
    constructor; [repeat split; closed_arith | constructor].
  - rewrite <- Hs in Hrun. vm_compute in Hrun. discriminate Hrun.
Defined.
